(** * dabl/plot/utils.py: a shallow embedding and its specification

    The helpers of [dabl.plot.utils] are embedded as Rocq functions and
    their specification is checked against them.

    - Python integers are [Z].  A float is a binary64 number: a rational
      that the rounding [fl] (to nearest, ties to even, with subnormals)
      leaves as it is.  The quotient of two integers is rounded by [fl] and
      raises [OverflowError] when it is too large; the arithmetic of numpy
      on the entries of a series is rounded by [fl] and overflows to an
      infinity.  Rationals are [Q] for the quotients of [find_pretty_grid]
      and canonical rationals [Qc] for the entries of series and arrays,
      where equal numbers must be equal terms.  NaN and missing entries are
      [None].
    - Exceptions are values of [exn], carried by the [result] monad.
    - A numeric series is a list of entries; a general series carries its
      dtype; a frame is the ordered list of its named columns, and its rows
      are the positions in the columns.
    - The frames a function receives by reference live in a store, on which
      the functions that copy or assign run as state-passing computations.
    - numpy and pandas are not part of the module: their operations are
      modelled by what their documentation says they return, and
      [detect_types] and numpy's 'auto' bin estimator are parameters. *)

From Stdlib Require Import ZArith QArith Qpower Qabs Qcanon Qcabs Qround.
From Stdlib Require Import Lqa Lia Bool String.
From stdpp Require Import base option numbers list sorting strings gmap.

Local Open Scope Z_scope.

(** ** binary64

    The floats of Python and numpy are IEEE 754 binary64 numbers: 53 bits of
    mantissa, exponents down to that of the subnormals, [2 ^ -1074], and
    results rounded to the nearest float, a tie going to the even mantissa.
    [fl x] is that rounding without a largest float: the operations that use
    it say what they do with a result of [2 ^ 1024] or more. *)

(** [floor (log2 x)] for a positive [x]. *)
Definition ilog2 (x : Q) : Z :=
  let k := Z.log2 (Qnum x) - Z.log2 (Zpos (Qden x)) in
  if Qle_bool (2 ^ k) x then k else k - 1.

Definition round_half_even (x : Q) : Z :=
  let f := Qfloor x in
  match (x - inject_Z f ?= 1 # 2)%Q with
  | Lt => f
  | Gt => f + 1
  | Eq => if Z.even f then f else f + 1
  end.

(** The exponent of the last place of the floats around [x]. *)
Definition binade (x : Q) : Z := Z.max (ilog2 (Qabs x) - 52) (-1074).

Definition fl (x : Q) : Q :=
  if Qeq_bool x 0 then 0%Q
  else (inject_Z (round_half_even (x / 2 ^ binade x)) * 2 ^ binade x)%Q.

(** Too large for a float: the rounded result would be an infinity. *)
Definition too_large (x : Q) : bool := Qle_bool (2 ^ 1024) (Qabs x).

(** ** Python primitives *)

Module Py.

(** The exceptions the module can raise, with the message of a
    [ValueError] kept as the place that raised it. *)
Inductive value_error :=
| CoefficientsNot1d
| CoefficientsNamesMismatch
| RemovalsNotCategories
| NewCategoriesIncludeOld
| FillValueNotInCategories
| BinsNotPositive
| BinsNotMonotonic
| TargetColNotAColumn
| TargetColNotValid
| LessThanTwoClasses
| NeedCategorical
| NeedContinuous
| FigureSizeNegative
| GridNotPositive
| TruthValueAmbiguous.

Inductive exn :=
| ZeroDivisionError
| AssertionError
| KeyError
| TypeError
| AttributeError
| NameError
| OverflowError
| ValueError (why : value_error).

Inductive result (A : Type) :=
| Ok (a : A)
| Raise (e : exn).
Arguments Ok {A} a.
Arguments Raise {A} e.

#[export] Instance result_ret : MRet result := fun A a => Ok a.
#[export] Instance result_bind : MBind result := fun A B k m =>
  match m with
  | Ok a => k a
  | Raise e => Raise e
  end.

#[export] Instance value_error_eq_dec : EqDecision value_error.
Proof. solve_decision. Defined.
#[export] Instance exn_eq_dec : EqDecision exn.
Proof. solve_decision. Defined.
#[export] Instance result_eq_dec {A} `{EqDecision A} : EqDecision (result A).
Proof. solve_decision. Defined.

(** [a % b] on integers: the remainder has the sign of the divisor. *)
Definition mod_ (a b : Z) : result Z :=
  if b =? 0 then Raise ZeroDivisionError else Ok (a mod b).

(** [a / b] on integers is true division: the float nearest to the
    quotient, and an [OverflowError] when that is too large for a float. *)
Definition truediv (a b : Z) : result Q :=
  if b =? 0 then Raise ZeroDivisionError
  else
    let q := fl (inject_Z a / inject_Z b) in
    if too_large q then Raise OverflowError else Ok q.

(** [int(x)] truncates toward zero. *)
Definition int (x : Q) : Z := Z.quot (Qnum x) (Zpos (Qden x)).

(** [np.ceil(x)], read back as an integer. *)
Definition ceil (x : Q) : Z := Qceiling x.

(** [range(start, stop, -1)]. *)
Definition range_down (start stop : Z) : list Z :=
  List.map (fun i => start - Z.of_nat i) (seq 0 (Z.to_nat (start - stop))).

(** [l[k:]] for a possibly negative [k]. *)
Definition slice_from {A} (k : Z) (l : list A) : list A :=
  if k <? 0
  then skipn (Z.to_nat (Z.max 0 (Z.of_nat (length l) + k))) l
  else skipn (Z.to_nat k) l.

End Py.
Export Py.

(** ** find_pretty_grid (lines 20-70) *)

(** How the body of a [for] loop that contains a [return] leaves off. *)
Inductive loop_exit (A S : Type) :=
| Returned (a : A)
| Fallthrough (s : S).
Arguments Returned {A S} a.
Arguments Fallthrough {A S} s.

(** The [for cols in range(...)] loop; the loop state is
    [(best_empty, best_cols)]. *)
Fixpoint find_pretty_grid_loop (n_plots : Z) (rng : list Z)
    (best_empty best_cols : Z) : result (loop_exit (Z * Z) (Z * Z)) :=
  match rng with
  | [] => Ok (Fallthrough (best_empty, best_cols))
  | cols :: rng' =>
      remainder ← mod_ n_plots cols;
      let empty := if negb (remainder =? 0) then cols - remainder else 0 in
      if empty =? 0 then
        q ← truediv n_plots cols;
        Ok (Returned (int q, cols))
      else if empty <? best_empty then
        find_pretty_grid_loop n_plots rng' empty cols
      else
        find_pretty_grid_loop n_plots rng' best_empty best_cols
  end.

Definition find_pretty_grid (n_plots max_cols : Z) : result (Z * Z) :=
  r ← mod_ n_plots max_cols;
  if r =? 0 then
    q ← truediv n_plots max_cols;
    Ok (int q, max_cols)
  else
    q ← truediv n_plots max_cols;
    let min_rows := int (inject_Z (ceil q)) in
    let best_empty := max_cols in
    let best_cols := max_cols in
    ex ← find_pretty_grid_loop n_plots (range_down max_cols (min_rows - 1))
            best_empty best_cols;
    match ex with
    | Returned rc => Ok rc
    | Fallthrough (_, best_cols) =>
        q ← truediv n_plots best_cols;
        Ok (int (inject_Z (ceil q)), best_cols)
    end.

(** ** Numeric series

    A numeric series is a list of floats, [None] being NaN; its entries
    are not infinite.  The quantile is the one numpy and pandas compute by
    default (method 'linear'): NaN is skipped, the rest is sorted, and the
    value at the fractional rank [q * (n - 1)] is interpolated between its
    two neighbours and rounded to a float; a series without numbers has the
    quantile NaN.  Between floats the interpolated value is never too large
    for a float; were it so, it would not be a number. *)

Definition dropna {A} (s : list (option A)) : list A := omap id s.

Definition Qc_floor (x : Qc) : Z := Qfloor (this x).

(** The float nearest to a number. *)
Definition flc (x : Qc) : Qc := Q2Qc (fl x).

Definition quantile (q : Qc) (s : list (option Qc)) : option Qc :=
  let a := merge_sort Qcle (dropna s) in
  match a with
  | [] => None
  | a0 :: _ =>
      let h := (q * Qc_of_Z (Z.of_nat (length a) - 1))%Qc in
      let i := Z.to_nat (Qc_floor h) in
      let lo := nth i a a0 in
      let hi := nth (S i) a lo in
      let v := flc (lo + (h - Qc_of_Z (Qc_floor h)) * (hi - lo))%Qc in
      if too_large v then None else Some v
  end.

(** [np.nanquantile] and [Series.quantile] agree on a series. *)
Definition nanquantile (s : list (option Qc)) (q : Qc) : option Qc :=
  quantile q s.

(** What numpy computes with: a float, an infinity or NaN. *)
Inductive double :=
| NaN
| NInf
| Fin (x : Qc)
| PInf.

#[export] Instance double_eq_dec : EqDecision double.
Proof. solve_decision. Defined.

Definition double_of (x : option Qc) : double :=
  match x with
  | Some x => Fin x
  | None => NaN
  end.

(** A rounded result that is too large is an infinity. *)
Definition overflow (x : Qc) : double :=
  if too_large x then (if bool_decide (x < Qc_of_Z 0)%Qc then NInf else PInf)
  else Fin x.

Definition double_opp (x : double) : double :=
  match x with
  | NaN => NaN
  | NInf => PInf
  | Fin x => Fin (- x)
  | PInf => NInf
  end.

Definition double_add (x y : double) : double :=
  match x, y with
  | NaN, _ | _, NaN => NaN
  | Fin x, Fin y => overflow (flc (x + y))
  | PInf, NInf | NInf, PInf => NaN
  | PInf, _ | _, PInf => PInf
  | NInf, _ | _, NInf => NInf
  end.

Definition double_sub (x y : double) : double := double_add x (double_opp y).

Definition two : Qc := Q2Qc 2.

(** [x / 2]: halving cannot overflow. *)
Definition double_half (x : double) : double :=
  match x with
  | Fin x => Fin (flc (x / two))
  | _ => x
  end.

(** A comparison with NaN is false. *)
Definition double_le (x y : double) : bool :=
  match x, y with
  | NaN, _ | _, NaN => false
  | NInf, _ | _, PInf => true
  | Fin x, Fin y => bool_decide (x ≤ y)%Qc
  | _, _ => false
  end.

Definition double_lt (x y : double) : bool :=
  match x, y with
  | NaN, _ | _, NaN => false
  | Fin x, Fin y => bool_decide (x < y)%Qc
  | NInf, NInf | PInf, PInf => false
  | NInf, _ | _, PInf => true
  | _, _ => false
  end.

(** Arithmetic with NaN gives NaN. *)
Definition nan_lift2 (f : Qc -> Qc -> Qc) (x y : option Qc) : option Qc :=
  match x, y with
  | Some x, Some y => Some (f x y)
  | _, _ => None
  end.

Definition q01 : Qc := Q2Qc (1 # 100).
Definition q99 : Qc := Q2Qc (99 # 100).

(** [Series.between(left, right)] on one entry: both ends are included. *)
Definition between (left right : double) (x : option Qc) : bool :=
  double_le left (double_of x) && double_le (double_of x) right.

Definition isna {A} (x : option A) : bool :=
  match x with
  | None => true
  | Some _ => false
  end.

(** [mask.sum()]: the number of [True] entries. *)
Definition mask_sum (mask : list bool) : Z :=
  Z.of_nat (length (filter Is_true mask)).

Inductive warning :=
| UserWarning (dropped : Z).

#[export] Instance warning_eq_dec : EqDecision warning.
Proof. solve_decision. Defined.

(** ** _inlier_range (lines 447-453) *)

Definition _inlier_range (series : list (option Qc)) : result (double * double) :=
  let low := double_of (nanquantile series q01) in
  let high := double_of (nanquantile series q99) in
  if negb (double_lt low high) then Raise AssertionError else
  (* the two is a complete hack *)
  let inner_range := double_half (double_sub high low) in
  Ok (double_sub low inner_range, double_add high inner_range).

(** ** _find_inliers (lines 456-464) *)

Definition _find_inliers (series : list (option Qc))
    : result (list bool * list warning) :=
  '(low, high) ← _inlier_range series;
  let mask := between low high <$> series in
  let mask := zip_with orb mask (isna <$> series) in
  let dropped := Z.of_nat (length mask) - mask_sum mask in
  if 0 <? dropped then Ok (mask, [UserWarning dropped])
  else Ok (mask, []).

(** ** _clean_outliers (lines 467-481)

    The rows of a table are labelled by their positions.  A series or a
    frame that pandas computes carries the labels of its rows with it. *)










Fixpoint traverse {A B} (f : A -> result B) (l : list A) : result (list B) :=
  match l with
  | [] => Ok []
  | x :: l => y ← f x; ys ← traverse f l; Ok (y :: ys)
  end.


(** ** Series and frames

    A cell holds a number or a string; [None] is a missing entry (NaN or
    None).  A series carries its dtype: [float64] stands for the numeric
    dtypes, [object] for columns of Python objects, [category] for a
    categorical with its categories.  A frame is the ordered list of its
    named columns; the rows are the positions in the columns. *)

Inductive scalar :=
| Num (x : Qc)
| Str (s : string).

#[export] Instance scalar_eq_dec : EqDecision scalar.
Proof. solve_decision. Defined.

Inductive dtype :=
| float64
| object
| category (categories : list scalar).

#[export] Instance dtype_eq_dec : EqDecision dtype.
Proof. solve_decision. Defined.

Record Series := mkSeries { dtype_of : dtype; values : list (option scalar) }.

#[export] Instance Series_eq_dec : EqDecision Series.
Proof. solve_decision. Defined.

(** [series.nunique()]: the distinct entries, missing ones aside. *)
Definition unique (s : Series) : list scalar := remove_dups (dropna (values s)).
Definition nunique (s : Series) : Z := Z.of_nat (length (unique s)).

(** The order pandas sorts the categories by: numbers before strings. *)
Definition scalar_le (a b : scalar) : Prop :=
  match a, b with
  | Num x, Num y => (x ≤ y)%Qc
  | Str s, Str t => String.leb s t = true
  | Num _, Str _ => True
  | Str _, Num _ => False
  end.

#[export] Instance scalar_le_dec : RelDecision scalar_le.
Proof. intros [x|s] [y|t]; cbn; apply _. Defined.

Definition is_num (a : scalar) : bool :=
  match a with
  | Num _ => true
  | Str _ => false
  end.

(** [series.astype('category')]: the categories are the distinct entries,
    sorted, the numbers first and the strings after them. *)
Definition astype_category (s : Series) : Series :=
  match dtype_of s with
  | category _ => s
  | _ => mkSeries (category (merge_sort scalar_le (unique s))) (values s)
  end.

Definition count_of (v : scalar) (s : Series) : nat :=
  length (filter (fun x => x = Some v) (values s)).

(** The order of [value_counts]: by descending count. *)
Definition count_ge (a b : scalar * nat) : Prop := (b.2 <= a.2)%nat.

#[export] Instance count_ge_dec : RelDecision count_ge.
Proof. intros a b. unfold count_ge. apply _. Defined.

(** [series.value_counts()]: every category of a categorical (every
    distinct entry otherwise) with the number of its occurrences, the most
    frequent first.  pandas does not fix the order among equal counts. *)
Definition value_counts (s : Series) : list (scalar * nat) :=
  let index :=
    match dtype_of s with
    | category cats => cats
    | _ => unique s
    end in
  merge_sort count_ge ((fun c => (c, count_of c s)) <$> index).

(** [series.cat.remove_categories(removals)]: the entries of a removed
    category become missing. *)
Definition remove_categories (s : Series) (removals : list scalar)
    : result Series :=
  match dtype_of s with
  | category cats =>
      if forallb (fun r => bool_decide (r ∈ cats)) removals then
        Ok (mkSeries
              (category (filter (fun c => c ∉ removals) cats))
              ((fun x => x ≫= fun v =>
                  if decide (v ∈ removals) then None else Some v)
                 <$> values s))
      else Raise (ValueError RemovalsNotCategories)
  | _ => Raise AttributeError
  end.

(** [series.cat.add_categories(new)]. *)
Definition add_categories (s : Series) (new : list scalar) : result Series :=
  match dtype_of s with
  | category cats =>
      if existsb (fun c => bool_decide (c ∈ cats)) new
      then Raise (ValueError NewCategoriesIncludeOld)
      else Ok (mkSeries (category (cats ++ new)) (values s))
  | _ => Raise AttributeError
  end.

(** [series.fillna(value)]; filling with NaN changes nothing, a
    categorical only takes one of its categories, and a string put into a
    numeric column turns it into an object column. *)
Definition fillna (s : Series) (value : option scalar) : result Series :=
  match value with
  | None => Ok s
  | Some v =>
      let filled := (fun x => Some (default v x)) <$> values s in
      match dtype_of s with
      | category cats =>
          if bool_decide (v ∈ cats) then Ok (mkSeries (category cats) filled)
          else Raise (ValueError FillValueNotInCategories)
      | float64 =>
          Ok (mkSeries (if is_num v then float64 else object) filled)
      | object => Ok (mkSeries object filled)
      end
  end.

(** ** _prune_categories (lines 257-262) *)

Definition dabl_other : scalar := Str "dabl_other".

Definition _prune_categories (series : Series) (max_categories : Z)
    : result Series :=
  let series := astype_category series in
  let small_categories := (slice_from max_categories (value_counts series)).*1 in
  res ← remove_categories series small_categories;
  res ← add_categories res [dabl_other];
  fillna res (Some dabl_other).

(** ** Frames in the store

    A function that receives a frame receives a reference to it.  The store
    maps references to frames; a computation may fail and still leave its
    writes behind. *)

Definition St (A : Type) : Type :=
  gmap nat (list (string * Series)) ->
  result A * gmap nat (list (string * Series)).

#[export] Instance St_ret : MRet St := fun A a h => (Ok a, h).
#[export] Instance St_bind : MBind St := fun A B k m h =>
  match m h with
  | (Ok a, h') => k a h'
  | (Raise e, h') => (Raise e, h')
  end.

Definition lift {A} (r : result A) : St A := fun h => (r, h).

Definition St_load (X : nat) : St (list (string * Series)) := fun h =>
  match h !! X with
  | Some df => (Ok df, h)
  | None => (Raise NameError, h)
  end.

Definition St_alloc (df : list (string * Series)) : St nat := fun h =>
  let X := fresh (dom h) in (Ok X, <[X := df]> h).

Definition St_store (X : nat) (df : list (string * Series)) : St unit :=
  fun h => (Ok (), <[X := df]> h).

Fixpoint for_each {A} (l : list A) (body : A -> St unit) : St unit :=
  match l with
  | [] => mret ()
  | x :: l => _ ← body x; for_each l body
  end.

(** [df[col]] *)
Fixpoint frame_lookup (df : list (string * Series)) (col : string)
    : option Series :=
  match df with
  | [] => None
  | (c, s) :: df => if decide (c = col) then Some s else frame_lookup df col
  end.

Definition getitem (df : list (string * Series)) (col : string)
    : result Series :=
  match frame_lookup df col with
  | Some s => Ok s
  | None => Raise KeyError
  end.

(** [df[col] = s]: an existing column is replaced where it stands, a new
    one is added last. *)
Fixpoint setitem (df : list (string * Series)) (col : string) (s : Series)
    : list (string * Series) :=
  match df with
  | [] => [(col, s)]
  | (c, s0) :: df =>
      if decide (c = col) then (c, s) :: df else (c, s0) :: setitem df col s
  end.

(** [X.copy()] *)
Definition DataFrame_copy (X : nat) : St nat :=
  df ← St_load X; St_alloc df.

(** [X[col]] *)
Definition DataFrame_getitem (X : nat) (col : string) : St Series :=
  df ← St_load X; lift (getitem df col).

(** [X[[col, ...]]]: a new frame of the columns asked for. *)
Definition DataFrame_select (X : nat) (cols : list string) : St nat :=
  df ← St_load X;
  sel ← lift (traverse (fun c => s ← getitem df c; Ok (c, s)) cols);
  St_alloc sel.

(** [X[col] = s] *)
Definition DataFrame_setitem (X : nat) (col : string) (s : Series) : St unit :=
  df ← St_load X; St_store X (setitem df col s).

(** [X[col].fillna(value, inplace=True)]: the column is a view of the
    frame, which is filled through it. *)
Definition Series_fillna_inplace (X : nat) (col : string)
    (value : option scalar) : St unit :=
  df ← St_load X;
  s ← lift (getitem df col);
  s ← lift (fillna s value);
  St_store X (setitem df col s).

(** The maximum of a list of floats, skipping NaN; NaN when nothing is
    left. *)
Definition Qc_max (x y : Qc) : Qc := if decide (x ≤ y)%Qc then y else x.

Definition nanmax (l : list (option Qc)) : option Qc :=
  foldr (fun x acc =>
           match x, acc with
           | Some x, Some a => Some (Qc_max x a)
           | Some x, None => Some x
           | None, acc => acc
           end) None l.

Definition number (x : option scalar) : option Qc :=
  match x with
  | Some (Num q) => Some q
  | _ => None
  end.

(** [X.max(numeric_only=True)]: the maximum of each numeric column. *)
Definition DataFrame_max_numeric_only (df : list (string * Series))
    : list (option Qc) :=
  (fun cs => nanmax (number <$> values cs.2))
    <$> filter (fun cs => dtype_of cs.2 = float64) df.

(** ** _prune_category_make_X (lines 265-276) *)

Definition _prune_category_make_X (X : nat) (col target_col : string)
    (max_categories : Z) : St nat :=
  col_values ← DataFrame_getitem X col;
  if max_categories <? nunique col_values then
    (* keep only top 10 categories if there are more than 20 *)
    col_values ← lift (_prune_categories col_values (Z.min 10 max_categories));
    selected ← DataFrame_select X [target_col];
    X_new ← DataFrame_copy selected;
    _ ← DataFrame_setitem X_new col col_values;
    mret X_new
  else
    X_new ← DataFrame_copy X;
    s ← DataFrame_getitem X_new col;
    _ ← DataFrame_setitem X_new col (astype_category s);
    mret X_new.

(** ** _fill_missing_categorical (lines 279-289) *)

Definition dabl_missing : scalar := Str "dabl_missing".

(** [x + y] in floats, an integer operand being converted first;
    [max_value + 1] does not overflow, the largest float plus one being
    rounded to itself. *)
Definition float_add (x y : Qc) : Qc := flc (flc x + flc y).

Definition _fill_missing_categorical (X : nat) : St nat :=
  (* fill in missing values in categorical variables with new category
     ensure we use strings for object columns and number for integers *)
  X ← DataFrame_copy X;
  df ← St_load X;
  let max_value := nanmax (DataFrame_max_numeric_only df) in
  _ ← for_each df.*1 (fun col =>
        s ← DataFrame_getitem X col;
        if decide (dtype_of s = object) then
          Series_fillna_inplace X col (Some dabl_missing)
        else
          Series_fillna_inplace X col
            (Num <$> nan_lift2 float_add max_value (Some (Qc_of_Z 1))));
  mret X.

(** ** plot_coefficients (lines 73-125)

    An array is its shape and its entries in row-major order.  What the
    function draws is returned as the list of bars, left to right: the name
    on the tick, the height and the colour. *)

Record ndarray := mkArray { shape : list nat; data : list Qc }.

Definition squeeze (a : ndarray) : ndarray :=
  mkArray (filter (fun n => n <> 1%nat) (shape a)) (data a).

Definition ndim (a : ndarray) : nat := length (shape a).

Definition ravel (a : ndarray) : ndarray :=
  mkArray [length (data a)] (data a).

(** [len(a)] of a one-dimensional array. *)
Definition len (a : ndarray) : nat := length (data a).

(** The order of [argsort]: by value. *)
Definition value_le (a b : Qc * nat) : Prop := (a.1 ≤ b.1)%Qc.

#[export] Instance value_le_dec : RelDecision value_le.
Proof. intros a b. unfold value_le. apply _. Defined.

(** [np.argsort(a)]: the positions of the entries in ascending order. *)
Definition argsort (a : list Qc) : list nat :=
  (merge_sort value_le (zip a (seq 0 (length a)))).*2.

(** [a[index]] for a list of positions. *)
Definition take_positions {A} (a : list A) (index : list nat) : list A :=
  omap (fun i => a !! i) index.

(** [a[mask]] for a list of booleans. *)
Definition take_mask {A} (a : list A) (mask : list bool) : list A :=
  omap (fun xb => if xb.2 : bool then Some xb.1 else None) (zip a mask).

Inductive color :=
| red
| blue.

Definition plot_coefficients (coefficients : ndarray)
    (feature_names : list string) (n_top_features : Z)
    : result (list (string * Qc * color)) :=
  let coefficients := squeeze coefficients in
  if (1 <? ndim coefficients)%nat then
    (* this is not a row or column vector *)
    Raise (ValueError CoefficientsNot1d)
  else
  let coefficients := ravel coefficients in
  if negb (len coefficients =? length feature_names)%nat then
    Raise (ValueError CoefficientsNamesMismatch)
  else
  (* get coefficients with large absolute values *)
  let coef := data (ravel coefficients) in
  let mask := (fun c => negb (bool_decide (c = Qc_of_Z 0))) <$> coef in
  let coef := take_mask coef mask in
  let feature_names := take_mask feature_names mask in
  let interesting_coefficients :=
    slice_from (- n_top_features) (argsort (Qcabs <$> coef)) in
  let new_inds := argsort (take_positions coef interesting_coefficients) in
  let interesting_coefficients :=
    take_positions interesting_coefficients new_inds in
  (* plot them *)
  let colors :=
    (fun c => if bool_decide (c < Qc_of_Z 0)%Qc then red else blue)
      <$> take_positions coef interesting_coefficients in
  Ok (zip (zip (take_positions feature_names interesting_coefficients)
               (take_positions coef interesting_coefficients))
          colors).

(** ** _check_X_target_col (lines 304-326) *)

(** The flags [detect_types] gives for a column that the check reads.  The
    frame [X] comes with [index], the labels of its rows. *)
Record detected := mkDetected { continuous : bool; categorical : bool }.

(** The target is named by a string, or by something with a length. *)
Inductive target_spec :=
| TargetName (name : string)
| TargetList (names : list string).

Section CheckTarget.
(** [detect_types] is defined in [dabl.preprocessing]. *)
Variable type_hints : Type.
Variable detect_types :
  list (string * Series) -> option type_hints ->
  result (list (string * detected)).

Fixpoint types_loc (types : list (string * detected)) (col : string)
    : result detected :=
  match types with
  | [] => Raise KeyError
  | (c, row) :: types => if decide (c = col) then Ok row else types_loc types col
  end.

Definition _check_X_target_col (X : list (string * Series))
    (index : list scalar) (target_col : target_spec)
    (types : option (list (string * detected)))
    (type_hints : option type_hints) (task : option string)
    : result (list (string * detected)) :=
  types ← match types with
          | None => detect_types X type_hints
          | Some types => Ok types
          end;
  match target_col with
  | TargetList names =>
      if (1 <? length names)%nat then Raise (ValueError TargetColNotAColumn)
      else Raise TypeError (* a list is not hashable *)
  | TargetName target_col =>
      if negb (bool_decide (target_col ∈ X.*1)) then
        Raise (ValueError TargetColNotValid)
      else
      target ← getitem X target_col;
      if nunique target <? 2 then
        (* the message reads X.loc[0, target_col], by label *)
        if bool_decide (Num (Qc_of_Z 0) ∈ index)
        then Raise (ValueError LessThanTwoClasses)
        else Raise KeyError
      else
      (* FIXME we get target types here with detect_types,
         but in the estimator with type_of_target *)
      not_categorical ←
        (if bool_decide (task = Some "classification"%string)
         then row ← types_loc types target_col; Ok (negb (categorical row))
         else Ok false);
      if not_categorical : bool then Raise (ValueError NeedCategorical) else
      not_continuous ←
        (if bool_decide (task = Some "regression"%string)
         then row ← types_loc types target_col; Ok (negb (continuous row))
         else Ok false);
      if not_continuous : bool then Raise (ValueError NeedContinuous) else
      Ok types
  end.

End CheckTarget.

(** ** class_hists: the bin edges (lines 422-425) *)

Inductive bins_spec :=
| BinsInt (n : Z)
| BinsAuto
| BinsEdges (edges : list Qc).

Definition Qc_min (x y : Qc) : Qc := if decide (x ≤ y)%Qc then x else y.

(** The range the bins cover: that of the data, [(0, 1)] without data, and
    half a unit to each side of data that is constant. *)
Definition outer_edges (a : list Qc) : Qc * Qc :=
  match a with
  | [] => (Qc_of_Z 0, Qc_of_Z 1)
  | x :: a' =>
      let first_edge := foldr Qc_min x a' in
      let last_edge := foldr Qc_max x a' in
      if decide (first_edge = last_edge)
      then ((first_edge - Q2Qc (1 # 2))%Qc, (last_edge + Q2Qc (1 # 2))%Qc)
      else (first_edge, last_edge)
  end.

(** [np.linspace(start, stop, num)] for [num >= 2]. *)
Definition linspace (start stop : Qc) (num : nat) : list Qc :=
  (fun i => (start + Qc_of_Z (Z.of_nat i) * (stop - start)
                     / Qc_of_Z (Z.of_nat num - 1))%Qc)
    <$> seq 0 num.

Fixpoint monotonic (edges : list Qc) : bool :=
  match edges with
  | x :: (y :: _) as rest => bool_decide (x ≤ y)%Qc && monotonic rest
  | _ => true
  end.

Section ClassHists.
(** The number of bins numpy's 'auto' estimator chooses for the data. *)
Variable auto_bins : list Qc -> positive.

(** [np.histogram_bin_edges(a, bins=bins)] *)
Definition histogram_bin_edges (a : list Qc) (bins : bins_spec)
    : result (list Qc) :=
  match bins with
  | BinsInt n =>
      if n <? 1 then Raise (ValueError BinsNotPositive)
      else Ok (linspace (outer_edges a).1 (outer_edges a).2 (Z.to_nat n + 1))
  | BinsAuto =>
      Ok (linspace (outer_edges a).1 (outer_edges a).2
            (Pos.to_nat (auto_bins a) + 1))
  | BinsEdges edges =>
      if monotonic edges then Ok edges
      else Raise (ValueError BinsNotMonotonic)
  end.

(** The first lines of [class_hists]: the edges of the bins that are drawn,
    for the entries [column] of the column. *)
Definition class_hists_bin_edges (column : list (option Qc))
    (bins : bins_spec) : result (list Qc) :=
  let col_data := dropna column in
  bin_edges ← histogram_bin_edges col_data bins;
  if (length bin_edges <? 10)%nat then
    histogram_bin_edges col_data (BinsInt 10)
  else Ok bin_edges.

End ClassHists.

(** ** _shortname (lines 154-174) and _short_tick_names (lines 329-333)

    A Python string is a [string], one character per element. *)

(** Where the slice [s[:k]] stops in a sequence of length [len]. *)
Definition slice_stop (k : Z) (len : nat) : nat :=
  if k <? 0 then Z.to_nat (Z.max 0 (Z.of_nat len + k))
  else Nat.min (Z.to_nat k) len.

(** [s[:k]] on a string. *)
Definition str_slice_to (k : Z) (s : string) : string :=
  String.substring 0 (slice_stop k (String.length s)) s.

Definition _shortname (some_string : string) (maxlen : Z) : string :=
  if maxlen <? Z.of_nat (String.length some_string) then
    (str_slice_to (maxlen - 3) some_string ++ "...")%string
  else some_string.

(** The texts of an axes that the module reads and sets. *)
Record Axes := mkAxes {
  xlabel : string;
  ylabel : string;
  xticklabels : list string;
  yticklabels : list string
}.

Definition _short_tick_names (ax : Axes) : Axes :=
  let ax := mkAxes (xlabel ax) (ylabel ax) (xticklabels ax)
              ((fun t => _shortname t 10) <$> yticklabels ax) in
  let ax := mkAxes (_shortname (xlabel ax) 20) (ylabel ax) (xticklabels ax)
              (yticklabels ax) in
  mkAxes (xlabel ax) (_shortname (ylabel ax) 20) (xticklabels ax)
    (yticklabels ax).

(** ** _make_subplots (lines 292-301)

    Of the figure only the size is kept, and of the axes the shape of the
    array that holds them. *)

(** What [plt.subplots(nrows, ncols, figsize=...)] returns for the axes:
    one axes, a one-dimensional array when there is one row or one column,
    a two-dimensional array otherwise.  A negative figure size and a grid
    without rows or columns are a [ValueError]. *)
Inductive axes_array :=
| OneAxes
| Axes1d (n : Z)
| Axes2d (nrows ncols : Z).

Definition plt_subplots (nrows ncols : Z) (figsize : Z * Z)
    : result axes_array :=
  (* the figure is made first, then the grid of axes *)
  if (figsize.1 <? 0) || (figsize.2 <? 0) then
    Raise (ValueError FigureSizeNegative)
  else if (nrows <? 1) || (ncols <? 1) then Raise (ValueError GridNotPositive)
  else if (nrows =? 1) && (ncols =? 1) then Ok OneAxes
  else if nrows =? 1 then Ok (Axes1d ncols)
  else if ncols =? 1 then Ok (Axes1d nrows)
  else Ok (Axes2d nrows ncols).

(** The shape of [np.atleast_2d(axes)]. *)
Definition atleast_2d (axes : axes_array) : Z * Z :=
  match axes with
  | OneAxes => (1, 1)
  | Axes1d n => (1, n)
  | Axes2d nrows ncols => (nrows, ncols)
  end.

Record subplots := mkSubplots { figsize : Z * Z; axes_shape : Z * Z }.

Definition _make_subplots (n_plots max_cols row_height : Z)
    : result subplots :=
  '(n_rows, n_cols) ← find_pretty_grid n_plots max_cols;
  axes ← plt_subplots n_rows n_cols (4 * n_cols, row_height * n_rows);
  (* we don't want ravel to fail, this is awkward! *)
  let axes := atleast_2d axes in
  Ok (mkSubplots (4 * n_cols, row_height * n_rows) axes).

(** ** _get_scatter_alpha and _get_scatter_size (lines 484-509) *)

(** An argument that is the string "auto" or a value. *)
Inductive or_auto (A : Type) :=
| Auto
| Given (a : A).
Arguments Auto {A}.
Arguments Given {A} a.

Definition _get_scatter_alpha (scatter_alpha : or_auto Qc) (n_samples : Z) : Qc :=
  match scatter_alpha with
  | Given a => a
  | Auto =>
      if n_samples <? 100 then Q2Qc (9 # 10)
      else if n_samples <? 1000 then Q2Qc (5 # 10)
      else if n_samples <? 10000 then Q2Qc (2 # 10)
      else Q2Qc (1 # 10)
  end.

Definition _get_scatter_size (scatter_size : or_auto Z) (n_samples : Z) : Z :=
  match scatter_size with
  | Given s => s
  | Auto =>
      if n_samples <? 100 then 30
      else if n_samples <? 1000 then 30
      else if n_samples <? 2000 then 10
      else if n_samples <? 10000 then 2
      else 1
  end.

(** ** discrete_scatter: the limits of the axes (lines 388-394)

    [xlims] and [ylims] are the limits the axes have once the points are
    drawn. *)

(** [max(a, b)] and [min(a, b)] of Python: the second argument is taken
    when it compares strictly beyond the first. *)
Definition py_max (a b : double) : double := if double_lt a b then b else a.
Definition py_min (a b : double) : double := if double_lt b a then b else a.

Definition discrete_scatter_limits (x y : list (option Qc))
    (clip_outliers : bool) (xlims ylims : Qc * Qc)
    : result ((double * double) * (double * double)) :=
  if clip_outliers then
    '(x_low, x_high) ← _inlier_range x;
    '(y_low, y_high) ← _inlier_range y;
    Ok ((py_max x_low (Fin xlims.1), py_min x_high (Fin xlims.2)),
        (py_max y_low (Fin ylims.1), py_min y_high (Fin ylims.2)))
  else Ok ((Fin xlims.1, Fin xlims.2), (Fin ylims.1, Fin ylims.2)).

(** * Specification vocabulary

    The notions the theorems are stated with: they are not part of the
    code. *)

(** The floats: the integers of up to 53 bits times a power of two that is
    not below the unit of the subnormals. *)
Definition is_float (x : Q) : Prop :=
  exists m e : Z,
    Z.abs m <= 2 ^ 53 /\ -1074 <= e /\ (x == inject_Z m * 2 ^ e)%Q.

(** The floats of a binary64: those that are not too large. *)
Definition binary64 (x : Q) : Prop := is_float x /\ too_large x = false.

(** [ceil(n / c)] of the exact quotient. *)
Definition ceil_div (n c : Z) : Z := Qceiling (inject_Z n / inject_Z c)%Q.

(** The empty cells of a grid of [c] columns with as few rows as hold [n]. *)
Definition wasted (n c : Z) : Z := ceil_div n c * c - n.

(** What the loop state means once the columns above [s] are scanned:
    before the first iteration it is the initial [(M, M)]; afterwards
    [bc] is the widest column count with the fewest empty cells. *)
Definition scanned (N M s be bc : Z) : Prop :=
  (forall c, s < c <= M -> N mod c <> 0) /\
  ((s = M /\ be = M /\ bc = M) \/
   (s < bc <= M /\ be = wasted N bc /\
    forall c, s < c <= M ->
      be <= wasted N c /\ (wasted N c = be -> c <= bc))).

(** A range the scan crosses without dividing by zero: no column count is
    zero before one that divides [n]. *)
Fixpoint zero_free (n : Z) (rng : list Z) : Prop :=
  match rng with
  | [] => True
  | c :: rng' => c <> 0 /\ (n mod c = 0 \/ zero_free n rng')
  end.







(** A categorical is well formed when its categories are distinct and hold
    every entry; other series are converted by [astype_category]. *)
Definition wf_series (s : Series) : Prop :=
  match dtype_of s with
  | category cats => NoDup cats /\ forall v, Some v ∈ values s -> v ∈ cats
  | _ => True
  end.

Definition categories (s : Series) : list scalar :=
  match dtype_of s with
  | category cats => cats
  | _ => []
  end.

(** [kept] holds [d] of the most frequent categories of a series, or all
    of them when there are fewer: none of them is rarer than a category
    that it lacks.  Among equally frequent categories any choice will do. *)
Definition most_frequent (s : Series) (d : nat) (kept : list scalar) : Prop :=
  NoDup kept /\
  (forall c, c ∈ kept -> c ∈ categories (astype_category s)) /\
  length kept = Nat.min d (length (categories (astype_category s))) /\
  forall a b, a ∈ kept -> b ∈ categories (astype_category s) -> b ∉ kept ->
    (count_of b s <= count_of a s)%nat.

(** Where the slice [l[k:]] starts in a list of length [len]. *)
Definition slice_start (k : Z) (len : nat) : nat :=
  if k <? 0 then Z.to_nat (Z.max 0 (Z.of_nat len + k)) else Z.to_nat k.

(** The categories [_prune_categories] leaves alone: those before the
    slice of [value_counts] that is removed. *)
Definition kept_by (s : Series) (K : Z) : list scalar :=
  let counts := value_counts (astype_category s) in
  (take (slice_start K (length counts)) counts).*1.

(** What becomes of an entry. *)
Definition relabel (kept : list scalar) (x : option scalar) : option scalar :=
  Some match x with
       | Some v => if decide (v ∈ kept) then v else dabl_other
       | None => dabl_other
       end.

(** The value a column of dtype [dt] is filled with. *)
Definition fill_value (max_value : option Qc) (dt : dtype) : option scalar :=
  if decide (dt = object) then Some dabl_missing
  else Num <$> nan_lift2 float_add max_value (Some (Qc_of_Z 1)).

Definition filled (max_value : option Qc) (s : Series) : Series :=
  match fill_value max_value (dtype_of s) with
  | None => s
  | Some v => mkSeries (dtype_of s) ((fun x => Some (default v x)) <$> values s)
  end.

(** [m] is the largest number in the numeric columns of [df]. *)
Definition table_max (df : list (string * Series)) (m : Qc) : Prop :=
  (exists c s, (c, s) ∈ df /\ dtype_of s = float64 /\ Some (Num m) ∈ values s) /\
  forall c s x, (c, s) ∈ df -> dtype_of s = float64 ->
    Some (Num x) ∈ values s -> (x ≤ m)%Qc.

(** A frame whose numeric columns can be filled: it has a number in a
    numeric column, or no numeric column has a missing entry. *)
Definition fillable (df : list (string * Series)) : Prop :=
  (exists c s x, (c, s) ∈ df /\ dtype_of s = float64 /\ Some (Num x) ∈ values s) \/
  (forall c s, (c, s) ∈ df -> dtype_of s = float64 -> None ∉ values s).

(** The number of entries a mask marks [False]. *)
Definition count_false (mask : list bool) : Z :=
  Z.of_nat (length (filter (fun b => b = false) mask)).

(** The positions of the coefficients that are not zero, in order. *)
Definition nonzero_positions (coef : list Qc) : list nat :=
  filter (fun i => coef !! i <> Some (Qc_of_Z 0)) (seq 0 (length coef)).

(** The colour of the bar of a coefficient. *)
Definition colour (c : Qc) : color :=
  if bool_decide (c < Qc_of_Z 0)%Qc then red else blue.

(** * Theorems *)

(** ** Rounding to the nearest float *)

Lemma pow2_pos e : (0 < 2 ^ e)%Q.
Proof. apply Qpower_0_lt. reflexivity. Qed.

Lemma pow2_plus a b : (2 ^ (a + b) == 2 ^ a * 2 ^ b)%Q.
Proof. apply Qpower_plus. discriminate. Qed.

Lemma pow2_le a b : a <= b -> (2 ^ a <= 2 ^ b)%Q.
Proof. intros H. apply Qpower_le_compat_l; [exact H|]. discriminate. Qed.

Lemma pow2_lt a b : a < b -> (2 ^ a < 2 ^ b)%Q.
Proof. intros H. apply Qpower_lt_compat_l; [exact H|reflexivity]. Qed.

Lemma pow2_inject e : 0 <= e -> (inject_Z (2 ^ e) == 2 ^ e)%Q.
Proof. intros. now rewrite Zpower_Qpower. Qed.

Lemma Q_as_fraction x : (x * inject_Z (Zpos (Qden x)) == inject_Z (Qnum x))%Q.
Proof.
  destruct x as [p d]. unfold Qeq, Qmult, inject_Z; simpl.
  rewrite Pos.mul_1_r. ring.
Qed.

Lemma ilog2_spec x : (0 < x)%Q -> (2 ^ ilog2 x <= x /\ x < 2 ^ (ilog2 x + 1))%Q.
Proof.
  intros Hx. unfold ilog2.
  set (p := Qnum x). set (d := Zpos (Qden x)).
  assert (Hp : 0 < p).
  { subst p. destruct x as [n dd]. unfold Qlt in Hx; simpl in *. lia. }
  assert (Hd : 0 < d) by (subst d; lia).
  destruct (Z.log2_spec p Hp) as [Hplo Hphi].
  destruct (Z.log2_spec d Hd) as [Hdlo Hdhi].
  pose proof (Z.log2_nonneg p) as Hpn. pose proof (Z.log2_nonneg d) as Hdn.
  set (lp := Z.log2 p) in *. set (ld := Z.log2 d) in *.
  pose proof (Q_as_fraction x) as Hfrac. fold p d in Hfrac.
  assert (HdQ : (0 < inject_Z d)%Q) by (rewrite <- (Zlt_Qlt 0); exact Hd).
  (* bounds in Q *)
  assert (Hp1 : (2 ^ lp <= inject_Z p)%Q).
  { rewrite <- pow2_inject by lia. now rewrite <- Zle_Qle. }
  assert (Hp2 : (inject_Z p < 2 ^ (lp + 1))%Q).
  { rewrite <- pow2_inject by lia. rewrite <- Zlt_Qlt. 
    now replace (lp + 1) with (Z.succ lp) by lia. }
  assert (Hd1 : (2 ^ ld <= inject_Z d)%Q).
  { rewrite <- pow2_inject by lia. now rewrite <- Zle_Qle. }
  assert (Hd2 : (inject_Z d < 2 ^ (ld + 1))%Q).
  { rewrite <- pow2_inject by lia. rewrite <- Zlt_Qlt.
    now replace (ld + 1) with (Z.succ ld) by lia. }
  destruct (Qle_bool (2 ^ (lp - ld)) x) eqn:Hk.
  - apply Qle_bool_iff in Hk. split; [exact Hk|].
    (* x * d = p < 2^(lp+1) = 2^(lp-ld+1) * 2^ld <= 2^(lp-ld+1) * d *)
    apply Qmult_lt_r with (inject_Z d); [exact HdQ|]. rewrite Hfrac.
    eapply Qlt_le_trans; [exact Hp2|].
    replace (lp + 1) with ((lp - ld + 1) + ld) by lia. rewrite pow2_plus.
    apply Qmult_le_l; [apply pow2_pos|exact Hd1].
  - assert (Hlt : (x < 2 ^ (lp - ld))%Q).
    { apply Qnot_le_lt. intros Hle. apply Qle_bool_iff in Hle. congruence. }
    split; [|now replace (lp - ld - 1 + 1) with (lp - ld) by lia].
    apply Qmult_le_r with (inject_Z d); [exact HdQ|]. rewrite Hfrac.
    eapply Qle_trans; [|exact Hp1].
    replace lp with ((lp - ld - 1) + (ld + 1)) at 2 by lia. rewrite pow2_plus.
    apply Qmult_le_l; [apply pow2_pos|]. now apply Qlt_le_weak.
Qed.

Ltac to_Q H :=
  rewrite Zle_Qle in H; rewrite ?inject_Z_plus in H;
  change (inject_Z 1) with 1%Q in H.

Lemma rhe_bounds t :
  (t - (1 # 2) <= inject_Z (round_half_even t) <= t + (1 # 2))%Q.
Proof.
  unfold round_half_even.
  pose proof (Qfloor_le t) as Hlo. pose proof (Qlt_floor t) as Hhi.
  rewrite inject_Z_plus in Hhi. change (inject_Z 1) with 1%Q in Hhi.
  destruct (t - inject_Z (Qfloor t) ?= 1 # 2)%Q eqn:Hc.
  - apply Qeq_alt in Hc.
    destruct (Z.even (Qfloor t)); [|rewrite inject_Z_plus; change (inject_Z 1) with 1%Q]; lra.
  - apply Qlt_alt in Hc. lra.
  - apply Qgt_alt in Hc. rewrite inject_Z_plus. change (inject_Z 1) with 1%Q. lra.
Qed.

Lemma Qabs_diff_le x y r : (x - r <= y <= x + r)%Q -> (Qabs (y - x) <= r)%Q.
Proof. intros H. apply Qabs_Qle_condition. lra. Qed.

Lemma Qabs_diff_ge x y r : (r <= y - x \/ r <= x - y)%Q -> (r <= Qabs (y - x))%Q.
Proof.
  intros [H|H].
  - eapply Qle_trans; [exact H|apply Qle_Qabs].
  - rewrite Qabs_Qminus. eapply Qle_trans; [exact H|apply Qle_Qabs].
Qed.

Lemma rhe_nearest t k :
  (Qabs (inject_Z (round_half_even t) - t) <= Qabs (inject_Z k - t))%Q.
Proof.
  pose proof (rhe_bounds t) as Hb.
  destruct (Z.eq_dec k (round_half_even t)) as [->|Hne]; [apply Qle_refl|].
  set (m := round_half_even t) in *.
  assert (Hcases : k + 1 <= m \/ m + 1 <= k) by lia.
  destruct (Qlt_le_dec (inject_Z m) t) as [Hlt|Hge].
  - (* t above m *)
    eapply Qle_trans; [apply Qabs_diff_le with (r := (t - inject_Z m)%Q); lra|].
    apply Qabs_diff_ge. destruct Hcases as [Hk|Hk].
    + right. to_Q Hk. lra.
    + left. to_Q Hk. lra.
  - eapply Qle_trans; [apply Qabs_diff_le with (r := (inject_Z m - t)%Q); lra|].
    apply Qabs_diff_ge. destruct Hcases as [Hk|Hk].
    + right. to_Q Hk. lra.
    + left. to_Q Hk. lra.
Qed.

Lemma rhe_int z : round_half_even (inject_Z z) = z.
Proof.
  pose proof (rhe_bounds (inject_Z z)) as [Hlo Hhi].
  set (m := round_half_even (inject_Z z)) in *.
  destruct (Z.lt_trichotomy m z) as [Hlt|[Heq|Hgt]]; [|exact Heq|]; exfalso.
  - assert (Hk : m + 1 <= z) by lia. to_Q Hk. lra.
  - assert (Hk : z + 1 <= m) by lia. to_Q Hk. lra.
Qed.

Lemma rhe_le t K : (t <= inject_Z K)%Q -> round_half_even t <= K.
Proof.
  intros Ht. pose proof (rhe_nearest t K) as Hn.
  pose proof (rhe_bounds t) as Hb.
  set (m := round_half_even t) in *.
  destruct (Z.le_gt_cases m K) as [|Hgt]; [assumption|exfalso].
  assert (Hk : K + 1 <= m) by lia. to_Q Hk.
  rewrite (Qabs_pos (inject_Z m - t)) in Hn by lra.
  rewrite (Qabs_pos (inject_Z K - t)) in Hn by lra. lra.
Qed.

Lemma rhe_ge t K : (inject_Z K <= t)%Q -> K <= round_half_even t.
Proof.
  intros Ht. pose proof (rhe_nearest t K) as Hn.
  pose proof (rhe_bounds t) as Hb.
  set (m := round_half_even t) in *.
  destruct (Z.le_gt_cases K m) as [|Hgt]; [assumption|exfalso].
  assert (Hk : m + 1 <= K) by lia. to_Q Hk.
  rewrite (Qabs_neg (inject_Z m - t)) in Hn by lra.
  rewrite (Qabs_neg (inject_Z K - t)) in Hn by lra. lra.
Qed.

(** The mantissa of a number in its binade. *)
Lemma Qabs_pos_lt x : ~ (x == 0)%Q -> (0 < Qabs x)%Q.
Proof.
  intros Hx. destruct (Qlt_le_dec 0 (Qabs x)) as [|Hle]; [assumption|exfalso].
  apply Hx. pose proof (Qabs_nonneg x).
  assert (H0 : (Qabs x == 0)%Q) by lra.
  apply Qabs_Qle_condition in Hle. lra.
Qed.

Lemma mantissa_abs x e : (Qabs (x / 2 ^ e) == Qabs x / 2 ^ e)%Q.
Proof.
  unfold Qdiv. rewrite Qabs_Qmult.
  rewrite (Qabs_pos (/ 2 ^ e)); [reflexivity|].
  apply Qlt_le_weak, Qinv_lt_0_compat, pow2_pos.
Qed.

Lemma mantissa_lt x : ~ (x == 0)%Q -> (Qabs (x / 2 ^ binade x) < 2 ^ 53)%Q.
Proof.
  intros Hx. rewrite mantissa_abs.
  destruct (ilog2_spec (Qabs x) (Qabs_pos_lt x Hx)) as [_ Hhi].
  apply Qlt_shift_div_r; [apply pow2_pos|].
  eapply Qlt_le_trans; [exact Hhi|]. rewrite <- pow2_plus.
  apply pow2_le. unfold binade. lia.
Qed.

Lemma binade_normal x :
  ~ (x == 0)%Q -> -1074 < binade x -> (2 ^ (52 + binade x) <= Qabs x)%Q.
Proof.
  intros Hx He.
  destruct (ilog2_spec (Qabs x) (Qabs_pos_lt x Hx)) as [Hlo _].
  eapply Qle_trans; [|exact Hlo]. apply pow2_le. unfold binade in *. lia.
Qed.

Lemma fl_0 x : (x == 0)%Q -> fl x = 0%Q.
Proof.
  intros Hx. unfold fl. now rewrite (proj2 (Qeq_bool_iff x 0) Hx).
Qed.

Lemma fl_nonzero x :
  ~ (x == 0)%Q ->
  fl x = (inject_Z (round_half_even (x / 2 ^ binade x)) * 2 ^ binade x)%Q.
Proof.
  intros Hx. unfold fl. destruct (Qeq_bool x 0) eqn:H0; [|reflexivity].
  apply Qeq_bool_iff in H0. contradiction.
Qed.

Lemma is_float_0 : is_float 0.
Proof. exists 0, 0. split; [simpl; lia|]. split; [lia|reflexivity]. Qed.

Lemma binade_ge x : -1074 <= binade x.
Proof. unfold binade. lia. Qed.

Lemma fl_is_float x : is_float (fl x).
Proof.
  destruct (Qeq_dec x 0) as [H0|Hx]; [rewrite (fl_0 x H0); apply is_float_0|].
  rewrite (fl_nonzero x Hx).
  exists (round_half_even (x / 2 ^ binade x)), (binade x).
  split; [|split; [apply binade_ge|reflexivity]].
  pose proof (mantissa_lt x Hx) as Hm.
  assert (Hb : (- 2 ^ 53 <= x / 2 ^ binade x <= 2 ^ 53)%Q).
  { apply Qabs_Qle_condition. now apply Qlt_le_weak. }
  rewrite <- (pow2_inject 53) in Hb by lia.
  apply Z.abs_le. split.
  - apply rhe_ge. rewrite inject_Z_opp. apply Hb.
  - apply rhe_le. apply Hb.
Qed.

Lemma scale_mantissa x e : (x / 2 ^ e * 2 ^ e == x)%Q.
Proof. field. apply Qpower_not_0. discriminate. Qed.

Lemma Qabs_scale a b e :
  (Qabs (a * 2 ^ e - b * 2 ^ e) == Qabs (a - b) * 2 ^ e)%Q.
Proof.
  setoid_replace (a * 2 ^ e - b * 2 ^ e)%Q with ((a - b) * 2 ^ e)%Q using relation Qeq by ring.
  rewrite Qabs_Qmult. rewrite (Qabs_pos (2 ^ e)); [reflexivity|].
  apply Qlt_le_weak, pow2_pos.
Qed.

(** [fl x] is a nearest float. *)
Lemma fl_nearest x f : is_float f -> (Qabs (fl x - x) <= Qabs (f - x))%Q.
Proof.
  intros (m & e' & Hm & He' & Hf).
  destruct (Qeq_dec x 0) as [H0|Hx].
  { rewrite (fl_0 x H0). setoid_replace (0 - x)%Q with 0%Q using relation Qeq by lra.
    apply Qabs_nonneg. }
  rewrite (fl_nonzero x Hx). set (e := binade x). set (t := (x / 2 ^ e)%Q).
  assert (Hgrid : forall k : Z,
    (Qabs (inject_Z (round_half_even t) * 2 ^ e - x)
     <= Qabs (inject_Z k * 2 ^ e - x))%Q).
  { intros k.
    assert (E : forall a, (Qabs (a * 2 ^ e - x) == Qabs (a - t) * 2 ^ e)%Q).
    { intros a. rewrite <- Qabs_scale. apply Qabs_wd. unfold t. field.
      apply Qpower_not_0. discriminate. }
    rewrite !E. apply Qmult_le_compat_r; [apply rhe_nearest|].
    apply Qlt_le_weak, pow2_pos. }
  destruct (Z.le_gt_cases e e') as [Hle|Hgt].
  - (* f lies on the grid of x *)
    specialize (Hgrid (m * 2 ^ (e' - e))).
    rewrite inject_Z_mult, pow2_inject in Hgrid by lia.
    assert (Heq : (inject_Z m * 2 ^ (e' - e) * 2 ^ e == f)%Q).
    { rewrite Hf, <- Qmult_assoc, <- pow2_plus.
      now replace (e' - e + e) with e' by lia. }
    now rewrite Heq in Hgrid.
  - (* f is below the binade of x *)
    assert (Hnormal : -1074 < e) by lia.
    pose proof (binade_normal x Hx Hnormal) as Hbig. fold e in Hbig.
    assert (Hfabs : (Qabs f <= 2 ^ (52 + e))%Q).
    { rewrite Hf, Qabs_Qmult, (Qabs_pos (2 ^ e')) by apply Qlt_le_weak, pow2_pos.
      apply Qle_trans with (2 ^ 53 * 2 ^ e')%Q.
      - apply Qmult_le_compat_r; [|apply Qlt_le_weak, pow2_pos].
        rewrite <- (pow2_inject 53) by lia.
        change (Qabs (inject_Z m)) with (inject_Z (Z.abs m)).
        now rewrite <- Zle_Qle.
      - rewrite <- pow2_plus. apply pow2_le. lia. }
    apply Qabs_Qle_condition in Hfabs.
    assert (Hpow : (inject_Z (2 ^ 52) * 2 ^ e == 2 ^ (52 + e))%Q).
    { rewrite pow2_inject by lia. now rewrite pow2_plus. }
    destruct (Qlt_le_dec x 0) as [Hneg|Hpos].
    + rewrite (Qabs_neg x) in Hbig by lra.
      eapply Qle_trans; [apply (Hgrid (- 2 ^ 52))|].
      rewrite inject_Z_opp.
      setoid_replace (- inject_Z (2 ^ 52) * 2 ^ e)%Q with (- 2 ^ (52 + e))%Q using relation Qeq
        by (rewrite <- Hpow; ring).
      rewrite Qabs_pos by lra. apply Qabs_diff_ge. left. lra.
    + rewrite (Qabs_pos x) in Hbig by lra.
      eapply Qle_trans; [apply (Hgrid (2 ^ 52))|].
      rewrite Hpow. rewrite Qabs_neg by lra. apply Qabs_diff_ge. right. lra.
Qed.

Lemma fl_float x : is_float x -> (fl x == x)%Q.
Proof.
  intros Hf. pose proof (fl_nearest x x Hf) as Hn.
  setoid_replace (x - x)%Q with 0%Q using relation Qeq in Hn by ring.
  change (Qabs 0) with 0%Q in Hn. apply Qabs_Qle_condition in Hn. lra.
Qed.

Lemma ilog2_unique x i j :
  (2 ^ i <= x /\ x < 2 ^ (i + 1))%Q -> (2 ^ j <= x /\ x < 2 ^ (j + 1))%Q -> i = j.
Proof.
  intros [Hi1 Hi2] [Hj1 Hj2].
  destruct (Z.lt_trichotomy i j) as [Hlt|[Heq|Hgt]]; [exfalso|exact Heq|exfalso].
  - pose proof (pow2_le (i + 1) j ltac:(lia)). lra.
  - pose proof (pow2_le (j + 1) i ltac:(lia)). lra.
Qed.

Lemma ilog2_comp x y : (0 < x)%Q -> (x == y)%Q -> ilog2 x = ilog2 y.
Proof.
  intros Hx Hxy. apply (ilog2_unique x); [now apply ilog2_spec|].
  rewrite Hxy. apply ilog2_spec. now rewrite <- Hxy.
Qed.

Lemma binade_comp x y : ~ (x == 0)%Q -> (x == y)%Q -> binade x = binade y.
Proof.
  intros Hx Hxy. unfold binade. f_equal. f_equal.
  apply ilog2_comp; [now apply Qabs_pos_lt|now rewrite Hxy].
Qed.

Lemma rhe_comp x y : (x == y)%Q -> round_half_even x = round_half_even y.
Proof.
  intros Hxy. unfold round_half_even. cbv zeta. rewrite (Qfloor_comp x y Hxy).
  assert (Hc : (x - inject_Z (Qfloor y) ?= 1 # 2)%Q
               = (y - inject_Z (Qfloor y) ?= 1 # 2)%Q).
  { apply Qcompare_comp; [lra|reflexivity]. }
  now rewrite Hc.
Qed.

Lemma fl_comp x y : (x == y)%Q -> (fl x == fl y)%Q.
Proof.
  intros Hxy. destruct (Qeq_dec x 0) as [H0|Hx].
  - rewrite (fl_0 x H0), (fl_0 y); [reflexivity|now rewrite <- Hxy].
  - rewrite (fl_nonzero x Hx), (fl_nonzero y) by now rewrite <- Hxy.
    rewrite <- (binade_comp x y Hx Hxy).
    rewrite (rhe_comp (x / 2 ^ binade x) (y / 2 ^ binade x)); [reflexivity|].
    unfold Qdiv. apply Qmult_comp; [exact Hxy|reflexivity].
Qed.

#[export] Instance fl_Proper : Proper (Qeq ==> Qeq) fl.
Proof. intros x y. apply fl_comp. Qed.

Lemma fl_monotone x y : (x <= y)%Q -> (fl x <= fl y)%Q.
Proof.
  intros Hxy. destruct (Qlt_le_dec (fl y) (fl x)) as [Hlt|]; [exfalso|assumption].
  destruct (Qeq_dec x y) as [Heq|Hne].
  { rewrite (fl_comp x y Heq) in Hlt. lra. }
  assert (Hstrict : (x < y)%Q).
  { apply Qnot_le_lt. intros Hle. apply Hne. lra. }
  pose proof (fl_nearest x (fl y) (fl_is_float y)) as H1.
  pose proof (fl_nearest y (fl x) (fl_is_float x)) as H2.
  revert H1 H2.
  apply (Qabs_case (fl x - x)); apply (Qabs_case (fl y - x));
    apply (Qabs_case (fl y - y)); apply (Qabs_case (fl x - y)); intros; lra.
Qed.

Lemma is_float_Z z : Z.abs z <= 2 ^ 53 -> is_float (inject_Z z).
Proof.
  intros Hz. exists z, 0. split; [exact Hz|]. split; [lia|].
  change (2 ^ 0)%Q with 1%Q. ring.
Qed.

Lemma is_float_pow2 e : -1074 <= e -> is_float (2 ^ e).
Proof.
  intros He. exists 1, e. split; [simpl; lia|]. split; [exact He|].
  change (inject_Z 1) with 1%Q. ring.
Qed.

Lemma is_float_opp x : is_float x -> is_float (- x).
Proof.
  intros (m & e & Hm & He & Hx). exists (- m), e.
  split; [lia|]. split; [exact He|]. rewrite Hx, inject_Z_opp. ring.
Qed.

Lemma is_float_wd x y : (x == y)%Q -> is_float x -> is_float y.
Proof. intros Hxy (m & e & Hm & He & Hx). exists m, e. now rewrite <- Hxy. Qed.

Lemma fl_Z z : Z.abs z <= 2 ^ 53 -> (fl (inject_Z z) == inject_Z z)%Q.
Proof. intros Hz. now apply fl_float, is_float_Z. Qed.

(** The rounding error is at most half a unit in the last place. *)
Lemma fl_error x :
  (Qabs (fl x - x) <= 2 ^ (binade x - 1))%Q.
Proof.
  destruct (Qeq_dec x 0) as [H0|Hx].
  { rewrite (fl_0 x H0). setoid_replace (0 - x)%Q with 0%Q using relation Qeq by lra.
    apply Qlt_le_weak, pow2_pos. }
  rewrite (fl_nonzero x Hx). set (e := binade x). set (t := (x / 2 ^ e)%Q).
  assert (E : (Qabs (inject_Z (round_half_even t) * 2 ^ e - x)
               == Qabs (inject_Z (round_half_even t) - t) * 2 ^ e)%Q).
  { rewrite <- Qabs_scale. apply Qabs_wd. unfold t. field.
    apply Qpower_not_0. discriminate. }
  rewrite E.
  replace (e - 1) with (-1 + e) by lia. rewrite pow2_plus.
  apply Qmult_le_compat_r; [|apply Qlt_le_weak, pow2_pos].
  change (2 ^ (-1))%Q with (1 # 2)%Q.
  apply Qabs_Qle_condition. pose proof (rhe_bounds t). lra.
Qed.

Lemma fl_nonneg x : (0 <= x)%Q -> (0 <= fl x)%Q.
Proof.
  intros Hx. rewrite <- (fl_0 0) at 1 by reflexivity. now apply fl_monotone.
Qed.

Lemma fl_le_float x f : is_float f -> (x <= f)%Q -> (fl x <= f)%Q.
Proof. intros Hf Hx. rewrite <- (fl_float f Hf). now apply fl_monotone. Qed.

Lemma fl_ge_float x f : is_float f -> (f <= x)%Q -> (f <= fl x)%Q.
Proof. intros Hf Hx. rewrite <- (fl_float f Hf). now apply fl_monotone. Qed.

(** ** Integer division through the floats *)

Lemma int_inject_Z z : int (inject_Z z) = z.
Proof. unfold int; simpl. apply Z.quot_1_r. Qed.

Lemma int_integer q z : (q == inject_Z z)%Q -> int q = z.
Proof.
  intros Hq. unfold int. unfold Qeq, inject_Z in Hq; simpl in Hq.
  rewrite Z.mul_1_r in Hq. rewrite Hq. apply Z.quot_mul. lia.
Qed.

Lemma ceil_integer q z : (q == inject_Z z)%Q -> ceil q = z.
Proof. intros Hq. unfold ceil. rewrite (Qceiling_comp _ _ Hq). apply Qceiling_Z. Qed.

Lemma ceil_between q k :
  (inject_Z k < q)%Q -> (q <= inject_Z (k + 1))%Q -> ceil q = k + 1.
Proof.
  intros Hlo Hhi. unfold ceil.
  pose proof (Qle_ceiling q) as H1. pose proof (Qceiling_lt q) as H2.
  rewrite inject_Z_plus in Hhi. change (inject_Z 1) with 1%Q in Hhi.
  assert (Ha : (inject_Z k < inject_Z (Qceiling q))%Q) by lra.
  assert (Hb : (inject_Z (Qceiling q - 1) < inject_Z (k + 1))%Q).
  { rewrite inject_Z_plus. change (inject_Z 1) with 1%Q. lra. }
  rewrite <- Zlt_Qlt in Ha, Hb. lia.
Qed.

Lemma too_large_bound x B :
  (Qabs x <= B)%Q -> (B < 2 ^ 1024)%Q -> too_large x = false.
Proof.
  intros Hx HB. unfold too_large.
  destruct (Qle_bool (2 ^ 1024) (Qabs x)) eqn:H; [|reflexivity].
  apply Qle_bool_iff in H. lra.
Qed.

Lemma quotient_exact n c :
  c <> 0 -> n mod c = 0 -> (inject_Z n / inject_Z c == inject_Z (n / c))%Q.
Proof.
  intros Hc Hm. pose proof (Z.div_mod n c Hc) as Hdm.
  rewrite Hm, Z.add_0_r in Hdm. rewrite Hdm at 1. rewrite inject_Z_mult.
  field. intros H. apply Hc. exact (proj1 (inject_Z_injective c 0) H).
Qed.

(** A quotient that is an integer of at most 53 bits is exact. *)
Lemma truediv_exact n c :
  c <> 0 -> n mod c = 0 -> Z.abs (n / c) <= 2 ^ 53 ->
  exists q, truediv n c = Ok q /\ (q == inject_Z (n / c))%Q.
Proof.
  intros Hc Hm Hsmall. unfold truediv.
  destruct (Z.eqb_spec c 0) as [|_]; [contradiction|]. cbv zeta.
  assert (Hq : (fl (inject_Z n / inject_Z c) == inject_Z (n / c))%Q).
  { rewrite (fl_comp _ _ (quotient_exact n c Hc Hm)). now apply fl_Z. }
  rewrite (too_large_bound _ (2 ^ 53)).
  - eexists. split; [reflexivity|exact Hq].
  - rewrite Hq. change (Qabs (inject_Z (n / c))) with (inject_Z (Z.abs (n / c))).
    rewrite <- (pow2_inject 53) by lia. now rewrite <- Zle_Qle.
  - apply pow2_lt. lia.
Qed.

Lemma truediv_int n c :
  0 < n < 2 ^ 53 -> 0 < c -> n mod c = 0 ->
  exists q, truediv n c = Ok q /\ int q = n / c.
Proof.
  intros Hn Hc Hm.
  assert (Hb : 0 <= n / c <= n).
  { split; [apply Z.div_pos; lia|]. apply Z.div_le_upper_bound; nia. }
  destruct (truediv_exact n c ltac:(lia) Hm ltac:(lia)) as (q & Hrun & Hq).
  exists q. split; [exact Hrun|now apply int_integer].
Qed.

Lemma ceil_div_eq n c : ceil_div n c = - ((- n) / c).
Proof.
  unfold ceil_div, Qceiling. f_equal.
  rewrite Zdiv_Qdiv. apply Qfloor_comp.
  rewrite inject_Z_opp. unfold Qdiv.
  destruct (Z.eq_dec c 0) as [->|Hc]; [simpl; ring|].
  field. intros H. apply Hc.
  exact (proj1 (inject_Z_injective c 0) H).
Qed.

Lemma ceil_div_bounds n c :
  0 < c -> n <= ceil_div n c * c < n + c.
Proof.
  intros Hc. rewrite ceil_div_eq.
  pose proof (Z.div_mod (- n) c ltac:(lia)).
  pose proof (Z.mod_pos_bound (- n) c Hc). nia.
Qed.

Lemma ceil_div_least n c r : 0 < c -> n <= r * c -> ceil_div n c <= r.
Proof. intros Hc Hr. pose proof (ceil_div_bounds n c Hc). nia. Qed.

Lemma ceil_div_exact n c : 0 < c -> n mod c = 0 -> ceil_div n c = n / c.
Proof.
  intros Hc Hm. rewrite ceil_div_eq.
  pose proof (Z.div_mod n c ltac:(lia)).
  pose proof (Z.div_mod (- n) c ltac:(lia)).
  pose proof (Z.mod_pos_bound (- n) c Hc). nia.
Qed.

Lemma ceil_div_inexact n c : 0 < c -> n mod c <> 0 -> ceil_div n c = n / c + 1.
Proof.
  intros Hc Hm. rewrite ceil_div_eq.
  pose proof (Z.div_mod n c ltac:(lia)).
  pose proof (Z.mod_pos_bound n c Hc).
  pose proof (Z.div_mod (- n) c ltac:(lia)).
  pose proof (Z.mod_pos_bound (- n) c Hc). nia.
Qed.

(** Half a unit in the last place of [n / c] is less than [1 / c]. *)
Lemma quotient_error n c :
  0 < n < 2 ^ 53 -> 0 < c < 2 ^ 53 ->
  (2 ^ (binade (inject_Z n / inject_Z c) - 1) * inject_Z c < 1)%Q.
Proof.
  intros Hn Hc. set (x := (inject_Z n / inject_Z c)%Q).
  assert (HcQ : (0 < inject_Z c)%Q) by (rewrite <- (Zlt_Qlt 0); lia).
  assert (HnQ : (0 < inject_Z n)%Q) by (rewrite <- (Zlt_Qlt 0); lia).
  assert (Hc53 : (inject_Z c < 2 ^ 53)%Q).
  { rewrite <- (pow2_inject 53) by lia. rewrite <- Zlt_Qlt. lia. }
  assert (Hn53 : (inject_Z n < 2 ^ 53)%Q).
  { rewrite <- (pow2_inject 53) by lia. rewrite <- Zlt_Qlt. lia. }
  assert (Hx : (0 < x)%Q).
  { unfold x. apply Qlt_shift_div_l; [exact HcQ|]. lra. }
  assert (Hxc : (x * inject_Z c == inject_Z n)%Q).
  { unfold x. field. lra. }
  destruct (Z.eq_dec (binade x) (-1074)) as [He|He].
  - rewrite He. apply Qlt_trans with (2 ^ (-1075) * 2 ^ 53)%Q.
    + apply Qmult_lt_l; [apply pow2_pos|exact Hc53].
    + rewrite <- pow2_plus. change 1%Q with (2 ^ 0)%Q. apply pow2_lt. lia.
  - pose proof (binade_ge x) as Hge.
    pose proof (binade_normal x ltac:(lra) ltac:(lia)) as Hnorm.
    rewrite (Qabs_pos x) in Hnorm by lra.
    (* 2^(52+e) * c <= x * c = n < 2^53 *)
    assert (H1 : (2 ^ (52 + binade x) * inject_Z c < 2 ^ 53)%Q).
    { eapply Qle_lt_trans; [|exact Hn53]. rewrite <- Hxc.
      apply Qmult_le_compat_r; [exact Hnorm|lra]. }
    replace (52 + binade x) with (53 + (binade x - 1)) in H1 by lia.
    rewrite pow2_plus in H1.
    pose proof (pow2_pos 53) as H53. pose proof (pow2_pos (binade x - 1)) as He1.
    set (u := (2 ^ (binade x - 1))%Q) in *. set (w := (2 ^ 53)%Q) in *.
    assert (H2 : (w * (u * inject_Z c) < w * 1)%Q) by lra.
    apply Qmult_lt_l in H2; [exact H2|exact H53].
Qed.

(** Below 53 bits, the ceiling of the rounded quotient is the ceiling of
    the quotient. *)
Lemma truediv_ceil n c :
  0 < n < 2 ^ 53 -> 0 < c < 2 ^ 53 ->
  exists q, truediv n c = Ok q /\ ceil q = ceil_div n c.
Proof.
  intros Hn Hc.
  assert (Hk : 0 <= n / c <= n).
  { split; [apply Z.div_pos; lia|]. apply Z.div_le_upper_bound; nia. }
  destruct (Z.eq_dec (n mod c) 0) as [Hm|Hm].
  { destruct (truediv_exact n c ltac:(lia) Hm ltac:(lia)) as (q & Hrun & Hq).
    exists q. split; [exact Hrun|].
    rewrite ceil_div_exact by lia. now apply ceil_integer. }
  unfold truediv. destruct (Z.eqb_spec c 0) as [|_]; [lia|]. cbv zeta.
  set (x := (inject_Z n / inject_Z c)%Q). set (k := n / c) in *.
  assert (HcQ : (0 < inject_Z c)%Q) by (rewrite <- (Zlt_Qlt 0); lia).
  pose proof (Z.div_mod n c ltac:(lia)) as Hdm. fold k in Hdm.
  pose proof (Z.mod_pos_bound n c ltac:(lia)) as Hmb.
  assert (Hxc : (x * inject_Z c == inject_Z n)%Q).
  { unfold x. field. lra. }
  (* k + 1/c <= x <= k + 1 - 1/c, times c *)
  assert (Hlo : (inject_Z k * inject_Z c + 1 <= x * inject_Z c)%Q).
  { rewrite Hxc, <- inject_Z_mult. change 1%Q with (inject_Z 1).
    rewrite <- inject_Z_plus, <- Zle_Qle. lia. }
  assert (Hhi : (x * inject_Z c + 1 <= inject_Z (k + 1) * inject_Z c)%Q).
  { rewrite Hxc, <- inject_Z_mult. change 1%Q with (inject_Z 1).
    rewrite <- inject_Z_plus, <- Zle_Qle. lia. }
  pose proof (quotient_error n c Hn Hc) as Herr. fold x in Herr.
  pose proof (fl_error x) as Hfl. apply Qabs_Qle_condition in Hfl.
  set (u := (2 ^ (binade x - 1))%Q) in *.
  assert (Hk1 : (inject_Z k < fl x)%Q).
  { apply Qmult_lt_r with (inject_Z c); [exact HcQ|].
    apply Qlt_le_trans with ((x - u) * inject_Z c)%Q; [|
      apply Qmult_le_compat_r; lra].
    lra. }
  assert (Hk2 : (fl x < inject_Z (k + 1))%Q).
  { apply Qmult_lt_r with (inject_Z c); [exact HcQ|].
    apply Qle_lt_trans with ((x + u) * inject_Z c)%Q; [
      apply Qmult_le_compat_r; lra|].
    lra. }
  rewrite (too_large_bound _ (2 ^ 54)).
  - eexists. split; [reflexivity|].
    rewrite ceil_div_inexact by lia. fold k. apply (ceil_between _ k); lra.
  - apply Qabs_Qle_condition. 
    assert (H54 : (inject_Z (k + 1) <= 2 ^ 54)%Q).
    { rewrite <- (pow2_inject 54) by lia. rewrite <- Zle_Qle. lia. }
    assert (H0 : (0 <= inject_Z k)%Q) by (rewrite <- (Zle_Qle 0); lia).
    pose proof (pow2_pos 54). lra.
  - apply pow2_lt. lia.
Qed.

(** A quotient below one rounds to a float from zero to one. *)
Lemma truediv_unit n c :
  0 < n < c -> exists q, truediv n c = Ok q /\ (0 <= q <= 1)%Q.
Proof.
  intros Hn. unfold truediv. destruct (Z.eqb_spec c 0) as [|_]; [lia|].
  cbv zeta. set (x := (inject_Z n / inject_Z c)%Q).
  assert (HcQ : (0 < inject_Z c)%Q) by (rewrite <- (Zlt_Qlt 0); lia).
  assert (Hx : (0 <= x <= 1)%Q).
  { split.
    - unfold x. apply Qle_shift_div_l; [exact HcQ|].
      rewrite Qmult_0_l, <- (Zle_Qle 0). lia.
    - unfold x. apply Qle_shift_div_r; [exact HcQ|].
      rewrite Qmult_1_l, <- Zle_Qle. lia. }
  assert (Hq : (0 <= fl x <= 1)%Q).
  { split; [now apply fl_nonneg|].
    apply fl_le_float; [|apply Hx]. apply (is_float_Z 1). simpl; lia. }
  rewrite (too_large_bound _ 1).
  - eexists. split; [reflexivity|exact Hq].
  - apply Qabs_Qle_condition. lra.
  - change 1%Q with (2 ^ 0)%Q. apply pow2_lt. lia.
Qed.

(** The only failures of a division, and when it cannot overflow. *)
Lemma truediv_cases n c :
  c <> 0 ->
  (exists q, truediv n c = Ok q) \/
  (truediv n c = Raise OverflowError /\ 2 ^ 1023 <= Z.abs n).
Proof.
  intros Hc. unfold truediv. destruct (Z.eqb_spec c 0) as [|_]; [contradiction|].
  cbv zeta. set (x := (inject_Z n / inject_Z c)%Q).
  destruct (too_large (fl x)) eqn:Hbig; [right|left; eauto].
  split; [reflexivity|].
  destruct (Z.le_gt_cases (2 ^ 1023) (Z.abs n)) as [|Hsmall]; [assumption|exfalso].
  assert (Hx : (Qabs x <= 2 ^ 1023)%Q).
  { unfold x, Qdiv. rewrite Qabs_Qmult.
    change (Qabs (inject_Z n)) with (inject_Z (Z.abs n)).
    assert (Hn : (inject_Z (Z.abs n) <= 2 ^ 1023)%Q).
    { rewrite <- (pow2_inject 1023) by lia. rewrite <- Zle_Qle. lia. }
    assert (Hinv : (Qabs (/ inject_Z c) <= 1)%Q).
    { rewrite Qabs_Qinv. change (Qabs (inject_Z c)) with (inject_Z (Z.abs c)).
      assert (H1 : (1 <= inject_Z (Z.abs c))%Q).
      { change 1%Q with (inject_Z 1). rewrite <- Zle_Qle. lia. }
      apply Qle_shift_inv_r; lra. }
    assert (H0 : (0 <= inject_Z (Z.abs n))%Q) by (rewrite <- (Zle_Qle 0); lia).
    pose proof (Qabs_nonneg (/ inject_Z c)). nra. }
  apply Qabs_Qle_condition in Hx.
  pose proof (is_float_pow2 1023 ltac:(lia)) as Hf.
  assert (Hq : (Qabs (fl x) <= 2 ^ 1023)%Q).
  { apply Qabs_Qle_condition. split.
    - apply fl_ge_float; [now apply is_float_opp|apply Hx].
    - apply fl_le_float; [exact Hf|apply Hx]. }
  rewrite (too_large_bound _ _ Hq) in Hbig; [discriminate|].
  apply pow2_lt. lia.
Qed.

Lemma truediv_self n : n <> 0 -> exists q, truediv n n = Ok q /\ int q = 1.
Proof.
  intros Hn.
  destruct (truediv_exact n n Hn (Z.mod_same n Hn)) as (q & Hrun & Hq).
  { rewrite Z.div_same by exact Hn. simpl. lia. }
  exists q. split; [exact Hrun|]. apply int_integer.
  now rewrite Z.div_same in Hq.
Qed.

Lemma wasted_mod n c :
  0 < c -> wasted n c = if n mod c =? 0 then 0 else c - n mod c.
Proof.
  intros Hc. unfold wasted. rewrite ceil_div_eq.
  pose proof (Z.div_mod n c ltac:(lia)).
  pose proof (Z.mod_pos_bound n c Hc).
  pose proof (Z.div_mod (- n) c ltac:(lia)).
  pose proof (Z.mod_pos_bound (- n) c Hc).
  assert (n / c + - n / c = 0 \/ n / c + - n / c = -1) as [Hq|Hq] by nia;
    destruct (Z.eqb_spec (n mod c) 0); nia.
Qed.

Lemma wasted_least n c r : 0 < c -> n <= r * c -> wasted n c <= r * c - n.
Proof.
  intros Hc Hr. unfold wasted.
  pose proof (ceil_div_least n c r Hc Hr). nia.
Qed.

(** ** The range of the scan *)

Lemma range_down_nil s t : s <= t -> range_down s t = [].
Proof. intros H. unfold range_down. now replace (Z.to_nat (s - t)) with 0%nat by lia. Qed.

Lemma range_down_cons s t : t < s -> range_down s t = s :: range_down (s - 1) t.
Proof.
  intros H. unfold range_down.
  replace (Z.to_nat (s - t)) with (S (Z.to_nat (s - 1 - t))) by lia.
  simpl. f_equal; [lia|].
  rewrite <- seq_shift, List.map_map. apply List.map_ext. intros; lia.
Qed.

(** ** The scan of find_pretty_grid *)

Section GridScan.
Variables N M : Z.
Hypothesis N_small : 0 < N < 2 ^ 53.

Lemma find_pretty_grid_loop_spec (k : nat) : forall s t be bc,
  Z.to_nat (s - t) = k -> 0 <= t <= s -> s <= M ->
  scanned N M s be bc ->
  match find_pretty_grid_loop N (range_down s t) be bc with
  | Ok (Returned (r, c)) =>
      t < c <= s /\ N mod c = 0 /\ r = N / c /\
      forall c', c < c' <= M -> N mod c' <> 0
  | Ok (Fallthrough (be', bc')) => scanned N M t be' bc'
  | Raise _ => False
  end.
Proof using N_small.
  induction k as [|k IH]; intros s t be bc Hk Hts HsM Hinv.
  - rewrite range_down_nil by lia. simpl.
    replace t with s by lia. exact Hinv.
  - rewrite range_down_cons by lia.
    cbn [find_pretty_grid_loop]. unfold mod_.
    destruct (Z.eqb_spec s 0) as [|Hs0]; [lia|]. cbn [mbind result_bind].
    pose proof (wasted_mod N s ltac:(lia)) as Hw.
    pose proof (Z.mod_pos_bound N s ltac:(lia)) as Hb.
    destruct (Z.eqb_spec (N mod s) 0) as [Hz|Hnz]; cbn [negb Z.eqb].
    + destruct (truediv_int N s N_small ltac:(lia) Hz) as (q & -> & Hq).
      cbn [mbind result_bind]. rewrite Hq.
      repeat split; try lia.
      intros c' Hc'. apply Hinv. lia.
    + destruct (Z.eqb_spec (s - N mod s) 0) as [|_]; [lia|].
      assert (Hdiv : forall c, s - 1 < c <= M -> N mod c <> 0).
      { intros c Hc. destruct (Z.eq_dec c s) as [->|]; [exact Hnz|].
        apply Hinv. lia. }
      assert (Hweak : forall be2 bc2, scanned N M (s - 1) be2 bc2 ->
        match find_pretty_grid_loop N (range_down (s - 1) t) be2 bc2 with
        | Ok (Returned (r, c)) =>
            t < c <= s /\ N mod c = 0 /\ r = N / c /\
            forall c', c < c' <= M -> N mod c' <> 0
        | Ok (Fallthrough (be', bc')) => scanned N M t be' bc'
        | Raise _ => False
        end).
      { intros be2 bc2 H2.
        specialize (IH (s - 1) t be2 bc2 ltac:(lia) ltac:(lia) ltac:(lia) H2).
        destruct (find_pretty_grid_loop N (range_down (s - 1) t) be2 bc2)
          as [[[r c]|[be' bc']]|e]; [|exact IH|exact IH].
        destruct IH as (? & ? & ? & ?). repeat split; auto; lia. }
      destruct (Z.ltb_spec (s - N mod s) be) as [Hlt|Hge].
      * apply Hweak. split; [exact Hdiv|]. right.
        split; [lia|]. split; [lia|].
        intros c Hc. destruct (Z.eq_dec c s) as [->|Hne]; [lia|].
        destruct Hinv as [_ [(-> & -> & ->)|(Hbc & Hbe & Hmin)]]; [lia|].
        specialize (Hmin c ltac:(lia)). lia.
      * apply Hweak. split; [exact Hdiv|]. right.
        destruct Hinv as [_ [(-> & -> & ->)|(Hbc & Hbe & Hmin)]]; [lia|].
        split; [lia|]. split; [exact Hbe|].
        intros c Hc. destruct (Z.eq_dec c s) as [->|Hne]; [lia|].
        apply Hmin. lia.
Qed.

End GridScan.

(** Plots that fit in the columns: the scan stops at [N] columns,
    whatever the size of the numbers. *)
Lemma find_pretty_grid_loop_single_row (N : Z) (k : nat) : forall s t be bc,
  Z.to_nat (s - N) = k -> 0 < N <= s -> t < N ->
  find_pretty_grid_loop N (range_down s t) be bc = Ok (Returned (1, N)).
Proof.
  induction k as [|k IH]; intros s t be bc Hk HN Ht.
  - assert (s = N) as -> by lia.
    rewrite range_down_cons by lia. cbn [find_pretty_grid_loop]. unfold mod_.
    destruct (Z.eqb_spec N 0) as [|_]; [lia|]. cbn [mbind result_bind].
    rewrite Z.mod_same by lia. cbn [Z.eqb negb].
    destruct (truediv_self N ltac:(lia)) as (q & -> & Hq).
    cbn [mbind result_bind]. now rewrite Hq.
  - rewrite range_down_cons by lia. cbn [find_pretty_grid_loop]. unfold mod_.
    destruct (Z.eqb_spec s 0) as [|_]; [lia|]. cbn [mbind result_bind].
    rewrite Z.mod_small by lia.
    destruct (Z.eqb_spec N 0) as [|_]; [lia|]. cbn [negb].
    destruct (Z.eqb_spec (s - N) 0) as [|_]; [lia|].
    destruct (s - N <? be); apply IH; lia.
Qed.

Lemma find_pretty_grid_square (M : Z) :
  0 < M -> find_pretty_grid M M = Ok (1, M).
Proof.
  intros HM. unfold find_pretty_grid, mod_.
  destruct (Z.eqb_spec M 0) as [|_]; [lia|]. cbn [mbind result_bind].
  rewrite Z.mod_same by lia. cbn [Z.eqb].
  destruct (truediv_self M ltac:(lia)) as (q & -> & Hq).
  cbn [mbind result_bind]. now rewrite Hq.
Qed.

Lemma find_pretty_grid_below (N M : Z) :
  0 < N < M -> find_pretty_grid N M = Ok (1, N).
Proof.
  intros HNM. unfold find_pretty_grid, mod_.
  destruct (Z.eqb_spec M 0) as [|_]; [lia|]. cbn [mbind result_bind].
  rewrite Z.mod_small by lia.
  destruct (Z.eqb_spec N 0) as [|_]; [lia|].
  destruct (truediv_unit N M ltac:(lia)) as (q & -> & Hq).
  cbn [mbind result_bind]. rewrite int_inject_Z.
  assert (Hceil : ceil q <= 1).
  { unfold ceil. change 1 with (Qceiling 1). now apply Qceiling_resp_le. }
  rewrite (find_pretty_grid_loop_single_row N (Z.to_nat (M - N)))
    by lia.
  reflexivity.
Qed.

(** What [find_pretty_grid] returns for a number of plots of less than 53
    bits: the rows are the fewest that hold the plots in the columns
    chosen, which are the widest with the fewest empty cells. *)
Lemma find_pretty_grid_run (N M : Z) :
  0 < N < 2 ^ 53 -> 0 < M ->
  exists c,
    find_pretty_grid N M = Ok (ceil_div N c, c) /\
    0 < c <= M /\
    (ceil_div N M <= M -> ceil_div N M <= c) /\
    (M < ceil_div N M -> c = M) /\
    ((N mod c = 0 /\ forall c', c < c' <= M -> N mod c' <> 0) \/
     ((forall c', ceil_div N M <= c' <= M -> N mod c' <> 0) /\
      forall c', ceil_div N M <= c' <= M ->
        wasted N c <= wasted N c' /\ (wasted N c' = wasted N c -> c' <= c))).
Proof.
  intros HN HM.
  pose proof (ceil_div_bounds N M HM) as HcM.
  assert (Hmin1 : 1 <= ceil_div N M) by nia.
  destruct (Z.le_gt_cases (2 ^ 53) M) as [Hbig|Hsmall].
  { (* more columns than plots *)
    exists N. rewrite find_pretty_grid_below by lia.
    assert (Hself : ceil_div N N = 1).
    { rewrite ceil_div_exact by (try apply Z.mod_same; lia).
      apply Z.div_same. lia. }
    rewrite Hself. split; [reflexivity|]. split; [lia|].
    pose proof (ceil_div_least N M 1 ltac:(lia) ltac:(lia)).
    split; [lia|]. split; [lia|]. left.
    split; [apply Z.mod_same; lia|].
    intros c' Hc'. rewrite Z.mod_small by lia. lia. }
  unfold find_pretty_grid, mod_.
  destruct (Z.eqb_spec M 0) as [|_]; [lia|]. cbn [mbind result_bind].
  destruct (Z.eqb_spec (N mod M) 0) as [Hz|Hnz].
  - destruct (truediv_int N M HN HM Hz) as (q & -> & Hq).
    cbn [mbind result_bind]. rewrite Hq.
    exists M. rewrite ceil_div_exact by lia.
    split; [reflexivity|]. split; [lia|]. split; [auto|]. split; [auto|].
    left. split; [exact Hz|]. intros; lia.
  - destruct (truediv_ceil N M HN ltac:(lia)) as (q & Hdiv_M & Hq).
    rewrite Hdiv_M. cbn [mbind result_bind]. rewrite int_inject_Z, Hq.
    destruct (Z.le_gt_cases M (ceil_div N M - 1)) as [Hempty|Hne].
    + rewrite range_down_nil by lia.
      cbn [find_pretty_grid_loop mbind result_bind]. rewrite Hdiv_M.
      cbn [mbind result_bind]. rewrite int_inject_Z, Hq.
      exists M. split; [reflexivity|]. split; [lia|]. split; [lia|].
      split; [auto|]. right. split; intros; lia.
    + pose proof (find_pretty_grid_loop_spec N M HN
        (Z.to_nat (M - (ceil_div N M - 1)))
        M (ceil_div N M - 1) M M eq_refl ltac:(lia) ltac:(lia)) as Hloop.
      specialize (Hloop ltac:(split; [intros; lia|left; auto])).
      destruct (find_pretty_grid_loop N (range_down M (ceil_div N M - 1)) M M)
        as [[[r c]|[be bc]]|e]; [| |contradiction]; cbn [mbind result_bind].
      * destruct Hloop as (Hc & Hcz & -> & Hbigger).
        exists c. rewrite ceil_div_exact by lia.
        split; [reflexivity|]. split; [lia|]. split; [lia|]. split; [lia|].
        left. auto.
      * destruct Hloop as [Hdiv [(? & _)|(Hbc & Hbe & Hleast)]]; [lia|].
        destruct (truediv_ceil N bc HN ltac:(lia)) as (q' & -> & Hq').
        cbn [mbind result_bind]. rewrite int_inject_Z, Hq'.
        exists bc. split; [reflexivity|]. split; [lia|]. split; [lia|].
        split; [lia|]. right. split.
        -- intros c' Hc'. apply Hdiv. lia.
        -- intros c' Hc'. rewrite <- Hbe. apply Hleast. lia.
Qed.

(** C1 fails as stated.  The quotient [n_plots / cols] is a float: from 53
    bits on it is rounded, and the grid returned is too small for the
    plots; a multiple of [max_cols] does not give [(N / M, M)] either. *)
Lemma find_pretty_grid_rounded :
  (find_pretty_grid (2 ^ 53 + 1) 2 = Ok (2 ^ 52, 2) /\
   2 ^ 52 * 2 < 2 ^ 53 + 1) /\
  (find_pretty_grid (3 * (2 ^ 53 + 1)) 3 = Ok (2 ^ 53, 3) /\
   (3 * (2 ^ 53 + 1)) mod 3 = 0 /\
   2 ^ 53 <> 3 * (2 ^ 53 + 1) / 3).
Proof.
  split; (split; [vm_compute; reflexivity|]); vm_compute; [reflexivity|].
  split; [reflexivity|discriminate].
Qed.

(** C1, amended.  For a positive [N] of less than 53 bits and a positive
    [M], [find_pretty_grid N M] returns a grid [(r, c)] that holds the [N]
    plots in at most [M] columns, whose number of empty cells [r * c - N] is
    the least among the column counts from [ceil (N / M)] to [M] (whatever
    the row count given to them), the widest such column count being taken;
    [c] is itself in that interval when the interval is not empty; a
    multiple of [M] gives [(N / M, M)]; and the three examples of the
    docstring evaluate as written. *)
Theorem find_pretty_grid_spec (N M : Z) :
  0 < N < 2 ^ 53 -> 0 < M ->
  (exists r c,
     find_pretty_grid N M = Ok (r, c) /\
     N <= r * c /\ 0 < c <= M /\
     (forall c' r', ceil_div N M <= c' <= M -> N <= r' * c' ->
        r * c - N <= r' * c' - N) /\
     (forall c', ceil_div N M <= c' <= M ->
        ceil_div N c' * c' - N = r * c - N -> c' <= c) /\
     (ceil_div N M <= M -> ceil_div N M <= c) /\
     (N mod M = 0 -> r = N / M /\ c = M)) /\
  find_pretty_grid 16 5 = Ok (4, 4) /\
  find_pretty_grid 11 5 = Ok (3, 4) /\
  find_pretty_grid 10 5 = Ok (2, 5).
Proof.
  intros HN HM. split; [|repeat split; vm_compute; reflexivity].
  pose proof (ceil_div_bounds N M HM) as HcM.
  assert (Hmin1 : 1 <= ceil_div N M) by nia.
  destruct (find_pretty_grid_run N M HN HM)
    as (c & Hrun & Hc & Hlow & Hhigh & Hbest).
  pose proof (ceil_div_bounds N c ltac:(lia)) as Hb.
  exists (ceil_div N c), c. split; [exact Hrun|].
  split; [lia|]. split; [exact Hc|].
  destruct Hbest as [[Hcz Hbigger]|[Hnone Hleast]].
  - (* a column count that divides N *)
    assert (Hfull : ceil_div N c * c = N).
    { rewrite ceil_div_exact by lia.
      pose proof (Z.div_mod N c ltac:(lia)). lia. }
    split; [intros; lia|]. split; [|split; [exact Hlow|]].
    + intros c' Hc' Hw.
      destruct (Z.le_gt_cases c' c) as [|Hgt]; [assumption|exfalso].
      specialize (Hbigger c' ltac:(lia)).
      pose proof (wasted_mod N c' ltac:(lia)) as Hw'. unfold wasted in Hw'.
      pose proof (Z.mod_pos_bound N c' ltac:(lia)).
      destruct (Z.eqb_spec (N mod c') 0); [contradiction|]. lia.
    + intros Hz.
      destruct (Z.le_gt_cases M c) as [|Hlt]; [|now apply Hbigger in Hz; [|lia]].
      assert (c = M) as -> by lia.
      split; [|reflexivity]. now apply ceil_div_exact.
  - split; [|split; [|split; [exact Hlow|]]].
    + intros c' r' Hc' Hr'.
      pose proof (wasted_least N c' r' ltac:(lia) Hr').
      destruct (Hleast c' Hc') as [Hle _]. unfold wasted in *. lia.
    + intros c' Hc' Hw. destruct (Hleast c' Hc') as [_ Htie].
      apply Htie. unfold wasted. lia.
    + intros Hz.
      destruct (Z.le_gt_cases (ceil_div N M) M) as [Hin|Hout].
      * exfalso. apply (Hnone M); [lia|exact Hz].
      * rewrite (Hhigh Hout). split; [|reflexivity]. now apply ceil_div_exact.
Qed.

Lemma find_pretty_grid_spec_witness :
  exists r c, find_pretty_grid 11 5 = Ok (r, c) /\ 11 <= r * c /\ 0 < c <= 5.
Proof.
  destruct (find_pretty_grid_spec 11 5 ltac:(lia) ltac:(lia))
    as [(r & c & Hrun & Hfit & Hcols & _) _].
  exists r, c. auto.
Defined.

(** ** Failure modes of find_pretty_grid *)

Lemma find_pretty_grid_loop_runs n rng : forall be bc,
  zero_free n rng -> bc <> 0 ->
  match find_pretty_grid_loop n rng be bc with
  | Ok (Returned _) => True
  | Ok (Fallthrough (_, bc')) => bc' <> 0
  | Raise e => e = OverflowError /\ 2 ^ 1023 <= Z.abs n
  end.
Proof.
  induction rng as [|c rng IH]; intros be bc Hsafe Hbc; [exact Hbc|].
  destruct Hsafe as [Hc Hrest].
  cbn [find_pretty_grid_loop]. unfold mod_.
  destruct (Z.eqb_spec c 0) as [|_]; [contradiction|]. cbn [mbind result_bind].
  assert (Hreturn :
    match (q ← truediv n c; Ok (Returned (S := Z * Z) (int q, c))) with
    | Ok (Returned _) => True
    | Ok (Fallthrough (_, bc')) => bc' <> 0
    | Raise e => e = OverflowError /\ 2 ^ 1023 <= Z.abs n
    end).
  { destruct (truediv_cases n c Hc) as [(q & ->)|[-> Hbig]]; cbn; auto. }
  destruct (Z.eqb_spec (n mod c) 0) as [Hz|Hnz]; cbn [negb].
  - cbn [Z.eqb]. exact Hreturn.
  - destruct Hrest as [|Hrest]; [contradiction|].
    destruct (c - n mod c =? 0); [exact Hreturn|].
    destruct (c - n mod c <? be); apply IH; auto.
Qed.

Lemma zero_free_range_pos n (k : nat) : forall s t,
  Z.to_nat (s - t) = k -> 0 < s -> zero_free n (range_down s t).
Proof.
  induction k as [|k IH]; intros s t Hk Hs.
  - rewrite range_down_nil by lia. exact I.
  - rewrite range_down_cons by lia. split; [lia|].
    destruct (Z.eq_dec s 1) as [->|Hs1].
    + left. apply Z.mod_1_r.
    + right. apply IH; lia.
Qed.

Lemma zero_free_range_neg n (k : nat) : forall s t,
  Z.to_nat (s - t) = k -> s < 0 -> zero_free n (range_down s t).
Proof.
  induction k as [|k IH]; intros s t Hk Hs.
  - rewrite range_down_nil by lia. exact I.
  - rewrite range_down_cons by lia. split; [lia|].
    right. apply IH; lia.
Qed.

(** C7 fails as stated: degenerate arguments are not rejected.  Zero plots,
    a negative number of plots and a negative column bound all give a pair;
    and for positive arguments the division overflows when the quotient is
    too large for a float. *)
Lemma find_pretty_grid_degenerate_accepted :
  (0 <= 0 /\ find_pretty_grid 0 5 = Ok (0, 5)) /\
  (-3 <= 0 /\ find_pretty_grid (-3) 5 = Ok (-1, 3)) /\
  (-2 <= 0 /\ find_pretty_grid 5 (-2) = Ok (-2, -2)) /\
  (0 < 10 ^ 400 /\ 0 < 3 /\ find_pretty_grid (10 ^ 400) 3 = Raise OverflowError).
Proof.
  repeat split; try lia; try (vm_compute; reflexivity).
Qed.

(** C7, amended.  [find_pretty_grid] validates nothing.  It fails when
    [max_cols] is zero, with the [ZeroDivisionError] of
    [n_plots % max_cols]; its only other failure is the [OverflowError] of
    a quotient [n_plots / cols] that is too large for a float, which needs
    [n_plots] of at least [2 ^ 1023] in magnitude; and it returns a pair for
    every other pair of integers, positive or not. *)
Theorem find_pretty_grid_failure_modes (N M : Z) :
  match find_pretty_grid N M with
  | Raise e =>
      (e = ZeroDivisionError /\ M = 0) \/
      (e = OverflowError /\ M <> 0 /\ 2 ^ 1023 <= Z.abs N)
  | Ok _ => M <> 0
  end.
Proof.
  unfold find_pretty_grid, mod_.
  destruct (Z.eqb_spec M 0) as [HM|HM]; cbn [mbind result_bind]; [auto|].
  destruct (truediv_cases N M HM) as [(q & Hq)|[Hq Hbig]]; rewrite Hq;
    cbn [mbind result_bind]; [|destruct (N mod M =? 0); auto].
  destruct (N mod M =? 0); [exact HM|].
  set (t := int (inject_Z (ceil q)) - 1).
  assert (Hsafe : zero_free N (range_down M t)).
  { destruct (Z.lt_trichotomy M 0) as [Hneg|[?|Hpos]]; [|contradiction|].
    - now apply (zero_free_range_neg N (Z.to_nat (M - t))).
    - now apply (zero_free_range_pos N (Z.to_nat (M - t))). }
  pose proof (find_pretty_grid_loop_runs N _ M M Hsafe HM) as Hloop.
  destruct (find_pretty_grid_loop N (range_down M t) M M)
    as [[rc|[be bc]]|e]; cbn [mbind result_bind].
  - exact HM.
  - destruct (truediv_cases N bc Hloop) as [(q' & ->)|[-> Hbig]];
      cbn [mbind result_bind]; auto.
  - right. destruct Hloop as [-> Hbig]. auto.
Qed.

(** ** The widened interval *)

(** Closed goals with rationals in them are decided, not compared as terms:
    two equal canonical rationals may carry different proofs. *)
Ltac decide_closed := apply (bool_decide_eq_true_1 _); vm_compute; reflexivity.

Lemma this_Q2Qc q : (this (Q2Qc q) == q)%Q.
Proof. apply Qred_correct. Qed.

Lemma flc_is_float x : is_float (flc x).
Proof.
  unfold flc. apply (is_float_wd (fl x)); [|apply fl_is_float].
  symmetry. apply this_Q2Qc.
Qed.

Lemma flc_monotone (x y : Qc) : (x ≤ y)%Qc -> (flc x ≤ flc y)%Qc.
Proof.
  intros Hxy. unfold flc, Qcle. rewrite !this_Q2Qc. now apply fl_monotone.
Qed.

Lemma flc_float (x : Qc) : is_float x -> flc x = x.
Proof.
  intros Hx. apply Qc_is_canon. unfold flc. rewrite this_Q2Qc.
  now apply fl_float.
Qed.

Lemma flc_le_float (x f : Qc) : is_float f -> (x ≤ f)%Qc -> (flc x ≤ f)%Qc.
Proof. intros Hf Hx. rewrite <- (flc_float f Hf). now apply flc_monotone. Qed.

Lemma flc_ge_float (x f : Qc) : is_float f -> (f ≤ x)%Qc -> (f ≤ flc x)%Qc.
Proof. intros Hf Hx. rewrite <- (flc_float f Hf). now apply flc_monotone. Qed.

Lemma flc_nonneg (x : Qc) : (Qc_of_Z 0 ≤ x)%Qc -> (Qc_of_Z 0 ≤ flc x)%Qc.
Proof. apply flc_ge_float. apply (is_float_Z 0). simpl; lia. Qed.

Lemma too_large_spec (x : Qc) :
  too_large x = true <-> (2 ^ 1024 <= Qabs x)%Q.
Proof. unfold too_large. apply Qle_bool_iff. Qed.

Lemma too_large_false (x : Qc) :
  too_large x = false <-> (- 2 ^ 1024 < x /\ x < 2 ^ 1024)%Q.
Proof.
  unfold too_large. pose proof (pow2_pos 1024) as Hp. split.
  - intros H.
    assert (Hlt : (Qabs x < 2 ^ 1024)%Q).
    { apply Qnot_le_lt. intros Hle. apply Qle_bool_iff in Hle. congruence. }
    revert Hlt. apply Qabs_case; intros; lra.
  - intros [H1 H2]. destruct (Qle_bool (2 ^ 1024) (Qabs x)) eqn:H; [|reflexivity].
    apply Qle_bool_iff in H. revert H. apply Qabs_case; intros; lra.
Qed.

Lemma quantile_binary64 q s v : quantile q s = Some v -> binary64 v.
Proof.
  unfold quantile. destruct (merge_sort Qcle (dropna s)); [discriminate|].
  cbv zeta. destruct (too_large _) eqn:Hbig; [discriminate|].
  intros [= <-]. split; [apply flc_is_float|exact Hbig].
Qed.

Lemma overflow_cases (x : Qc) :
  (overflow x = Fin x /\ too_large x = false) \/
  (overflow x = NInf /\ (x <= - 2 ^ 1024)%Q) \/
  (overflow x = PInf /\ (2 ^ 1024 <= x)%Q).
Proof.
  unfold overflow. destruct (too_large x) eqn:Hbig; [|now left]. right.
  apply too_large_spec in Hbig. pose proof (pow2_pos 1024) as Hp.
  destruct (decide (x < Qc_of_Z 0)%Qc) as [Hneg|Hpos].
  - rewrite bool_decide_eq_true_2 by exact Hneg. left. split; [reflexivity|].
    unfold Qclt in Hneg. change (this (Qc_of_Z 0)) with 0%Q in Hneg.
    rewrite Qabs_neg in Hbig by lra. lra.
  - rewrite bool_decide_eq_false_2 by exact Hpos. right. split; [reflexivity|].
    apply Qcnot_lt_le in Hpos. unfold Qcle in Hpos.
    change (this (Qc_of_Z 0)) with 0%Q in Hpos.
    rewrite Qabs_pos in Hbig by lra. lra.
Qed.

(** The result of a sum is below a float that bounds the sum, and an
    infinity is on the side of the sum. *)
Lemma double_add_le (x y f : Qc) :
  binary64 f -> (x + y ≤ f)%Qc -> double_le (double_add (Fin x) (Fin y)) (Fin f) = true.
Proof.
  intros [Hf Hsmall] Hle. cbn [double_add].
  pose proof (flc_le_float _ _ Hf Hle) as Hfl.
  apply too_large_false in Hsmall. unfold Qcle in Hfl.
  destruct (overflow_cases (flc (x + y))) as [[-> _]|[[-> _]|[-> Hbig]]]; cbn.
  - now apply bool_decide_eq_true_2.
  - reflexivity.
  - exfalso. lra.
Qed.

Lemma double_add_ge (x y f : Qc) :
  binary64 f -> (f ≤ x + y)%Qc -> double_le (Fin f) (double_add (Fin x) (Fin y)) = true.
Proof.
  intros [Hf Hsmall] Hle. cbn [double_add].
  pose proof (flc_ge_float _ _ Hf Hle) as Hfl.
  apply too_large_false in Hsmall. unfold Qcle in Hfl.
  destruct (overflow_cases (flc (x + y))) as [[-> _]|[[-> Hbig]|[-> _]]]; cbn.
  - now apply bool_decide_eq_true_2.
  - exfalso. lra.
  - reflexivity.
Qed.

(** Half the width of the percentiles is a float that is not negative, or
    the infinity. *)
Lemma inner_range_nonneg (low high : Qc) :
  (low < high)%Qc ->
  let inner_range := double_half (double_sub (Fin high) (Fin low)) in
  inner_range = PInf \/
  exists r, inner_range = Fin r /\ (Qc_of_Z 0 ≤ r)%Qc.
Proof.
  intros Hlt. cbn [double_sub double_opp double_add].
  assert (Hw : (Qc_of_Z 0 ≤ flc (high + - low))%Qc).
  { apply flc_nonneg. unfold Qcle, Qclt in *.
    unfold Qcplus, Qcopp. rewrite !this_Q2Qc.
    change (this (Qc_of_Z 0)) with 0%Q. lra. }
  destruct (overflow_cases (flc (high + - low))) as [[-> _]|[[-> Hbig]|[-> _]]].
  - right. cbn [double_half]. eexists. split; [reflexivity|].
    apply flc_nonneg. unfold Qcle in *. unfold Qcdiv, Qcmult, Qcinv, two.
    rewrite !this_Q2Qc. change (this (Qc_of_Z 0)) with 0%Q in *.
    change (/ 2)%Q with (1 # 2)%Q. lra.
  - exfalso. unfold Qcle in Hw. change (this (Qc_of_Z 0)) with 0%Q in Hw.
    pose proof (pow2_pos 1024). lra.
  - now left.
Qed.

Lemma widen_floats (low high : Qc) :
  binary64 low -> binary64 high -> (low < high)%Qc ->
  let inner_range := double_half (double_sub (Fin high) (Fin low)) in
  double_le (double_sub (Fin low) inner_range) (Fin low) = true /\
  double_le (Fin high) (double_add (Fin high) inner_range) = true.
Proof.
  intros Hlow Hhigh Hlt inner_range.
  destruct (inner_range_nonneg low high Hlt) as [Hinf|(r & Hr & Hpos)];
    fold inner_range in Hinf || fold inner_range in Hr.
  - rewrite Hinf. split; reflexivity.
  - rewrite Hr. unfold double_sub. cbn [double_opp]. split.
    + apply double_add_le; [exact Hlow|].
      unfold Qcle in *. unfold Qcplus, Qcopp. rewrite !this_Q2Qc.
      change (this (Qc_of_Z 0)) with 0%Q in Hpos. lra.
    + apply double_add_ge; [exact Hhigh|].
      unfold Qcle in *. unfold Qcplus. rewrite !this_Q2Qc.
      change (this (Qc_of_Z 0)) with 0%Q in Hpos. lra.
Qed.

(** C2 fails as stated.  A series whose two percentiles coincide (here a
    constant one) has [low <= high], and [_inlier_range] stops at its
    assertion instead of returning an interval.  And the interval is
    computed in floats: between [10 ^ 16] and [10 ^ 16 + 2] the half width
    [1] is less than the distance of two floats, [low - 1] is rounded back
    to [low], so that [returned_low < low] fails, and [high + 1] is rounded
    up to [high + 2]. *)
Lemma _inlier_range_constant_series :
  (let series := [Some (Qc_of_Z 1); Some (Qc_of_Z 1); Some (Qc_of_Z 1)] in
   nanquantile series q01 = Some (Qc_of_Z 1) /\
   nanquantile series q99 = Some (Qc_of_Z 1) /\
   (Qc_of_Z 1 ≤ Qc_of_Z 1)%Qc /\
   _inlier_range series = Raise AssertionError) /\
  (let low := Qc_of_Z (10 ^ 16) in
   let high := Qc_of_Z (10 ^ 16 + 2) in
   let series := [Some low; Some high] in
   nanquantile series q01 = Some low /\
   nanquantile series q99 = Some high /\
   _inlier_range series = Ok (Fin low, Fin (high + Qc_of_Z 2)%Qc) /\
   ~ (low < low)%Qc /\
   (high + Qc_of_Z 2 <> high + (high - low) / two)%Qc).
Proof.
  split; [repeat split; decide_closed|].
  cbv zeta. split; [decide_closed|]. split; [decide_closed|].
  split; [decide_closed|]. split; [apply Qcle_not_lt, Qcle_refl|].
  apply (bool_decide_eq_true_1 (_ <> _)). vm_compute. reflexivity.
Qed.

(** C2, amended.  When the 1st percentile [low] of a series is strictly
    below its 99th percentile [high], [_inlier_range] returns the floats
    that [low - r] and [high + r] round to, [r] being the float that half
    of the rounded [high - low] rounds to, with an infinity for a result
    that is too large; so that [returned_low <= low < high <= returned_high]. *)
Theorem _inlier_range_widens (series : list (option Qc)) (low high : Qc) :
  nanquantile series q01 = Some low ->
  nanquantile series q99 = Some high ->
  (low < high)%Qc ->
  exists returned_low returned_high,
    _inlier_range series = Ok (returned_low, returned_high) /\
    let inner_range := double_half (double_sub (Fin high) (Fin low)) in
    returned_low = double_sub (Fin low) inner_range /\
    returned_high = double_add (Fin high) inner_range /\
    double_le returned_low (Fin low) = true /\
    (low < high)%Qc /\
    double_le (Fin high) returned_high = true.
Proof.
  intros Hlow Hhigh Hlt. unfold _inlier_range. rewrite Hlow, Hhigh.
  cbn [double_of double_lt]. rewrite bool_decide_eq_true_2 by exact Hlt.
  cbn [negb]. eexists _, _. split; [reflexivity|]. cbv zeta.
  split; [reflexivity|]. split; [reflexivity|].
  destruct (widen_floats low high (quantile_binary64 _ _ _ Hlow)
              (quantile_binary64 _ _ _ Hhigh) Hlt) as [H1 H2].
  auto.
Qed.

Lemma _inlier_range_widens_witness :
  exists returned_low returned_high,
    _inlier_range [Some (Qc_of_Z 0); Some (Qc_of_Z 100)]
      = Ok (returned_low, returned_high) /\
    double_le returned_low (Fin (Qc_of_Z 1)) = true /\
    double_le (Fin (Qc_of_Z 99)) returned_high = true.
Proof.
  destruct (_inlier_range_widens [Some (Qc_of_Z 0); Some (Qc_of_Z 100)]
              (Qc_of_Z 1) (Qc_of_Z 99))
    as (lo & hi & Hrun & _ & _ & Hlo & _ & Hhi).
  - decide_closed.
  - decide_closed.
  - decide_closed.
  - exists lo, hi. auto.
Defined.

(** ** Inliers *)


Lemma mask_sum_le mask : mask_sum mask <= Z.of_nat (length mask).
Proof. unfold mask_sum. pose proof (length_filter Is_true mask). lia. Qed.

Lemma mask_sum_all mask :
  Z.of_nat (length mask) - mask_sum mask <= 0 -> Forall (fun b => b = true) mask.
Proof.
  unfold mask_sum. induction mask as [|b mask IH]; intros H; [constructor|].
  pose proof (length_filter Is_true mask).
  destruct b.
  - rewrite filter_cons_True in H by exact I. cbn [length] in H.
    constructor; [reflexivity|]. apply IH. lia.
  - rewrite filter_cons_False in H by (intros []). cbn [length] in H. lia.
Qed.

Lemma count_false_dropped mask :
  Z.of_nat (length mask) - mask_sum mask = count_false mask.
Proof.
  unfold mask_sum, count_false. induction mask as [|[] mask IH].
  - reflexivity.
  - rewrite filter_cons_True by exact I.
    rewrite filter_cons_False by discriminate. cbn [length]. lia.
  - rewrite filter_cons_False by (intros []).
    rewrite filter_cons_True by reflexivity. cbn [length]. lia.
Qed.





















Lemma _find_inliers_mask series low high :
  _inlier_range series = Ok (low, high) ->
  exists w, _find_inliers series
    = Ok ((fun x => between low high x || isna x) <$> series, w).
Proof.
  intros Hrange. unfold _find_inliers. rewrite Hrange. cbn [mbind result_bind].
  rewrite zip_with_fmap_l, zip_with_fmap_r, zip_with_diag.
  destruct (0 <? _); eexists; reflexivity.
Qed.





(** ** Category pruning *)

#[local] Instance count_ge_total : Total count_ge.
Proof. intros a b. unfold count_ge. lia. Qed.

#[local] Instance count_ge_trans : Transitive count_ge.
Proof. intros a b c. unfold count_ge. lia. Qed.

Lemma elem_of_dropna {A} (l : list (option A)) x : x ∈ dropna l <-> Some x ∈ l.
Proof.
  unfold dropna. rewrite list_elem_of_omap. split.
  - intros (y & Hy & Heq). cbn in Heq. now subst.
  - intros H. now exists (Some x).
Qed.

Lemma astype_category_wf s :
  wf_series s ->
  exists cats,
    astype_category s = mkSeries (category cats) (values s) /\
    NoDup cats /\ forall v, Some v ∈ values s -> v ∈ cats.
Proof.
  intros Hwf. unfold astype_category, wf_series in *.
  assert (Hs : NoDup (merge_sort scalar_le (unique s)) /\
               forall v, Some v ∈ values s -> v ∈ merge_sort scalar_le (unique s)).
  { unfold unique. split.
    - rewrite merge_sort_Permutation. apply NoDup_remove_dups.
    - intros v Hv. rewrite merge_sort_Permutation.
      now apply elem_of_remove_dups, elem_of_dropna. }
  destruct s as [[| |cats] vals]; cbn in *.
  - eexists. split; [reflexivity|]. assumption.
  - eexists. split; [reflexivity|]. assumption.
  - exists cats. split; [reflexivity|]. exact Hwf.
Qed.

Lemma value_counts_categorical cats vals :
  let s := mkSeries (category cats) vals in
  (value_counts s).*1 ≡ₚ cats /\
  StronglySorted count_ge (value_counts s) /\
  forall c n, (c, n) ∈ value_counts s -> n = count_of c s.
Proof.
  intros s. unfold value_counts. cbn [dtype_of s].
  split; [|split].
  - rewrite merge_sort_Permutation, <- list_fmap_compose.
    now rewrite (list_fmap_ext _ id cats), list_fmap_id by auto.
  - apply StronglySorted_merge_sort; apply _.
  - intros c n Hin. rewrite merge_sort_Permutation in Hin.
    apply list_elem_of_fmap in Hin as (c' & [= -> ->] & _). reflexivity.
Qed.

Lemma slice_from_drop {A} (k : Z) (l : list A) :
  slice_from k l = drop (slice_start k (length l)) l.
Proof. unfold slice_from, slice_start. now destruct (k <? 0). Qed.

Lemma in_take {A} (x : A) n l : x ∈ take n l -> x ∈ l.
Proof. intros H. rewrite <- (take_drop n l). apply elem_of_app. now left. Qed.

Lemma in_drop {A} (x : A) n l : x ∈ drop n l -> x ∈ l.
Proof. intros H. rewrite <- (take_drop n l). apply elem_of_app. now right. Qed.

Section Prune.
Variable s : Series.
Variable K : Z.
Hypothesis wf : wf_series s.

Let counts := value_counts (astype_category s).
Let d := slice_start K (length counts).
Let kept := (take d counts).*1.
Let small := (drop d counts).*1.

Lemma kept_small_split :
  exists cats,
    astype_category s = mkSeries (category cats) (values s) /\
    NoDup cats /\
    (forall v, Some v ∈ values s -> v ∈ cats) /\
    (forall c, c ∈ cats <-> c ∈ kept \/ c ∈ small) /\
    (forall c, c ∈ kept -> c ∉ small).
Proof using wf.
  destruct (astype_category_wf s wf) as (cats & Has & Hnd & Hall).
  exists cats. split; [exact Has|]. split; [exact Hnd|]. split; [exact Hall|].
  destruct (value_counts_categorical cats (values s)) as (Hperm & _ & _).
  rewrite <- Has in Hperm. fold counts in Hperm.
  rewrite <- (take_drop d counts), fmap_app in Hperm. fold kept small in Hperm.
  split.
  - intros c. now rewrite <- Hperm, elem_of_app.
  - rewrite <- Hperm in Hnd. apply NoDup_app in Hnd as (_ & Hdisj & _).
    exact Hdisj.
Qed.

Lemma _prune_categories_run :
  _prune_categories s K =
    if decide (dabl_other ∈ kept)
    then Raise (ValueError NewCategoriesIncludeOld)
    else Ok (mkSeries
               (category (filter (fun c => c ∉ small) (categories (astype_category s))
                          ++ [dabl_other]))
               (relabel kept <$> values s)).
Proof using wf.
  destruct kept_small_split as (cats & Has & Hnd & Hall & Hsplit & Hdisj).
  unfold _prune_categories. rewrite slice_from_drop.
  fold counts. fold d. fold small. rewrite Has.
  unfold remove_categories. cbn [dtype_of values categories].
  assert (Hrem : forallb (fun r => bool_decide (r ∈ cats)) small = true).
  { apply forallb_forall. intros r Hr%list_elem_of_In.
    apply bool_decide_eq_true. apply Hsplit. now right. }
  rewrite Hrem. cbn [mbind result_bind].
  unfold add_categories. cbn [dtype_of values existsb].
  assert (Hfilter : forall c, c ∈ filter (fun c => c ∉ small) cats <-> c ∈ kept).
  { intros c. rewrite list_elem_of_filter, Hsplit. split.
    - intros [Hn [?|?]]; [assumption|contradiction].
    - intros Hk. split; [now apply Hdisj|now left]. }
  rewrite orb_false_r.
  destruct (decide (dabl_other ∈ kept)) as [Hin|Hnin].
  - rewrite bool_decide_eq_true_2 by now apply Hfilter. reflexivity.
  - rewrite bool_decide_eq_false_2 by now rewrite Hfilter.
    cbn [mbind result_bind]. unfold fillna. cbn [dtype_of values].
    rewrite bool_decide_eq_true_2 by (apply elem_of_app; right; left).
    f_equal. f_equal. rewrite <- list_fmap_compose.
    apply list_fmap_ext. intros i x Hx. unfold relabel. cbn. f_equal.
    destruct x as [v|]; cbn; [|reflexivity].
    assert (Hv : v ∈ cats) by (apply Hall; eapply list_elem_of_lookup_2; eauto).
    apply Hsplit in Hv.
    destruct (decide (v ∈ small)) as [Hs|Hs]; cbn.
    + rewrite decide_False; [reflexivity|]. intros Hk. now apply (Hdisj v).
    + rewrite decide_True; [reflexivity|]. tauto.
Qed.

(** The categories before the slice are among the most frequent ones,
    whatever the order [value_counts] gives to equal counts. *)
Lemma kept_most_frequent :
  most_frequent s (slice_start K (length (categories (astype_category s)))) kept.
Proof using wf.
  destruct kept_small_split as (cats & Has & Hnd & Hall & Hsplit & Hdisj).
  destruct (value_counts_categorical cats (values s)) as (Hperm & Hsorted & Hcount).
  rewrite <- Has in Hperm, Hsorted, Hcount. fold counts in Hperm, Hsorted, Hcount.
  assert (Hlen : length counts = length cats).
  { apply Permutation_length in Hperm. now rewrite length_fmap in Hperm. }
  assert (Hcats : categories (astype_category s) = cats) by now rewrite Has.
  unfold most_frequent. rewrite Hcats, <- Hlen. fold d.
  split; [|split; [|split]].
  - rewrite <- Hperm, <- (take_drop d counts), fmap_app in Hnd.
    now apply NoDup_app in Hnd as (Hnd & _).
  - intros c Hc. apply Hsplit. now left.
  - unfold kept. now rewrite length_fmap, length_take.
  - intros a b Ha Hb Hnb.
    apply Hsplit in Hb as [Hb|Hb]; [contradiction|].
    apply list_elem_of_fmap in Ha as ([a' na] & -> & Ha).
    apply list_elem_of_fmap in Hb as ([b' nb] & -> & Hb).
    rewrite <- (take_drop d counts) in Hsorted.
    pose proof (StronglySorted_app_1_elem_of _ _ _ _ _ Hsorted Ha Hb) as Hge.
    unfold count_ge in Hge. cbn [fst snd] in Hge |- *.
    rewrite (Hcount a' na), (Hcount b' nb) in Hge.
    + unfold count_of in *. rewrite Has in Hge. exact Hge.
    + eapply in_drop; eauto.
    + eapply in_take; eauto.
Qed.

End Prune.

Lemma nunique_relabel kept vals dt :
  nunique (mkSeries dt (relabel kept <$> vals)) <= Z.of_nat (length kept) + 1.
Proof.
  unfold nunique, unique. cbn [values].
  assert (Hsub : remove_dups (dropna (relabel kept <$> vals)) ⊆+ dabl_other :: kept).
  { apply NoDup_submseteq; [apply NoDup_remove_dups|].
    intros x Hx. apply elem_of_remove_dups, elem_of_dropna in Hx.
    apply list_elem_of_fmap in Hx as (y & [= ->] & _).
    destruct y as [v|]; [|left].
    destruct (decide (v ∈ kept)); [now right|left]. }
  apply submseteq_length in Hsub. cbn in Hsub. lia.
Qed.

(** C3 fails as stated.  A series that already holds 'dabl_other' among the
    categories to keep is rejected when the sentinel category is added; and
    for a negative [K] the slice [value_counts()[K:]] is the tail of the
    counts, so that more than [K + 1] values remain. *)
Lemma _prune_categories_sentinel_clash :
  _prune_categories (mkSeries object [Some (Str "dabl_other"); Some (Str "a")]) 10
    = Raise (ValueError NewCategoriesIncludeOld) /\
  (exists res,
     _prune_categories
       (mkSeries object [Some (Str "a"); Some (Str "b"); Some (Str "b")]) (-1)
       = Ok res /\
     nunique res = 2 /\ ~ nunique res <= -1 + 1).
Proof.
  split; [decide_closed|].
  eexists. split; [vm_compute; reflexivity|]. split; [reflexivity|].
  intros H. vm_compute in H. now apply H.
Qed.

(** C3, amended.  For a well-formed series and a count [K >= 0] there is a
    list [kept] of [min K (number of categories)] distinct categories of
    the series, none of them rarer than a category that is not kept, such
    that [_prune_categories] fails, with a [ValueError], when 'dabl_other'
    is one of them, and otherwise returns a series of the same length in
    which the entries of the kept categories are unchanged and every other
    entry, missing ones included, is 'dabl_other'; it has at most [K + 1]
    distinct values.  Which of several equally frequent categories are
    kept is left open. *)
Theorem _prune_categories_spec (series : Series) (K : Z) :
  wf_series series ->
  0 <= K ->
  exists kept,
    most_frequent series (Z.to_nat K) kept /\
    match _prune_categories series K with
    | Raise e => e = ValueError NewCategoriesIncludeOld /\ dabl_other ∈ kept
    | Ok res =>
        (dabl_other ∉ kept) /\
        length (values res) = length (values series) /\
        (forall i v, values series !! i = Some (Some v) ->
           v ∈ kept -> values res !! i = Some (Some v)) /\
        (forall i v, values series !! i = Some (Some v) ->
           v ∉ kept -> values res !! i = Some (Some dabl_other)) /\
        (forall i, values series !! i = Some None ->
           values res !! i = Some (Some dabl_other)) /\
        nunique res <= K + 1
    end.
Proof.
  intros Hwf HK.
  pose proof (_prune_categories_run series K Hwf) as Hrun.
  pose proof (kept_most_frequent series K Hwf) as Hmost.
  fold (kept_by series K) in Hrun, Hmost.
  assert (HK' : forall len, slice_start K len = Z.to_nat K).
  { intros len. unfold slice_start. destruct (Z.ltb_spec K 0); [lia|reflexivity]. }
  rewrite HK' in Hmost.
  exists (kept_by series K). split; [exact Hmost|]. rewrite Hrun.
  destruct (decide (dabl_other ∈ kept_by series K)) as [Hclash|Hclash];
    [split; [reflexivity|exact Hclash]|].
  cbn [values]. split; [exact Hclash|].
  split; [apply length_fmap|].
  split; [|split; [|split]].
  - intros i v Hv Hk. rewrite list_lookup_fmap, Hv. cbn. unfold relabel.
    now rewrite decide_True.
  - intros i v Hv Hk. rewrite list_lookup_fmap, Hv. cbn. unfold relabel.
    now rewrite decide_False.
  - intros i Hv. now rewrite list_lookup_fmap, Hv.
  - match goal with
    | |- nunique (mkSeries ?dt _) <= _ =>
        pose proof (nunique_relabel (kept_by series K) (values series) dt) as Hn
    end.
    destruct Hmost as (_ & _ & Hlen & _). lia.
Qed.

Lemma _prune_categories_spec_witness :
  exists res,
    _prune_categories
      (mkSeries object
         [Some (Str "b"); Some (Str "a"); Some (Str "b"); Some (Str "c"); None]) 1
      = Ok res /\
    values res !! 4%nat = Some (Some dabl_other) /\
    nunique res <= 1 + 1.
Proof.
  destruct (_prune_categories_spec
    (mkSeries object
       [Some (Str "b"); Some (Str "a"); Some (Str "b"); Some (Str "c"); None]) 1)
    as (kept & _ & Hrun).
  - exact I.
  - lia.
  - destruct (_prune_categories _ 1) as [res|e] eqn:Heq; [|discriminate].
    exists res. split; [reflexivity|].
    destruct Hrun as (_ & _ & _ & _ & Hmissing & Hn).
    split; [|exact Hn]. apply (Hmissing 4%nat). reflexivity.
Defined.

(** ** Frames: lookup and assignment *)

Lemma frame_lookup_app_r done l col :
  col ∉ done.*1 -> frame_lookup (done ++ l) col = frame_lookup l col.
Proof.
  induction done as [|[c s] done IH]; intros Hnin; [reflexivity|].
  cbn in *. apply not_elem_of_cons in Hnin as [Hne Hnin].
  rewrite decide_False by congruence. now apply IH.
Qed.

Lemma setitem_app_r done l col s :
  col ∉ done.*1 -> setitem (done ++ l) col s = done ++ setitem l col s.
Proof.
  induction done as [|[c s0] done IH]; intros Hnin; [reflexivity|].
  cbn in *. apply not_elem_of_cons in Hnin as [Hne Hnin].
  rewrite decide_False by congruence. f_equal. now apply IH.
Qed.

Lemma frame_lookup_elem_of df col s :
  frame_lookup df col = Some s -> (col, s) ∈ df.
Proof.
  induction df as [|[c s0] df IH]; cbn; [discriminate|].
  destruct (decide (c = col)) as [->|].
  - intros [= ->]. left.
  - intros H. right. now apply IH.
Qed.

Lemma elem_of_frame_lookup df col s :
  NoDup df.*1 -> (col, s) ∈ df -> frame_lookup df col = Some s.
Proof.
  induction df as [|[c s0] df IH]; intros Hnd Hin; [now apply elem_of_nil in Hin|].
  cbn in *. apply NoDup_cons in Hnd as [Hc Hnd].
  apply elem_of_cons in Hin as [[= -> ->]|Hin].
  - now rewrite decide_True.
  - rewrite decide_False; [now apply IH|].
    intros ->. apply Hc. apply list_elem_of_fmap. now exists (col, s).
Qed.

Lemma setitem_names df col s :
  col ∈ df.*1 -> (setitem df col s).*1 = df.*1.
Proof.
  induction df as [|[c s0] df IH]; intros Hin; [now apply elem_of_nil in Hin|].
  cbn in *. destruct (decide (c = col)) as [->|Hne]; [reflexivity|].
  cbn. f_equal. apply IH. apply elem_of_cons in Hin as [?|?]; congruence.
Qed.

(** ** The maximum *)

Lemma Qc_max_cases x y :
  (Qc_max x y = x \/ Qc_max x y = y) /\ (x ≤ Qc_max x y)%Qc /\ (y ≤ Qc_max x y)%Qc.
Proof.
  unfold Qc_max. destruct (decide (x ≤ y)%Qc) as [Hle|Hnle].
  - split; [now right|]. split; [exact Hle|apply Qcle_refl].
  - split; [now left|]. split; [apply Qcle_refl|].
    apply Qclt_le_weak. now apply Qcnot_le_lt.
Qed.

Lemma nanmax_None l : nanmax l = None -> forall x, Some x ∉ l.
Proof.
  induction l as [|[y|] l IH]; intros H x Hin.
  - now apply elem_of_nil in Hin.
  - unfold nanmax in H. cbn [foldr] in H. fold (nanmax l) in H.
    destruct (nanmax l); discriminate H.
  - apply elem_of_cons in Hin as [?|Hin]; [discriminate|]. now apply (IH H x).
Qed.

Lemma nanmax_Some l : forall m,
  nanmax l = Some m ->
  Some m ∈ l /\ forall x, Some x ∈ l -> (x ≤ m)%Qc.
Proof.
  induction l as [|[y|] l IH]; intros m H.
  - discriminate.
  - unfold nanmax in H. cbn [foldr] in H. fold (nanmax l) in H.
    destruct (nanmax l) as [a|] eqn:Ha.
    + injection H as <-. destruct (IH a eq_refl) as [Hin Hmax].
      destruct (Qc_max_cases y a) as ([->| ->] & Hy & Hamax).
      * split; [left|]. intros x [[= ->]|Hx]%elem_of_cons; [apply Qcle_refl|].
        eapply Qcle_trans; [now apply Hmax|exact Hamax].
      * split; [now right|]. intros x [[= ->]|Hx]%elem_of_cons; [exact Hy|].
        now apply Hmax.
    + injection H as <-. split; [left|].
      intros x [[= ->]|Hx]%elem_of_cons; [apply Qcle_refl|].
      now apply (nanmax_None l Ha) in Hx.
  - destruct (IH m H) as [Hin Hmax]. split; [now right|].
    intros x [?|Hx]%elem_of_cons; [discriminate|]. now apply Hmax.
Qed.

(** ** Running computations on the store *)

Lemma DataFrame_getitem_run X col h df s :
  h !! X = Some df -> frame_lookup df col = Some s ->
  DataFrame_getitem X col h = (Ok s, h).
Proof.
  intros HX Hs. unfold DataFrame_getitem, mbind, St_bind, St_load, lift, getitem.
  now rewrite HX, Hs.
Qed.

Lemma DataFrame_setitem_run X col s h df :
  h !! X = Some df ->
  DataFrame_setitem X col s h = (Ok (), <[X := setitem df col s]> h).
Proof.
  intros HX. unfold DataFrame_setitem, mbind, St_bind, St_load, St_store.
  now rewrite HX.
Qed.

Lemma DataFrame_copy_run X h df :
  h !! X = Some df ->
  DataFrame_copy X h = (Ok (fresh (dom h)), <[fresh (dom h) := df]> h).
Proof.
  intros HX. unfold DataFrame_copy, mbind, St_bind, St_load, St_alloc.
  now rewrite HX.
Qed.

Lemma Series_fillna_inplace_run X col v h df s s' :
  h !! X = Some df -> frame_lookup df col = Some s -> fillna s v = Ok s' ->
  Series_fillna_inplace X col v h = (Ok (), <[X := setitem df col s']> h).
Proof.
  intros HX Hs Hfill.
  unfold Series_fillna_inplace, mbind, St_bind, St_load, lift, getitem, St_store.
  now rewrite HX, Hs, Hfill.
Qed.

Lemma fresh_not_bound (h : gmap nat (list (string * Series))) :
  h !! fresh (dom h) = None.
Proof. apply not_elem_of_dom, is_fresh. Qed.

(** ** Filling missing entries *)

Lemma fillna_filled max_value s :
  dtype_of s = object \/ dtype_of s = float64 ->
  fillna s (fill_value max_value (dtype_of s)) = Ok (filled max_value s).
Proof.
  intros Hdt. unfold filled, fillna.
  destruct (fill_value max_value (dtype_of s)) as [v|] eqn:Hv; [|reflexivity].
  destruct Hdt as [Hdt|Hdt]; rewrite Hdt in *; [reflexivity|].
  unfold fill_value in Hv. rewrite decide_False in Hv by discriminate.
  destruct (nan_lift2 _ _ _); [|discriminate]. now injection Hv as <-.
Qed.

Section FillLoop.
Variable X : nat.
Variable max_value : option Qc.

Let body (col : string) : St unit :=
  s ← DataFrame_getitem X col;
  if decide (dtype_of s = object) then
    Series_fillna_inplace X col (Some dabl_missing)
  else
    Series_fillna_inplace X col
      (Num <$> nan_lift2 float_add max_value (Some (Qc_of_Z 1))).

Lemma fill_loop_run (todo : list (string * Series)) :
  forall (done : list (string * Series)) (h : gmap nat (list (string * Series))),
  NoDup (done ++ todo).*1 ->
  (forall c s, (c, s) ∈ todo -> dtype_of s = object \/ dtype_of s = float64) ->
  h !! X = Some (done ++ todo) ->
  for_each todo.*1 body h
  = (Ok (), <[X := done ++ ((fun cs => (cs.1, filled max_value cs.2)) <$> todo)]> h).
Proof.
  induction todo as [|[c s] todo IH]; intros done h Hnd Hdt HX.
  - cbn. rewrite app_nil_r in *. now rewrite insert_id.
  - cbn [fmap list_fmap fst snd for_each].
    assert (Hc : c ∉ done.*1).
    { rewrite fmap_app in Hnd. apply NoDup_app in Hnd as (_ & Hdisj & _).
      intros Hin. apply (Hdisj c Hin). left. }
    assert (Hlook : frame_lookup (done ++ (c, s) :: todo) c = Some s).
    { rewrite frame_lookup_app_r by exact Hc. cbn. now rewrite decide_True. }
    assert (Hstep : body c h
      = (Ok (), <[X := (done ++ [(c, filled max_value s)]) ++ todo]> h)).
    { unfold body, mbind, St_bind.
      rewrite (DataFrame_getitem_run X c h _ s HX Hlook).
      pose proof (fillna_filled max_value s (Hdt c s ltac:(left))) as Hfill.
      unfold fill_value in Hfill.
      destruct (decide (dtype_of s = object));
        rewrite (Series_fillna_inplace_run X c _ h _ s _ HX Hlook Hfill);
        rewrite setitem_app_r by exact Hc; cbn; rewrite decide_True by reflexivity;
        now rewrite <- app_assoc. }
    unfold mbind at 1, St_bind at 1. rewrite Hstep.
    rewrite (IH (done ++ [(c, filled max_value s)])).
    + rewrite insert_insert_eq, <- app_assoc. reflexivity.
    + rewrite <- app_assoc. cbn. rewrite !fmap_app in *. exact Hnd.
    + intros c' s' Hin. apply (Hdt c' s'). now right.
    + apply lookup_insert_eq.
Qed.

End FillLoop.

Lemma elem_of_number (vals : list (option scalar)) x :
  Some x ∈ number <$> vals <-> Some (Num x) ∈ vals.
Proof.
  rewrite list_elem_of_fmap. split.
  - intros ([[y|t]|] & Hy & Hin); cbn in Hy; try discriminate.
    now injection Hy as ->.
  - intros Hin. now exists (Some (Num x)).
Qed.

Lemma table_max_spec df m :
  nanmax (DataFrame_max_numeric_only df) = Some m -> table_max df m.
Proof.
  intros Hmax. apply nanmax_Some in Hmax as [Hin Hle].
  unfold DataFrame_max_numeric_only in *. split.
  - apply list_elem_of_fmap in Hin as ([c s] & Hm & Hcs).
    apply list_elem_of_filter in Hcs as [Hdt Hcs]. cbn in *.
    symmetry in Hm. apply nanmax_Some in Hm as [Hm _].
    exists c, s. split; [exact Hcs|]. split; [exact Hdt|].
    now apply elem_of_number.
  - intros c s x Hcs Hdt Hx.
    destruct (nanmax (number <$> values s)) as [mc|] eqn:Hmc.
    + pose proof (nanmax_Some _ _ Hmc) as [_ Hcol].
      eapply Qcle_trans; [apply Hcol; now apply elem_of_number|].
      apply Hle. apply list_elem_of_fmap. exists (c, s). cbn.
      split; [now symmetry|apply list_elem_of_filter; auto].
    + exfalso. apply (nanmax_None _ Hmc x). now apply elem_of_number.
Qed.

Lemma _fill_missing_categorical_run X h df :
  h !! X = Some df ->
  NoDup df.*1 ->
  (forall c s, (c, s) ∈ df -> dtype_of s = object \/ dtype_of s = float64) ->
  _fill_missing_categorical X h
  = (Ok (fresh (dom h)),
     <[fresh (dom h) :=
         (fun cs => (cs.1,
            filled (nanmax (DataFrame_max_numeric_only df)) cs.2)) <$> df]> h).
Proof.
  intros HX Hnd Hdt. unfold _fill_missing_categorical.
  unfold mbind at 1, St_bind at 1. rewrite (DataFrame_copy_run X h df HX).
  unfold mbind at 1, St_bind at 1, St_load at 1. rewrite lookup_insert_eq.
  unfold mbind at 1, St_bind at 1.
  rewrite (fill_loop_run (fresh (dom h)) _ df [] _ Hnd Hdt)
    by apply lookup_insert_eq.
  cbn. now rewrite insert_insert_eq.
Qed.


Lemma nanmax_no_number l : (forall x, Some x ∉ l) -> nanmax l = None.
Proof.
  induction l as [|[y|] l IH]; intros H; [reflexivity| |].
  - exfalso. apply (H y). left.
  - apply IH. intros x Hx. apply (H x). now right.
Qed.

Lemma table_max_none (df : list (string * Series)) :
  (forall c s x, (c, s) ∈ df -> dtype_of s = float64 -> Some (Num x) ∉ values s) ->
  nanmax (DataFrame_max_numeric_only df) = None.
Proof.
  intros Hnone. apply nanmax_no_number. intros m Hm.
  unfold DataFrame_max_numeric_only in Hm.
  apply list_elem_of_fmap in Hm as ([c s] & Hm & Hcs).
  apply list_elem_of_filter in Hcs as [Hdt Hcs]. cbn in *.
  symmetry in Hm. apply nanmax_Some in Hm as [Hm _].
  apply elem_of_number in Hm. now apply (Hnone c s m).
Qed.

(** What holds of C4: for a frame of object and numeric columns with
    distinct names, in which some numeric column holds a number or no
    numeric column has a missing entry, [_fill_missing_categorical] leaves
    every frame of the store as it was, the caller's included, and returns
    a new frame with the same columns and no missing entry: a present entry
    is unchanged, a missing entry of an object column is 'dabl_missing', and
    a missing entry of a numeric column is the float that the largest
    number of the numeric columns plus one rounds to. *)
Lemma _fill_missing_categorical_fillable
    (h : gmap nat (list (string * Series))) (X : nat)
    (df : list (string * Series)) :
  h !! X = Some df ->
  NoDup df.*1 ->
  (forall c s, (c, s) ∈ df -> dtype_of s = object \/ dtype_of s = float64) ->
  fillable df ->
  exists X' df',
    _fill_missing_categorical X h = (Ok X', <[X' := df']> h) /\
    h !! X' = None /\
    (<[X' := df']> h) !! X = Some df /\
    df'.*1 = df.*1 /\
    (forall c s', (c, s') ∈ df' -> None ∉ values s') /\
    (forall j c s, df !! j = Some (c, s) ->
       exists s', df' !! j = Some (c, s') /\
         dtype_of s' = dtype_of s /\
         length (values s') = length (values s) /\
         forall i x, values s !! i = Some x ->
           match x with
           | Some v => values s' !! i = Some (Some v)
           | None =>
               if decide (dtype_of s = object)
               then values s' !! i = Some (Some dabl_missing)
               else exists m, table_max df m /\
                      values s' !! i
                      = Some (Some (Num (float_add m (Qc_of_Z 1))))
           end).
Proof.
  intros HX Hnd Hdt Hfill.
  pose proof (fresh_not_bound h) as Hfresh.
  set (mv := nanmax (DataFrame_max_numeric_only df)).
  assert (Hcol : forall c s, (c, s) ∈ df ->
    dtype_of (filled mv s) = dtype_of s /\
    length (values (filled mv s)) = length (values s) /\
    (None ∉ values (filled mv s)) /\
    forall i x, values s !! i = Some x ->
      match x with
      | Some v => values (filled mv s) !! i = Some (Some v)
      | None =>
          if decide (dtype_of s = object)
          then values (filled mv s) !! i = Some (Some dabl_missing)
          else exists m, table_max df m /\
                 values (filled mv s) !! i
                 = Some (Some (Num (float_add m (Qc_of_Z 1))))
      end).
  { intros c s Hcs. unfold filled, fill_value.
    destruct (decide (dtype_of s = object)) as [Hobj|Hnobj].
    - cbn. split; [reflexivity|]. split; [apply length_fmap|]. split.
      + intros (x & Hx & _)%list_elem_of_fmap. discriminate.
      + intros i x Hx. rewrite list_lookup_fmap, Hx. now destruct x.
    - destruct (Hdt c s Hcs) as [?|Hnum]; [contradiction|].
      destruct mv as [m|] eqn:Hmv; cbn.
      + split; [reflexivity|]. split; [apply length_fmap|]. split.
        * intros (x & Hx & _)%list_elem_of_fmap. discriminate.
        * intros i x Hx. rewrite list_lookup_fmap, Hx. destruct x; [reflexivity|].
          exists m. split; [apply table_max_spec; exact Hmv|reflexivity].
      + assert (Hnone : None ∉ values s).
        { destruct Hfill as [(c' & s' & x & Hin & Hdt' & Hx)|Hall];
            [exfalso|now apply (Hall c s)].
          apply (nanmax_None _ Hmv
                   (default (Qc_of_Z 0) (nanmax (number <$> values s')))).
          unfold DataFrame_max_numeric_only. apply list_elem_of_fmap.
          exists (c', s'). cbn. split; [|apply list_elem_of_filter; auto].
          destruct (nanmax (number <$> values s')) eqn:Hs'; [reflexivity|].
          exfalso. apply (nanmax_None _ Hs' x). now apply elem_of_number. }
        split; [reflexivity|]. split; [reflexivity|]. split; [exact Hnone|].
        intros i [v|] Hx; [exact Hx|].
        exfalso. apply Hnone. eapply list_elem_of_lookup_2; eauto. }
  eexists _, _. split; [exact (_fill_missing_categorical_run X h df HX Hnd Hdt)|].
  split; [exact Hfresh|]. split.
  { rewrite lookup_insert_ne; [exact HX|]. intros Heq. rewrite Heq in Hfresh.
    congruence. }
  split.
  { rewrite <- list_fmap_compose. now apply list_fmap_ext. }
  split.
  - intros c s' ([c0 s0] & [= -> ->] & Hin)%list_elem_of_fmap.
    now apply (Hcol c0 s0).
  - intros j c s Hj. exists (filled mv s).
    rewrite list_lookup_fmap, Hj. split; [reflexivity|].
    apply list_elem_of_lookup_2 in Hj. destruct (Hcol c s Hj) as (? & ? & _ & ?).
    auto.
Qed.

(** C4, a defect of the code.  The function is to fill the missing values
    with a new category, a number for the numeric columns.  In a frame
    whose numeric columns hold no number the maximum is NaN, so is
    [max_value + 1], and [fillna] fills nothing: every numeric column
    comes back as it was, its missing entries included.  And [max_value + 1]
    is computed in floats: next to the number [2 ^ 53] the missing entry is
    filled with [2 ^ 53] itself, which is no new category, and not the
    maximum plus one. *)
Theorem _fill_missing_categorical_unfilled :
  (forall (h : gmap nat (list (string * Series))) (X : nat)
          (df : list (string * Series)) (c : string) (s : Series),
     h !! X = Some df ->
     NoDup df.*1 ->
     (forall c s, (c, s) ∈ df -> dtype_of s = object \/ dtype_of s = float64) ->
     (forall c s x, (c, s) ∈ df -> dtype_of s = float64 ->
        Some (Num x) ∉ values s) ->
     (c, s) ∈ df -> dtype_of s = float64 -> None ∈ values s ->
     exists X' df',
       _fill_missing_categorical X h = (Ok X', <[X' := df']> h) /\
       (c, s) ∈ df' /\ None ∈ values s) /\
  (let big := Num (Qc_of_Z (2 ^ 53)) in
   let h : gmap nat (list (string * Series)) :=
     {[ 0%nat := [("n"%string, mkSeries float64 [Some big; None])] ]} in
   (_fill_missing_categorical 0 h).1 = Ok 1%nat /\
   (_fill_missing_categorical 0 h).2 !! 1%nat
   = Some [("n"%string, mkSeries float64 [Some big; Some big])]).
Proof.
  split.
  - intros h X df c s HX Hnd Hdt Hnone Hcs Hfloat Hmissing.
    eexists _, _.
    split; [exact (_fill_missing_categorical_run X h df HX Hnd Hdt)|].
    split; [|exact Hmissing].
    rewrite (table_max_none df Hnone).
    apply list_elem_of_fmap. exists (c, s). split; [|exact Hcs].
    cbn. f_equal. unfold filled, fill_value. now rewrite Hfloat.
  - cbv zeta. split; decide_closed.
Qed.

Lemma _fill_missing_categorical_unfilled_witness :
  let X := mkSeries float64 [None; None] in
  let h : gmap nat (list (string * Series)) :=
    {[ 0%nat := [("n"%string, X)] ]} in
  exists X' df',
    _fill_missing_categorical 0 h = (Ok X', <[X' := df']> h) /\
    ("n"%string, X) ∈ df' /\ None ∈ values X.
Proof.
  intros X h.
  apply (proj1 _fill_missing_categorical_unfilled h 0%nat [("n"%string, X)]).
  - reflexivity.
  - apply (bool_decide_eq_true_1 (NoDup _)). reflexivity.
  - intros c s Hin. apply list_elem_of_singleton in Hin as [= -> ->]. now right.
  - intros c s x Hin _. apply list_elem_of_singleton in Hin as [= -> ->].
    apply (bool_decide_eq_true_1 (_ ∉ _)). reflexivity.
  - left.
  - reflexivity.
  - left.
Defined.

(** ** _prune_category_make_X *)

Lemma DataFrame_select_run X h df target_col tcol :
  h !! X = Some df -> frame_lookup df target_col = Some tcol ->
  DataFrame_select X [target_col] h
  = (Ok (fresh (dom h)), <[fresh (dom h) := [(target_col, tcol)]]> h).
Proof.
  intros HX Ht.
  unfold DataFrame_select, mbind at 1 2, St_bind, St_load, lift, St_alloc.
  rewrite HX. cbn. unfold getitem. now rewrite Ht.
Qed.

(** Frames already in the store are never written to: the function only
    writes to the frames it allocates.  This holds on every input, a
    failing one included. *)
Lemma _prune_category_make_X_frame X col target_col max_categories
    (h : gmap nat (list (string * Series))) l :
  l ∈ dom h ->
  (_prune_category_make_X X col target_col max_categories h).2 !! l = h !! l.
Proof.
  intros Hl. apply elem_of_dom in Hl as Hbound.
  assert (Hfresh : forall (h' : gmap nat (list (string * Series))) df,
    (forall l, l ∈ dom h -> h' !! l = h !! l) ->
    forall l, l ∈ dom h -> <[fresh (dom h') := df]> h' !! l = h !! l).
  { intros h' df Hsame l' Hl'. rewrite lookup_insert_ne; [now apply Hsame|].
    intros <-. apply elem_of_dom in Hl' as [df' Hdf'].
    rewrite <- Hsame in Hdf' by (apply elem_of_dom; eauto).
    pose proof (fresh_not_bound h'). congruence. }
  unfold _prune_category_make_X, DataFrame_getitem, DataFrame_select,
    DataFrame_copy, DataFrame_setitem, St_load, St_alloc, St_store, lift,
    mbind, St_bind, mret, St_ret.
  destruct (h !! X) as [df|] eqn:HX; [|reflexivity]. cbn [fst snd].
  destruct (getitem df col) as [cvals|e]; [|reflexivity].
  destruct (max_categories <? nunique cvals).
  - destruct (_prune_categories cvals _) as [pruned|e]; [|reflexivity].
    rewrite HX. cbn [traverse mbind result_bind].
    destruct (getitem df target_col) as [tcol|e]; [|reflexivity].
    cbn [mbind result_bind]. rewrite lookup_insert_eq.
    set (h1 := <[fresh (dom h) := _]> h).
    rewrite lookup_insert_eq. cbn [snd]. rewrite insert_insert_eq.
    apply (Hfresh h1); [|exact Hl]. intros l' Hl'. now apply (Hfresh h).
  - rewrite HX, lookup_insert_eq.
    destruct (getitem df col) as [s|e].
    + rewrite lookup_insert_eq. cbn [snd]. rewrite insert_insert_eq.
      now apply (Hfresh h).
    + cbn [snd]. now apply (Hfresh h).
Qed.

Lemma frame_lookup_setitem df col s c :
  frame_lookup (setitem df col s) c
  = if decide (c = col) then Some s else frame_lookup df c.
Proof.
  induction df as [|[c0 s0] df IH]; cbn.
  - destruct (decide (col = c)), (decide (c = col)); congruence.
  - destruct (decide (c0 = col)) as [->|Hne]; cbn.
    + destruct (decide (col = c)), (decide (c = col)); congruence.
    + destruct (decide (c0 = c)) as [->|Hne'].
      * now rewrite decide_False by congruence.
      * exact IH.
Qed.

Lemma _prune_category_make_X_run_pruned X col target_col max_categories
    (h : gmap nat (list (string * Series))) df cvals tcol pruned :
  h !! X = Some df ->
  frame_lookup df col = Some cvals ->
  frame_lookup df target_col = Some tcol ->
  max_categories < nunique cvals ->
  _prune_categories cvals (Z.min 10 max_categories) = Ok pruned ->
  let h1 := <[fresh (dom h) := [(target_col, tcol)]]> h in
  _prune_category_make_X X col target_col max_categories h
  = (Ok (fresh (dom h1)),
     <[fresh (dom h1) := setitem [(target_col, tcol)] col pruned]> h1).
Proof.
  intros HX Hcol Htarget Hlt Hpruned h1. unfold _prune_category_make_X.
  unfold mbind at 1, St_bind at 1.
  rewrite (DataFrame_getitem_run X col h df cvals HX Hcol).
  destruct (Z.ltb_spec max_categories (nunique cvals)) as [_|Hge]; [|lia].
  rewrite Hpruned. unfold lift, mbind at 1, St_bind at 1.
  unfold mbind at 1, St_bind at 1.
  rewrite (DataFrame_select_run X h df target_col tcol HX Htarget). fold h1.
  unfold mbind at 1, St_bind at 1.
  rewrite (DataFrame_copy_run (fresh (dom h)) h1 [(target_col, tcol)])
    by apply lookup_insert_eq.
  unfold mbind at 1, St_bind at 1.
  rewrite (DataFrame_setitem_run (fresh (dom h1)) col pruned _ [(target_col, tcol)])
    by apply lookup_insert_eq.
  cbn [mret St_ret]. now rewrite insert_insert_eq.
Qed.

Lemma _prune_category_make_X_run_kept X col target_col max_categories
    (h : gmap nat (list (string * Series))) df cvals :
  h !! X = Some df ->
  frame_lookup df col = Some cvals ->
  nunique cvals <= max_categories ->
  _prune_category_make_X X col target_col max_categories h
  = (Ok (fresh (dom h)),
     <[fresh (dom h) := setitem df col (astype_category cvals)]> h).
Proof.
  intros HX Hcol Hge. unfold _prune_category_make_X.
  unfold mbind at 1, St_bind at 1.
  rewrite (DataFrame_getitem_run X col h df cvals HX Hcol).
  destruct (Z.ltb_spec max_categories (nunique cvals)) as [Hlt|_]; [lia|].
  unfold mbind at 1, St_bind at 1.
  rewrite (DataFrame_copy_run X h df HX).
  unfold mbind at 1, St_bind at 1.
  rewrite (DataFrame_getitem_run (fresh (dom h)) col _ df cvals)
    by (try apply lookup_insert_eq; exact Hcol).
  unfold mbind at 1, St_bind at 1.
  rewrite (DataFrame_setitem_run (fresh (dom h)) col _ _ df)
    by apply lookup_insert_eq.
  cbn [mret St_ret]. now rewrite insert_insert_eq.
Qed.

(** C10 fails as stated: when the column to prune already holds
    'dabl_other' among the categories to keep, the pruning raises and no
    frame is returned. *)
Lemma _prune_category_make_X_sentinel_clash :
  let c := mkSeries object
             [Some (Str "dabl_other"); Some (Str "dabl_other"); Some (Str "a")] in
  let y := mkSeries float64
             [Some (Num (Qc_of_Z 1)); Some (Num (Qc_of_Z 2)); Some (Num (Qc_of_Z 3))] in
  let h : gmap nat (list (string * Series)) :=
    {[ 0%nat := [("c"%string, c); ("y"%string, y)] ]} in
  1 < nunique c /\
  (_prune_category_make_X 0 "c" "y" 1 h).1
    = Raise (ValueError NewCategoriesIncludeOld).
Proof. split; vm_compute; reflexivity. Qed.

(** C10, amended.  On every input, a failing one included,
    [_prune_category_make_X] leaves the frames already in the store as they
    were, the caller's [X] among them.  When [col] and [target_col] are
    columns of [X] and [col] has more than [max_categories] distinct values,
    then, provided 'dabl_other' is not one of the categories the pruning
    keeps, the result is a new frame made of the target column and the pruned
    column only; when [col] has at most [max_categories] distinct values the
    result is a new frame with the columns of [X], [col] converted to
    categorical and the others unchanged. *)
Theorem _prune_category_make_X_spec :
  (forall X col target_col max_categories
          (h : gmap nat (list (string * Series))) l,
     l ∈ dom h ->
     (_prune_category_make_X X col target_col max_categories h).2 !! l = h !! l) /\
  (forall X col target_col max_categories
          (h : gmap nat (list (string * Series))) df cvals tcol,
     h !! X = Some df ->
     frame_lookup df col = Some cvals ->
     frame_lookup df target_col = Some tcol ->
     wf_series cvals ->
     (max_categories < nunique cvals ->
      dabl_other ∉ kept_by cvals (Z.min 10 max_categories)) ->
     exists X_new df_new,
       _prune_category_make_X X col target_col max_categories h
         = (Ok X_new, (_prune_category_make_X X col target_col max_categories h).2) /\
       h !! X_new = None /\
       (_prune_category_make_X X col target_col max_categories h).2 !! X_new
         = Some df_new /\
       (_prune_category_make_X X col target_col max_categories h).2 !! X
         = Some df /\
       (max_categories < nunique cvals ->
        exists pruned,
          _prune_categories cvals (Z.min 10 max_categories) = Ok pruned /\
          df_new = if decide (target_col = col) then [(col, pruned)]
                   else [(target_col, tcol); (col, pruned)]) /\
       (nunique cvals <= max_categories ->
        df_new.*1 = df.*1 /\
        forall c, frame_lookup df_new c
                  = if decide (c = col) then Some (astype_category cvals)
                    else frame_lookup df c)).
Proof.
  split; [apply _prune_category_make_X_frame|].
  intros X col target_col max_categories h df cvals tcol HX Hcol Htarget Hwf Hclash.
  pose proof (_prune_category_make_X_frame X col target_col max_categories h X
                ltac:(apply elem_of_dom; eauto)) as Hsame.
  rewrite HX in Hsame.
  destruct (Z.lt_ge_cases max_categories (nunique cvals)) as [Hlt|Hge].
  - specialize (Hclash Hlt).
    pose proof (_prune_categories_run cvals (Z.min 10 max_categories) Hwf) as Hrun.
    fold (kept_by cvals (Z.min 10 max_categories)) in Hrun.
    rewrite decide_False in Hrun by exact Hclash.
    pose proof (_prune_category_make_X_run_pruned X col target_col max_categories
                  h df cvals tcol _ HX Hcol Htarget Hlt Hrun) as Hmake.
    cbn zeta in Hmake. rewrite Hmake in Hsame |- *. cbn [fst snd] in Hsame |- *.
    set (h1 := <[fresh (dom h) := [(target_col, tcol)]]> h) in *.
    eexists _, _. split; [reflexivity|]. split.
    { destruct (h !! fresh (dom h1)) eqn:Hb; [|reflexivity]. exfalso.
      pose proof (fresh_not_bound h1) as Hf1. unfold h1 in Hf1 at 2.
      pose proof (fresh_not_bound h) as Hf.
      rewrite lookup_insert_ne in Hf1; [congruence|].
      intros Heq. rewrite <- Heq in Hb. congruence. }
    split; [apply lookup_insert_eq|]. split; [exact Hsame|].
    split; [|intros; lia].
    intros _. eexists. split; [exact Hrun|].
    cbn. destruct (decide (target_col = col)) as [->|]; reflexivity.
  - pose proof (_prune_category_make_X_run_kept X col target_col max_categories
                  h df cvals HX Hcol Hge) as Hmake.
    rewrite Hmake in Hsame |- *. cbn [fst snd] in Hsame |- *.
    eexists _, _. split; [reflexivity|]. split; [apply fresh_not_bound|].
    split; [apply lookup_insert_eq|]. split; [exact Hsame|].
    split; [intros; lia|]. intros _. split.
    + apply setitem_names. apply frame_lookup_elem_of in Hcol.
      apply list_elem_of_fmap. now exists (col, cvals).
    + intros c. apply frame_lookup_setitem.
Qed.

Lemma _prune_category_make_X_spec_witness :
  let c := mkSeries object [Some (Str "x"); Some (Str "x"); Some (Str "z")] in
  let y := mkSeries float64 [Some (Num (Qc_of_Z 1)); None; Some (Num (Qc_of_Z 3))] in
  let h : gmap nat (list (string * Series)) :=
    {[ 0%nat := [("c"%string, c); ("y"%string, y); ("w"%string, y)] ]} in
  exists X_new df_new,
    (_prune_category_make_X 0 "c" "y" 1 h).1 = Ok X_new /\
    (_prune_category_make_X 0 "c" "y" 1 h).2 !! X_new = Some df_new /\
    (_prune_category_make_X 0 "c" "y" 1 h).2 !! 0%nat = h !! 0%nat /\
    df_new.*1 = ["y"%string; "c"%string].
Proof.
  intros c y h.
  destruct (proj2 _prune_category_make_X_spec 0%nat "c"%string "y"%string 1 h
              [("c"%string, c); ("y"%string, y); ("w"%string, y)] c y)
    as (X_new & df_new & Hrun & _ & Hnew & Hold & Hpruned & _).
  - reflexivity.
  - reflexivity.
  - reflexivity.
  - exact I.
  - intros _. decide_closed.
  - exists X_new, df_new. split; [now rewrite Hrun|]. split; [exact Hnew|].
    split; [exact Hold|].
    destruct Hpruned as (pruned & _ & ->); [vm_compute; reflexivity|].
    reflexivity.
Defined.

(** ** The bins of class_hists *)

Lemma length_linspace start stop num : length (linspace start stop num) = num.
Proof. unfold linspace. now rewrite length_fmap, length_seq. Qed.

(** C6 fails on the code: the branch that falls back to ten bins tests the
    number of edges, which is one more than the number of bins.  Nine bins
    asked for give ten edges, the test [len(bin_edges) < 10] is false, and
    nine bins are drawn, whatever the data. *)
Theorem class_hists_nine_bins (auto_bins : list Qc -> positive)
    (column : list (option Qc)) :
  exists bin_edges,
    class_hists_bin_edges auto_bins column (BinsInt 9) = Ok bin_edges /\
    length bin_edges = 10%nat /\
    (length bin_edges - 1 < 10)%nat.
Proof.
  assert (Hnine : histogram_bin_edges auto_bins (dropna column) (BinsInt 9)
    = Ok (linspace (outer_edges (dropna column)).1
            (outer_edges (dropna column)).2 10)) by reflexivity.
  unfold class_hists_bin_edges. rewrite Hnine. cbn [mbind result_bind].
  rewrite length_linspace. change (10 <? 10)%nat with false. cbn iota.
  eexists. split; [reflexivity|]. rewrite length_linspace. lia.
Qed.

(** ** The checks of plot_coefficients *)

(** C8 fails as stated: a row vector is two-dimensional and is accepted,
    because the array is squeezed before its dimension is tested. *)
Lemma plot_coefficients_row_vector_accepted :
  let coefficients :=
    mkArray [1; 3]%nat [Qc_of_Z 3; Qc_of_Z (-5); Qc_of_Z 1] in
  ndim coefficients = 2%nat /\
  exists bars,
    plot_coefficients coefficients ["a"; "b"; "c"]%string 10 = Ok bars /\
    bars.*1.*1 = ["b"; "c"; "a"]%string.
Proof.
  split; [reflexivity|]. eexists. split; [reflexivity|].
  vm_compute. reflexivity.
Qed.

(** C8, amended.  [plot_coefficients] raises a [ValueError] when the
    coefficients, once the axes of length one are squeezed out, still have
    more than one dimension, and when the number of coefficients differs
    from the number of feature names; otherwise it draws.  A row vector, a
    column vector and a zero-dimensional array are accepted. *)
Theorem plot_coefficients_rejects (coefficients : ndarray)
    (feature_names : list string) (n_top_features : Z) :
  ((1 < ndim (squeeze coefficients))%nat ->
   plot_coefficients coefficients feature_names n_top_features
   = Raise (ValueError CoefficientsNot1d)) /\
  (length (data coefficients) <> length feature_names ->
   exists why,
     plot_coefficients coefficients feature_names n_top_features
     = Raise (ValueError why)) /\
  ((ndim (squeeze coefficients) <= 1)%nat ->
   length (data coefficients) = length feature_names ->
   exists bars,
     plot_coefficients coefficients feature_names n_top_features = Ok bars).
Proof.
  unfold plot_coefficients.
  destruct (Nat.ltb_spec 1 (ndim (squeeze coefficients))) as [Hdim|Hdim].
  - split; [reflexivity|]. split; [eexists; reflexivity|]. lia.
  - split; [lia|]. unfold len, ravel, squeeze. cbn [data].
    destruct (Nat.eqb_spec (length (data coefficients)) (length feature_names))
      as [Hlen|Hlen]; cbn [negb].
    + split; [contradiction|]. intros _ _. eexists. reflexivity.
    + split; [eexists; reflexivity|]. intros _ ?. contradiction.
Qed.

Lemma plot_coefficients_rejects_witness :
  plot_coefficients (mkArray [2; 2]%nat
                       [Qc_of_Z 3; Qc_of_Z (-5); Qc_of_Z 0; Qc_of_Z 1])
    ["a"; "b"; "c"; "d"]%string 10
  = Raise (ValueError CoefficientsNot1d) /\
  (exists why,
     plot_coefficients (mkArray [3]%nat [Qc_of_Z 3; Qc_of_Z (-5); Qc_of_Z 1])
       ["a"; "b"]%string 10
     = Raise (ValueError why)) /\
  (exists bars,
     plot_coefficients (mkArray [3; 1]%nat [Qc_of_Z 3; Qc_of_Z (-5); Qc_of_Z 1])
       ["a"; "b"; "c"]%string 10
     = Ok bars).
Proof.
  split; [|split].
  - apply (proj1 (plot_coefficients_rejects _ _ _)). vm_compute. lia.
  - apply (proj1 (proj2 (plot_coefficients_rejects _ _ _))). vm_compute. lia.
  - apply (proj2 (proj2 (plot_coefficients_rejects _ _ _))); vm_compute; lia.
Defined.


(** ** The checks of _check_X_target_col *)

Lemma getitem_column X col s : getitem X col = Ok s -> col ∈ X.*1.
Proof.
  unfold getitem. destruct (frame_lookup X col) as [s'|] eqn:Hs; [|discriminate].
  intros _. apply frame_lookup_elem_of in Hs.
  apply list_elem_of_fmap. now exists (col, s').
Qed.

(** C9 fails as stated: a constant target that is not categorical is asked
    for classification, so that the detected kind disagrees with the task;
    the error raised is the one of the earlier check, "less than two
    classes", not the type mismatch. *)
Lemma _check_X_target_col_constant_target :
  let X := [("y"%string,
             mkSeries float64 [Some (Num (Qc_of_Z 1)); Some (Num (Qc_of_Z 1))])] in
  let types := [("y"%string, mkDetected true false)] in
  let run := _check_X_target_col unit (fun _ _ => Ok types) X
               [Num (Qc_of_Z 0); Num (Qc_of_Z 1)] (TargetName "y")
               (Some types) None (Some "classification"%string) in
  types_loc types "y" = Ok (mkDetected true false) /\
  run = Raise (ValueError LessThanTwoClasses) /\
  run <> Raise (ValueError NeedCategorical).
Proof. split; [reflexivity|]. split; [vm_compute; reflexivity|discriminate]. Qed.

(** C9, amended.  [_check_X_target_col] raises an error whenever the target
    column has fewer than two distinct values.  When the target is a column
    of [X] with at least two distinct values and the types, given or
    detected, have a row for it, the check raises the type-mismatch
    [ValueError] whenever the task is 'classification' and the target is not
    categorical, or the task is 'regression' and the target is not
    continuous. *)
Theorem _check_X_target_col_rejects (type_hints : Type)
    (detect_types : list (string * Series) -> option type_hints ->
                    result (list (string * detected)))
    (X : list (string * Series)) (index : list scalar)
    (target_col : string) (target : Series)
    (types : option (list (string * detected)))
    (hints : option type_hints) (task : option string) :
  getitem X target_col = Ok target ->
  (nunique target < 2 ->
   exists e,
     _check_X_target_col type_hints detect_types X index
       (TargetName target_col) types hints task = Raise e) /\
  (2 <= nunique target ->
   forall detected_types row,
     match types with
     | None => detect_types X hints
     | Some types => Ok types
     end = Ok detected_types ->
     types_loc detected_types target_col = Ok row ->
     (task = Some "classification"%string -> categorical row = false ->
      _check_X_target_col type_hints detect_types X index
        (TargetName target_col) types hints task
      = Raise (ValueError NeedCategorical)) /\
     (task = Some "regression"%string -> continuous row = false ->
      _check_X_target_col type_hints detect_types X index
        (TargetName target_col) types hints task
      = Raise (ValueError NeedContinuous))).
Proof.
  intros Htarget. pose proof (getitem_column X target_col target Htarget) as Hin.
  unfold _check_X_target_col. split.
  - intros Hfew.
    destruct (match types with None => _ | Some _ => _ end) as [t|e];
      cbn [mbind result_bind]; [|eexists; reflexivity].
    rewrite bool_decide_eq_true_2 by exact Hin. cbn [negb].
    rewrite Htarget. cbn [mbind result_bind].
    destruct (Z.ltb_spec (nunique target) 2) as [_|?]; [|lia].
    destruct (bool_decide _); eexists; reflexivity.
  - intros Hmany t row Ht Hrow. rewrite Ht. cbn [mbind result_bind].
    rewrite bool_decide_eq_true_2 by exact Hin. cbn [negb].
    rewrite Htarget. cbn [mbind result_bind].
    destruct (Z.ltb_spec (nunique target) 2) as [?|_]; [lia|].
    split.
    + intros -> Hcat.
      rewrite (bool_decide_eq_true_2
                 (Some "classification"%string = Some "classification"%string))
        by reflexivity.
      rewrite Hrow. cbn [mbind result_bind]. now rewrite Hcat.
    + intros -> Hcont.
      rewrite (bool_decide_eq_false_2
                 (Some "regression"%string = Some "classification"%string))
        by discriminate.
      cbn [mbind result_bind].
      rewrite (bool_decide_eq_true_2
                 (Some "regression"%string = Some "regression"%string))
        by reflexivity.
      rewrite Hrow. cbn [mbind result_bind]. now rewrite Hcont.
Qed.

Lemma _check_X_target_col_rejects_witness :
  let X := [("y"%string,
             mkSeries float64 [Some (Num (Qc_of_Z 1)); Some (Num (Qc_of_Z 2))]);
            ("z"%string,
             mkSeries float64 [Some (Num (Qc_of_Z 1)); Some (Num (Qc_of_Z 1))])] in
  let types := [("y"%string, mkDetected true false);
                ("z"%string, mkDetected false false)] in
  (exists e,
     _check_X_target_col unit (fun _ _ => Ok types) X
       [Num (Qc_of_Z 0); Num (Qc_of_Z 1)] (TargetName "z")
       None None None = Raise e) /\
  _check_X_target_col unit (fun _ _ => Ok types) X
    [Num (Qc_of_Z 0); Num (Qc_of_Z 1)] (TargetName "y")
    None None (Some "classification"%string)
  = Raise (ValueError NeedCategorical).
Proof.
  intros X types. split.
  - apply (proj1 (_check_X_target_col_rejects unit (fun _ _ => Ok types) X
                    [Num (Qc_of_Z 0); Num (Qc_of_Z 1)] "z"
                    (mkSeries float64 [Some (Num (Qc_of_Z 1)); Some (Num (Qc_of_Z 1))])
                    None None None eq_refl)).
    vm_compute. reflexivity.
  - apply (proj2 (_check_X_target_col_rejects unit (fun _ _ => Ok types) X
                    [Num (Qc_of_Z 0); Num (Qc_of_Z 1)] "y"
                    (mkSeries float64 [Some (Num (Qc_of_Z 1)); Some (Num (Qc_of_Z 2))])
                    None None (Some "classification"%string) eq_refl)
             ltac:(vm_compute; discriminate) types (mkDetected true false)
             eq_refl eq_refl);
      reflexivity.
Defined.
(** * Further properties of the module *)

(** ** _shortname and _short_tick_names *)

Lemma string_length_append (s t : string) :
  String.length (s ++ t)%string = (String.length s + String.length t)%nat.
Proof. induction s as [|a s IH]; simpl; [reflexivity|]. now f_equal. Qed.

Lemma string_length_substring (m : nat) (s : string) :
  String.length (String.substring 0 m s) = Nat.min m (String.length s).
Proof.
  revert m. induction s as [|a s IH]; intros [|m]; cbn; try reflexivity.
  now rewrite IH.
Qed.

Lemma str_slice_to_length (k : Z) (s : string) :
  String.length (str_slice_to k s) = slice_stop k (String.length s).
Proof.
  unfold str_slice_to. rewrite string_length_substring.
  unfold slice_stop. destruct (Z.ltb_spec k 0); lia.
Qed.

Lemma _shortname_length_cases (s : string) (maxlen : Z) :
  Z.of_nat (String.length (_shortname s maxlen))
  = if maxlen <? Z.of_nat (String.length s)
    then (if maxlen <? 3
          then Z.max 0 (Z.of_nat (String.length s) + maxlen - 3)
          else maxlen - 3) + 3
    else Z.of_nat (String.length s).
Proof.
  unfold _shortname.
  destruct (Z.ltb_spec maxlen (Z.of_nat (String.length s))) as [Hlong|Hfit];
    [|reflexivity].
  rewrite string_length_append, str_slice_to_length. cbn [String.length].
  unfold slice_stop.
  destruct (Z.ltb_spec maxlen 3), (Z.ltb_spec (maxlen - 3) 0); lia.
Qed.

(** X1. With [maxlen >= 3] the result of [_shortname] has
    [min (len some_string) maxlen] characters, as its docstring says. *)
Theorem _shortname_length (some_string : string) (maxlen : Z) :
  3 <= maxlen ->
  Z.of_nat (String.length (_shortname some_string maxlen))
  = Z.min (Z.of_nat (String.length some_string)) maxlen.
Proof.
  intros Hmax. rewrite _shortname_length_cases.
  destruct (Z.ltb_spec maxlen (Z.of_nat (String.length some_string)));
    destruct (Z.ltb_spec maxlen 3); lia.
Qed.

Lemma _shortname_length_witness :
  Z.of_nat (String.length (_shortname "sepal length (cm)" 10)) = 10.
Proof.
  rewrite (_shortname_length "sepal length (cm)" 10) by lia. reflexivity.
Defined.

(** X2. With [maxlen < 3] the bound of the docstring fails: the slice
    [some_string[:maxlen - 3]] counts from the end, and a string longer
    than [maxlen] comes back with [max 0 (len + maxlen - 3) + 3] characters,
    which is more than [maxlen]. *)
Theorem _shortname_small_maxlen (some_string : string) (maxlen : Z) :
  maxlen < 3 ->
  maxlen < Z.of_nat (String.length some_string) ->
  Z.of_nat (String.length (_shortname some_string maxlen))
  = Z.max 0 (Z.of_nat (String.length some_string) + maxlen - 3) + 3 /\
  maxlen < Z.of_nat (String.length (_shortname some_string maxlen)).
Proof.
  intros Hsmall Hlong. rewrite _shortname_length_cases.
  destruct (Z.ltb_spec maxlen (Z.of_nat (String.length some_string)));
    destruct (Z.ltb_spec maxlen 3); lia.
Qed.

Lemma _shortname_small_maxlen_witness :
  _shortname "abcd" 2 = "abc..."%string /\
  2 < Z.of_nat (String.length (_shortname "abcd" 2)).
Proof.
  split; [reflexivity|].
  apply (_shortname_small_maxlen "abcd" 2); cbn; lia.
Defined.

Lemma _shortname_fits (s : string) (maxlen : Z) :
  Z.of_nat (String.length s) <= maxlen -> _shortname s maxlen = s.
Proof.
  intros Hfit. unfold _shortname.
  now destruct (Z.ltb_spec maxlen (Z.of_nat (String.length s))); [lia|].
Qed.

Lemma _shortname_bounded (s : string) (maxlen : Z) :
  3 <= maxlen -> Z.of_nat (String.length (_shortname s maxlen)) <= maxlen.
Proof.
  intros Hmax. rewrite _shortname_length_cases.
  destruct (Z.ltb_spec maxlen (Z.of_nat (String.length s)));
    destruct (Z.ltb_spec maxlen 3); lia.
Qed.

(** X3. With [maxlen >= 3], shortening is idempotent: a shortened name is
    not shortened again. *)
Theorem _shortname_idempotent (some_string : string) (maxlen : Z) :
  3 <= maxlen ->
  _shortname (_shortname some_string maxlen) maxlen
  = _shortname some_string maxlen.
Proof. intros Hmax. apply _shortname_fits. now apply _shortname_bounded. Qed.

Lemma _shortname_idempotent_witness :
  _shortname (_shortname "petal width (cm)" 8) 8 = "petal..."%string.
Proof. rewrite (_shortname_idempotent "petal width (cm)" 8) by lia. reflexivity. Defined.

(** X4. After [_short_tick_names] no y tick label has more than 10
    characters and neither axis label more than 20; there are as many y tick
    labels as before, the x tick labels are untouched, and a second call
    changes nothing. *)
Theorem _short_tick_names_bounds (ax : Axes) :
  Forall (fun t => (String.length t <= 10)%nat)
    (yticklabels (_short_tick_names ax)) /\
  (String.length (xlabel (_short_tick_names ax)) <= 20)%nat /\
  (String.length (ylabel (_short_tick_names ax)) <= 20)%nat /\
  length (yticklabels (_short_tick_names ax)) = length (yticklabels ax) /\
  xticklabels (_short_tick_names ax) = xticklabels ax /\
  _short_tick_names (_short_tick_names ax) = _short_tick_names ax.
Proof.
  unfold _short_tick_names. cbn [xlabel ylabel xticklabels yticklabels].
  split; [|split; [|split; [|split; [|split]]]].
  - apply Forall_fmap, Forall_forall. intros t _. cbn.
    pose proof (_shortname_bounded t 10 ltac:(lia)). lia.
  - pose proof (_shortname_bounded (xlabel ax) 20 ltac:(lia)). lia.
  - pose proof (_shortname_bounded (ylabel ax) 20 ltac:(lia)). lia.
  - apply length_fmap.
  - reflexivity.
  - f_equal.
    + apply _shortname_fits, _shortname_bounded; lia.
    + apply _shortname_fits, _shortname_bounded; lia.
    + rewrite <- list_fmap_compose. apply list_fmap_ext. intros i t _. cbn.
      apply _shortname_fits, _shortname_bounded; lia.
Qed.


(** ** The shape of the grid *)

(** X5. Plots that fit in [max_cols] columns are put in a single row:
    for [0 < N <= M], [find_pretty_grid N M] is [(1, N)]. *)
Theorem find_pretty_grid_single_row (N M : Z) :
  0 < N <= M -> find_pretty_grid N M = Ok (1, N).
Proof.
  intros HNM. destruct (Z.eq_dec N M) as [->|Hne].
  - apply find_pretty_grid_square. lia.
  - apply find_pretty_grid_below. lia.
Qed.

Lemma find_pretty_grid_single_row_witness : find_pretty_grid 3 5 = Ok (1, 3).
Proof. apply (find_pretty_grid_single_row 3 5). lia. Defined.

(** X6. The grid returned has no empty row: for a positive [N] of less
    than 53 bits and a positive [M] the row count is at least one and is
    the least that holds [N] plots in the columns returned, so that fewer
    cells than one row stay empty. *)
Theorem find_pretty_grid_no_empty_row (N M : Z) :
  0 < N < 2 ^ 53 -> 0 < M ->
  exists r c,
    find_pretty_grid N M = Ok (r, c) /\
    1 <= r /\ 0 <= r * c - N < c /\
    forall r', N <= r' * c -> r <= r'.
Proof.
  intros HN HM.
  destruct (find_pretty_grid_run N M HN HM) as (c & Hrun & Hc & _).
  pose proof (ceil_div_bounds N c ltac:(lia)) as Hb.
  exists (ceil_div N c), c. split; [exact Hrun|].
  split; [nia|]. split; [lia|].
  intros r' Hr'. apply ceil_div_least; lia.
Qed.

Lemma find_pretty_grid_no_empty_row_witness :
  exists r c, find_pretty_grid 11 5 = Ok (r, c) /\ 0 <= r * c - 11 < c.
Proof.
  destruct (find_pretty_grid_no_empty_row 11 5 ltac:(lia) ltac:(lia))
    as (r & c & Hrun & _ & Hcells & _).
  exists r, c. auto.
Defined.

(** ** _make_subplots *)

Lemma _make_subplots_run (N M row_height : Z) :
  0 < N < 2 ^ 53 -> 0 < M -> 0 < row_height ->
  exists r c,
    find_pretty_grid N M = Ok (r, c) /\ 1 <= r /\ 1 <= c /\ N <= r * c /\
    (c = 1 -> M = 1 \/ N = 1) /\
    _make_subplots N M row_height
    = Ok (mkSubplots (4 * c, row_height * r)
             (if c =? 1 then (1, r) else (r, c))).
Proof.
  intros HN HM Hheight.
  destruct (find_pretty_grid_run N M HN HM)
    as (c & Hrun & Hc & Hlow & Hhigh & Hdiv).
  pose proof (ceil_div_bounds N c ltac:(lia)) as Hb.
  assert (Hr : 1 <= ceil_div N c) by nia.
  exists (ceil_div N c), c. split; [exact Hrun|].
  split; [exact Hr|]. split; [lia|]. split; [lia|]. split.
  - intros ->. destruct (Z.eq_dec M 1) as [|HM1]; [now left|right].
    destruct (Z.le_gt_cases (ceil_div N M) M) as [Hin|Hout].
    + specialize (Hlow Hin).
      pose proof (ceil_div_bounds N M HM) as HbM.
      assert (HNM : N <= M) by nia.
      destruct (Z.eq_dec N 1) as [|HN1]; [assumption|exfalso].
      destruct Hdiv as [[_ Hbig]|[Hnone _]].
      * apply (Hbig N); [lia|]. apply Z.mod_same. lia.
      * apply (Hnone 1); [lia|]. apply Z.mod_1_r.
    + specialize (Hhigh Hout). lia.
  - unfold _make_subplots. rewrite Hrun. cbn [mbind result_bind].
    unfold plt_subplots. cbn [fst snd].
    destruct (Z.ltb_spec (4 * c) 0); [lia|].
    destruct (Z.ltb_spec (row_height * ceil_div N c) 0); [nia|]. cbn [orb].
    destruct (Z.ltb_spec (ceil_div N c) 1); [lia|].
    destruct (Z.ltb_spec c 1); [lia|]. cbn [orb].
    destruct (Z.eqb_spec (ceil_div N c) 1) as [Hr1|Hr1],
             (Z.eqb_spec c 1) as [Hc1|Hc1];
      cbn [andb atleast_2d mbind result_bind];
      rewrite ?Hr1; reflexivity.
Qed.

(** X7. For a positive [n_plots] of less than 53 bits, a positive
    [max_cols] and a positive [row_height], [_make_subplots] does not fail
    and returns a two-dimensional array of axes with at least [n_plots]
    axes in it, in a figure 4 units wide per column and [row_height] high
    per row. *)
Theorem _make_subplots_enough_axes (N M row_height : Z) :
  0 < N < 2 ^ 53 -> 0 < M -> 0 < row_height ->
  exists r c sp,
    find_pretty_grid N M = Ok (r, c) /\
    _make_subplots N M row_height = Ok sp /\
    figsize sp = (4 * c, row_height * r) /\
    1 <= (axes_shape sp).1 /\ 1 <= (axes_shape sp).2 /\
    (axes_shape sp).1 * (axes_shape sp).2 = r * c /\
    N <= (axes_shape sp).1 * (axes_shape sp).2.
Proof.
  intros HN HM Hheight.
  destruct (_make_subplots_run N M row_height HN HM Hheight)
    as (r & c & Hgrid & Hr & Hc & Hfit & _ & Hrun).
  eexists r, c, _. split; [exact Hgrid|]. split; [exact Hrun|].
  cbn [figsize axes_shape]. split; [reflexivity|].
  destruct (Z.eqb_spec c 1) as [->|_]; cbn [fst snd]; lia.
Qed.

Lemma _make_subplots_enough_axes_witness :
  exists sp, _make_subplots 11 5 3 = Ok sp /\
    11 <= (axes_shape sp).1 * (axes_shape sp).2.
Proof.
  destruct (_make_subplots_enough_axes 11 5 3 ltac:(lia) ltac:(lia) ltac:(lia))
    as (r & c & sp & _ & Hrun & _ & _ & _ & _ & Hfit).
  exists sp. auto.
Defined.

(** X8. For a positive [n_plots] of less than 53 bits, a positive
    [max_cols] and a positive [row_height], the array of axes has the shape
    of the grid, rows by columns, whenever [max_cols] and [n_plots] are at
    least two.  With [max_cols = 1] the grid is one column of [n_plots]
    rows, and the array that [np.atleast_2d] makes of the one-dimensional
    result of [plt.subplots] is one row of [n_plots] axes instead.  With a
    negative [row_height] the figure is refused. *)
Theorem _make_subplots_shape (N M row_height : Z) :
  0 < N < 2 ^ 53 -> 0 < M ->
  (0 < row_height -> 2 <= N -> 2 <= M ->
   exists r c sp,
     find_pretty_grid N M = Ok (r, c) /\
     _make_subplots N M row_height = Ok sp /\ axes_shape sp = (r, c)) /\
  (0 < row_height -> M = 1 ->
   find_pretty_grid N M = Ok (N, 1) /\
   exists sp, _make_subplots N M row_height = Ok sp /\ axes_shape sp = (1, N)) /\
  (row_height < 0 ->
   _make_subplots N M row_height = Raise (ValueError FigureSizeNegative)).
Proof.
  intros HN HM. split; [|split].
  - intros Hheight HN2 HM2.
    destruct (_make_subplots_run N M row_height HN HM Hheight)
      as (r & c & Hgrid & Hr & Hc & Hfit & Hone & Hrun).
    eexists r, c, _. split; [exact Hgrid|].
    split; [exact Hrun|]. cbn [axes_shape].
    destruct (Z.eqb_spec c 1) as [Hc1|_]; [|reflexivity].
    destruct (Hone Hc1); lia.
  - intros Hheight ->.
    destruct (_make_subplots_run N 1 row_height HN HM Hheight)
      as (r & c & Hgrid & Hr & Hc & Hfit & Hone & Hrun).
    destruct (find_pretty_grid_run N 1 HN ltac:(lia)) as (c' & Hrun' & Hc' & _).
    assert (c' = 1) as -> by lia.
    assert (Hceil : ceil_div N 1 = N).
    { rewrite ceil_div_exact by (try apply Z.mod_1_r; lia). apply Z.div_1_r. }
    rewrite Hceil in Hrun'. rewrite Hrun' in Hgrid. injection Hgrid as <- <-.
    split; [exact Hrun'|]. eexists. split; [exact Hrun|]. reflexivity.
  - intros Hheight.
    destruct (find_pretty_grid_run N M HN HM) as (c & Hrun & Hc & _).
    pose proof (ceil_div_bounds N c ltac:(lia)) as Hb.
    unfold _make_subplots. rewrite Hrun. cbn [mbind result_bind].
    unfold plt_subplots. cbn [fst snd].
    destruct (Z.ltb_spec (4 * c) 0); [lia|].
    destruct (Z.ltb_spec (row_height * ceil_div N c) 0); [reflexivity|nia].
Qed.

Lemma _make_subplots_shape_witness :
  (exists sp, _make_subplots 11 5 3 = Ok sp /\ axes_shape sp = (3, 4)) /\
  (exists sp, _make_subplots 3 1 3 = Ok sp /\ axes_shape sp = (1, 3)) /\
  _make_subplots 11 5 (-1) = Raise (ValueError FigureSizeNegative).
Proof.
  split; [|split].
  - destruct (proj1 (_make_subplots_shape 11 5 3 ltac:(lia) ltac:(lia))
                ltac:(lia) ltac:(lia) ltac:(lia))
      as (r & c & sp & Hgrid & Hrun & Hshape).
    exists sp. split; [exact Hrun|]. rewrite Hshape.
    assert (Heq : find_pretty_grid 11 5 = Ok (3, 4)) by (vm_compute; reflexivity).
    rewrite Heq in Hgrid. now injection Hgrid as <- <-.
  - destruct (proj1 (proj2 (_make_subplots_shape 3 1 3 ltac:(lia) ltac:(lia)))
                ltac:(lia) eq_refl)
      as (_ & sp & Hrun & Hshape).
    exists sp. auto.
  - apply (proj2 (proj2 (_make_subplots_shape 11 5 (-1) ltac:(lia) ltac:(lia)))).
    lia.
Defined.

(** ** The scatter styles *)

(** X9. With "auto", more samples never give more opaque or larger points:
    [_get_scatter_alpha] and [_get_scatter_size] are non-increasing in the
    number of samples, alpha stays between 0.1 and 0.9 and the size between
    1 and 30; a value that is given is returned, whatever the number of
    samples. *)
Theorem scatter_style_monotone (n m : Z) :
  n <= m ->
  (_get_scatter_alpha Auto m ≤ _get_scatter_alpha Auto n)%Qc /\
  (Q2Qc (1 # 10) ≤ _get_scatter_alpha Auto n ≤ Q2Qc (9 # 10))%Qc /\
  _get_scatter_size Auto m <= _get_scatter_size Auto n /\
  1 <= _get_scatter_size Auto n <= 30 /\
  (forall a, _get_scatter_alpha (Given a) n = a) /\
  (forall s, _get_scatter_size (Given s) n = s).
Proof.
  intros Hnm. unfold _get_scatter_alpha, _get_scatter_size.
  split; [|split; [|split; [|split; [|split; reflexivity]]]].
  - destruct (Z.ltb_spec m 100), (Z.ltb_spec m 1000), (Z.ltb_spec m 10000),
      (Z.ltb_spec n 100), (Z.ltb_spec n 1000), (Z.ltb_spec n 10000);
      try lia; decide_closed.
  - destruct (Z.ltb_spec n 100), (Z.ltb_spec n 1000), (Z.ltb_spec n 10000);
      split; decide_closed.
  - destruct (Z.ltb_spec m 100), (Z.ltb_spec m 1000), (Z.ltb_spec m 2000),
      (Z.ltb_spec m 10000), (Z.ltb_spec n 100), (Z.ltb_spec n 1000),
      (Z.ltb_spec n 2000), (Z.ltb_spec n 10000); lia.
  - destruct (Z.ltb_spec n 100), (Z.ltb_spec n 1000), (Z.ltb_spec n 2000),
      (Z.ltb_spec n 10000); lia.
Qed.

Lemma scatter_style_monotone_witness :
  (_get_scatter_alpha Auto 5000 ≤ _get_scatter_alpha Auto 500)%Qc /\
  _get_scatter_size Auto 5000 <= _get_scatter_size Auto 500.
Proof.
  destruct (scatter_style_monotone 500 5000 ltac:(lia)) as (Ha & _ & Hs & _).
  auto.
Defined.


(** ** Outliers: degenerate series, limits and warnings *)

Lemma nth_all_equal {A} (l : list A) (v : A) (i : nat) :
  (forall x, x ∈ l -> x = v) -> nth i l v = v.
Proof.
  revert i. induction l as [|y l IH]; intros [|i] Hall; cbn; try reflexivity.
  - apply Hall. left.
  - apply IH. intros x Hx. apply Hall. now right.
Qed.

Lemma quantile_one_value (q : Qc) (s : list (option Qc)) (v : Qc) :
  (forall x, Some x ∈ s -> x = v) ->
  quantile q s = None \/ quantile q s = Some (flc v).
Proof.
  intros Hall. unfold quantile.
  assert (Hsorted : forall x, x ∈ merge_sort Qcle (dropna s) -> x = v).
  { intros x Hx. rewrite merge_sort_Permutation in Hx.
    now apply Hall, elem_of_dropna. }
  destruct (merge_sort Qcle (dropna s)) as [|a0 a] eqn:Ha; [now left|].
  assert (a0 = v) as -> by (apply Hsorted; left).
  cbv zeta. rewrite !nth_all_equal by exact Hsorted.
  match goal with
  | |- context [flc ?x] => replace x with v by ring
  end.
  destruct (too_large (flc v)); [now left|now right].
Qed.

Lemma _inlier_range_one_value (s : list (option Qc)) (v : Qc) :
  (forall x, Some x ∈ s -> x = v) -> _inlier_range s = Raise AssertionError.
Proof.
  intros Hall. unfold _inlier_range, nanquantile.
  destruct (quantile_one_value q01 s v Hall) as [-> | ->]; [reflexivity|].
  destruct (quantile_one_value q99 s v Hall) as [-> | ->]; [reflexivity|].
  cbn [double_of double_lt]. rewrite bool_decide_eq_false_2; [reflexivity|].
  apply Qcle_not_lt, Qcle_refl.
Qed.

(** X10. A series with a single distinct number, or with none, has no
    spread between its percentiles: [_inlier_range] stops at its assertion,
    and so do [_find_inliers] and the clipping of [discrete_scatter] when
    one of the two coordinates is such a series. *)
Theorem outlier_range_needs_spread (s : list (option Qc)) (v : Qc) :
  (forall x, Some x ∈ s -> x = v) ->
  _inlier_range s = Raise AssertionError /\
  _find_inliers s = Raise AssertionError /\
  (forall y xlims ylims,
     discrete_scatter_limits s y true xlims ylims = Raise AssertionError) /\
  (forall x x_low x_high xlims ylims,
     _inlier_range x = Ok (x_low, x_high) ->
     discrete_scatter_limits x s true xlims ylims = Raise AssertionError).
Proof.
  intros Hall. pose proof (_inlier_range_one_value s v Hall) as Hrange.
  split; [exact Hrange|]. split; [|split].
  - unfold _find_inliers. now rewrite Hrange.
  - intros y xlims ylims. unfold discrete_scatter_limits. now rewrite Hrange.
  - intros x x_low x_high xlims ylims Hx. unfold discrete_scatter_limits.
    rewrite Hx. cbn [mbind result_bind]. now rewrite Hrange.
Qed.

Lemma outlier_range_needs_spread_witness :
  _find_inliers [Some (Qc_of_Z 4); None; Some (Qc_of_Z 4)]
  = Raise AssertionError.
Proof.
  apply (outlier_range_needs_spread _ (Qc_of_Z 4)).
  intros x Hx.
  repeat (apply elem_of_cons in Hx as [Hx|Hx]; [congruence|]).
  now apply elem_of_nil in Hx.
Defined.

(** What [_inlier_range] returns lies around the two percentiles. *)
Lemma _inlier_range_Ok series lo hi :
  _inlier_range series = Ok (lo, hi) ->
  exists low high,
    nanquantile series q01 = Some low /\
    nanquantile series q99 = Some high /\
    (low < high)%Qc /\
    double_le lo (Fin low) = true /\ double_le (Fin high) hi = true.
Proof.
  unfold _inlier_range.
  destruct (nanquantile series q01) as [low|] eqn:Hlow; [|discriminate].
  destruct (nanquantile series q99) as [high|] eqn:Hhigh; [|discriminate].
  cbn [double_of double_lt].
  destruct (decide (low < high)%Qc) as [Hlt|Hnlt].
  - rewrite bool_decide_eq_true_2 by exact Hlt. cbn [negb].
    intros [= <- <-]. exists low, high.
    destruct (widen_floats low high (quantile_binary64 _ _ _ Hlow)
                (quantile_binary64 _ _ _ Hhigh) Hlt) as [H1 H2].
    auto.
  - rewrite bool_decide_eq_false_2 by exact Hnlt. discriminate.
Qed.

Lemma double_le_trans a b c :
  double_le a b = true -> double_le b c = true -> double_le a c = true.
Proof.
  destruct a as [| |a|], b as [| |b|], c as [| |c|]; cbn; try congruence.
  rewrite !bool_decide_eq_true. apply Qcle_trans.
Qed.

(** [max(lo, l)] for a lower end that is a float or minus infinity. *)
Lemma py_max_lower lo low (l : Qc) :
  double_le lo (Fin low) = true ->
  exists m, py_max lo (Fin l) = Fin m /\ (l ≤ m)%Qc /\ double_le lo (Fin m) = true.
Proof.
  intros Hlo. unfold py_max. destruct lo as [| |a|]; try discriminate; cbn.
  - exists l. split; [reflexivity|]. split; [apply Qcle_refl|reflexivity].
  - destruct (decide (a < l)%Qc) as [Hlt|Hnlt].
    + rewrite bool_decide_eq_true_2 by exact Hlt. exists l.
      split; [reflexivity|]. split; [apply Qcle_refl|].
      cbn. apply bool_decide_eq_true_2. now apply Qclt_le_weak.
    + rewrite bool_decide_eq_false_2 by exact Hnlt. exists a.
      split; [reflexivity|]. split; [now apply Qcnot_lt_le|].
      cbn. apply bool_decide_eq_true_2. apply Qcle_refl.
Qed.

(** [min(hi, h)] for an upper end that is a float or plus infinity. *)
Lemma py_min_upper hi high (h : Qc) :
  double_le (Fin high) hi = true ->
  exists m, py_min hi (Fin h) = Fin m /\ (m ≤ h)%Qc /\ double_le (Fin m) hi = true.
Proof.
  intros Hhi. unfold py_min. destruct hi as [| |a|]; try discriminate; cbn.
  - destruct (decide (h < a)%Qc) as [Hlt|Hnlt].
    + rewrite bool_decide_eq_true_2 by exact Hlt. exists h.
      split; [reflexivity|]. split; [apply Qcle_refl|].
      cbn. apply bool_decide_eq_true_2. now apply Qclt_le_weak.
    + rewrite bool_decide_eq_false_2 by exact Hnlt. exists a.
      split; [reflexivity|]. split; [now apply Qcnot_lt_le|].
      cbn. apply bool_decide_eq_true_2. apply Qcle_refl.
  - exists h. split; [reflexivity|]. split; [apply Qcle_refl|reflexivity].
Qed.

(** X11. Clipping never widens the view: when both coordinates have an
    inlier range, the limits [discrete_scatter] sets are floats that lie
    within the limits the axes had and within the inlier ranges; without
    [clip_outliers] the limits are left alone. *)
Theorem discrete_scatter_limits_within (x y : list (option Qc))
    (x_low x_high y_low y_high : double) (xlims ylims : Qc * Qc) :
  _inlier_range x = Ok (x_low, x_high) ->
  _inlier_range y = Ok (y_low, y_high) ->
  (exists xl xh yl yh,
     discrete_scatter_limits x y true xlims ylims
     = Ok ((Fin xl, Fin xh), (Fin yl, Fin yh)) /\
     (xlims.1 ≤ xl)%Qc /\ double_le x_low (Fin xl) = true /\
     (xh ≤ xlims.2)%Qc /\ double_le (Fin xh) x_high = true /\
     (ylims.1 ≤ yl)%Qc /\ double_le y_low (Fin yl) = true /\
     (yh ≤ ylims.2)%Qc /\ double_le (Fin yh) y_high = true) /\
  discrete_scatter_limits x y false xlims ylims
  = Ok ((Fin xlims.1, Fin xlims.2), (Fin ylims.1, Fin ylims.2)).
Proof.
  intros Hx Hy. split; [|reflexivity].
  unfold discrete_scatter_limits. rewrite Hx. cbn [mbind result_bind].
  rewrite Hy. cbn [mbind result_bind].
  destruct (_inlier_range_Ok x _ _ Hx) as (xq1 & xq99 & _ & _ & _ & Hxl & Hxh).
  destruct (_inlier_range_Ok y _ _ Hy) as (yq1 & yq99 & _ & _ & _ & Hyl & Hyh).
  destruct (py_max_lower x_low xq1 xlims.1 Hxl) as (xl & -> & ? & ?).
  destruct (py_min_upper x_high xq99 xlims.2 Hxh) as (xh & -> & ? & ?).
  destruct (py_max_lower y_low yq1 ylims.1 Hyl) as (yl & -> & ? & ?).
  destruct (py_min_upper y_high yq99 ylims.2 Hyh) as (yh & -> & ? & ?).
  exists xl, xh, yl, yh. repeat split; assumption.
Qed.

Lemma discrete_scatter_limits_within_witness :
  exists xl xh yl yh,
    discrete_scatter_limits
      [Some (Qc_of_Z 0); Some (Qc_of_Z 100)] [Some (Qc_of_Z 0); Some (Qc_of_Z 100)]
      true (Qc_of_Z (-5), Qc_of_Z 105) (Qc_of_Z (-500), Qc_of_Z 500)
    = Ok ((Fin xl, Fin xh), (Fin yl, Fin yh)) /\
    (Qc_of_Z (-5) ≤ xl)%Qc /\ double_le (Fin yh) (Fin (Qc_of_Z 148)) = true.
Proof.
  destruct (discrete_scatter_limits_within
              [Some (Qc_of_Z 0); Some (Qc_of_Z 100)]
              [Some (Qc_of_Z 0); Some (Qc_of_Z 100)]
              (Fin (Qc_of_Z (-48))) (Fin (Qc_of_Z 148))
              (Fin (Qc_of_Z (-48))) (Fin (Qc_of_Z 148))
              (Qc_of_Z (-5), Qc_of_Z 105) (Qc_of_Z (-500), Qc_of_Z 500))
    as [(xl & xh & yl & yh & Hrun & Hxl & _ & _ & _ & _ & _ & _ & Hyh) _];
    [decide_closed|decide_closed|].
  exists xl, xh, yl, yh. auto.
Defined.

Lemma count_false_zero (mask : list bool) :
  count_false mask = 0 <-> Forall (fun b => b = true) mask.
Proof.
  split.
  - intros H. apply mask_sum_all. rewrite count_false_dropped. lia.
  - intros Hall. unfold count_false.
    induction Hall as [|b mask -> _ IH]; [reflexivity|].
    now rewrite filter_cons_False by discriminate.
Qed.

Lemma count_false_nonneg (mask : list bool) : 0 <= count_false mask.
Proof. unfold count_false. lia. Qed.

(** X12. An entry that lies between the 1st and the 99th percentile of its
    series, the percentiles included, is never an outlier for
    [_find_inliers]. *)
Theorem _find_inliers_keeps_percentile_band (series : list (option Qc))
    (low high : Qc) :
  nanquantile series q01 = Some low ->
  nanquantile series q99 = Some high ->
  (low < high)%Qc ->
  exists mask w,
    _find_inliers series = Ok (mask, w) /\
    forall i v, series !! i = Some (Some v) -> (low ≤ v ≤ high)%Qc ->
      mask !! i = Some true.
Proof.
  intros Hlow Hhigh Hlt.
  set (inner_range := double_half (double_sub (Fin high) (Fin low))).
  assert (Hrange : _inlier_range series
    = Ok (double_sub (Fin low) inner_range, double_add (Fin high) inner_range)).
  { unfold _inlier_range. rewrite Hlow, Hhigh. cbn [double_of double_lt].
    now rewrite bool_decide_eq_true_2 by exact Hlt. }
  destruct (widen_floats low high (quantile_binary64 _ _ _ Hlow)
              (quantile_binary64 _ _ _ Hhigh) Hlt) as [Hbelow Habove].
  fold inner_range in Hbelow, Habove.
  destruct (_find_inliers_mask series _ _ Hrange) as [w Hrun].
  eexists _, w. split; [exact Hrun|].
  intros i v Hv [Hlo Hhi]. rewrite list_lookup_fmap, Hv. cbn [fmap option_fmap option_map isna].
  f_equal. rewrite orb_false_r. unfold between. cbn [double_of].
  apply andb_true_iff. split.
  - apply (double_le_trans _ (Fin low)); [exact Hbelow|].
    cbn. now apply bool_decide_eq_true_2.
  - apply (double_le_trans _ (Fin high)); [|exact Habove].
    cbn. now apply bool_decide_eq_true_2.
Qed.

Lemma _find_inliers_keeps_percentile_band_witness :
  exists mask w,
    _find_inliers [Some (Qc_of_Z 0); Some (Qc_of_Z 50); Some (Qc_of_Z 100)]
      = Ok (mask, w) /\
    mask !! 1%nat = Some true.
Proof.
  destruct (_find_inliers_keeps_percentile_band
              [Some (Qc_of_Z 0); Some (Qc_of_Z 50); Some (Qc_of_Z 100)]
              (Qc_of_Z 1) (Qc_of_Z 99))
    as (mask & w & Hrun & Hband); [decide_closed|decide_closed|decide_closed|].
  exists mask, w. split; [exact Hrun|].
  apply (Hband 1%nat (Qc_of_Z 50)); [reflexivity|]. split; decide_closed.
Defined.

(** X13. The warning of [_find_inliers] is advisory and exact: whenever
    [_inlier_range] returns, [_find_inliers] returns a mask as long as the
    series; it warns exactly when the mask marks some entry [False], once,
    with the number of those entries. *)
Theorem _find_inliers_warning (series : list (option Qc)) (low high : double) :
  _inlier_range series = Ok (low, high) ->
  exists mask w,
    _find_inliers series = Ok (mask, w) /\
    length mask = length series /\
    ((w = [] /\ Forall (fun b => b = true) mask) \/
     (w = [UserWarning (count_false mask)] /\ 0 < count_false mask)).
Proof.
  intros Hrange. unfold _find_inliers. rewrite Hrange. cbn [mbind result_bind].
  rewrite zip_with_fmap_l, zip_with_fmap_r, zip_with_diag.
  set (mask := (fun x => _) <$> series).
  rewrite count_false_dropped.
  destruct (Z.ltb_spec 0 (count_false mask)) as [Hpos|Hzero].
  - eexists _, _. split; [reflexivity|]. split; [apply length_fmap|].
    right. auto.
  - eexists _, _. split; [reflexivity|]. split; [apply length_fmap|].
    left. split; [reflexivity|]. apply count_false_zero.
    pose proof (count_false_nonneg mask). lia.
Qed.

Lemma _find_inliers_warning_witness :
  exists mask w,
    _find_inliers (Some (Qc_of_Z 1000) :: replicate 200 (Some (Qc_of_Z 0))
                   ++ replicate 200 (Some (Qc_of_Z 1)))
      = Ok (mask, w) /\
    length mask = 401%nat.
Proof.
  destruct (_find_inliers_warning
              (Some (Qc_of_Z 1000) :: replicate 200 (Some (Qc_of_Z 0))
               ++ replicate 200 (Some (Qc_of_Z 1)))
              (Fin (Q2Qc (-1 # 2))) (Fin (Q2Qc (3 # 2))))
    as (mask & w & Hrun & Hlen & _); [decide_closed|].
  exists mask, w. split; [exact Hrun|]. rewrite Hlen. reflexivity.
Defined.





(** ** Category pruning: failure and result *)

(** X15. On a well-formed series [_prune_categories] has one failure: the
    [ValueError] of [add_categories], raised exactly when 'dabl_other' is
    already one of the categories that are kept. *)
Theorem _prune_categories_failure (series : Series) (K : Z) :
  wf_series series ->
  match _prune_categories series K with
  | Raise e =>
      e = ValueError NewCategoriesIncludeOld /\ dabl_other ∈ kept_by series K
  | Ok _ => dabl_other ∉ kept_by series K
  end.
Proof.
  intros Hwf. rewrite (_prune_categories_run series K Hwf).
  fold (kept_by series K).
  destruct (decide (dabl_other ∈ kept_by series K)); auto.
Qed.

Lemma _prune_categories_failure_witness :
  dabl_other ∈ kept_by
    (mkSeries object [Some (Str "dabl_other"); Some (Str "a"); Some (Str "a")]) 5.
Proof.
  pose proof (_prune_categories_failure
    (mkSeries object [Some (Str "dabl_other"); Some (Str "a"); Some (Str "a")])
    5 I) as H.
  destruct (_prune_categories _ 5) as [res|e]; [|exact (proj2 H)].
  exfalso. apply H. decide_closed.
Defined.


(** X16. What [_prune_categories] returns is a well-formed categorical
    without missing entries, whatever the sign of [K]: its categories are
    distinct, they are 'dabl_other' and the categories kept, which are the
    most frequent ones, as many as come before the slice
    [value_counts()[K:]]; and every entry is one of them.  Which of several
    equally frequent categories are kept is left open. *)
Theorem _prune_categories_result (series res : Series) (K : Z) :
  wf_series series ->
  _prune_categories series K = Ok res ->
  exists kept,
    most_frequent series
      (slice_start K (length (categories (astype_category series)))) kept /\
    wf_series res /\
    (None ∉ values res) /\
    length (values res) = length (values series) /\
    forall c, c ∈ categories res <-> c ∈ kept \/ c = dabl_other.
Proof.
  intros Hwf Hrun.
  rewrite (_prune_categories_run series K Hwf) in Hrun.
  pose proof (kept_most_frequent series K Hwf) as Hmost.
  destruct (kept_small_split series K Hwf)
    as (cats & Has & Hnd & Hall & Hsplit & Hdisj).
  assert (Hc : categories (astype_category series) = cats) by now rewrite Has.
  rewrite Hc in Hrun. clear Hc Has.
  set (counts := value_counts (astype_category series)) in *.
  set (d := slice_start K (length counts)) in *.
  change ((take d counts).*1) with (kept_by series K) in *.
  set (small := (drop d counts).*1) in *.
  exists (kept_by series K). split; [exact Hmost|].
  destruct (decide (dabl_other ∈ kept_by series K)) as [|Hclash];
    [discriminate|]. injection Hrun as <-.
  cbn [categories dtype_of values].
  assert (Hcats : forall c,
    c ∈ filter (fun c => c ∉ small) cats ++ [dabl_other]
    <-> c ∈ kept_by series K \/ c = dabl_other).
  { intros c.
    rewrite elem_of_app, list_elem_of_filter, Hsplit, list_elem_of_singleton.
    specialize (Hdisj c). tauto. }
  split; [|split; [|split]].
  - unfold wf_series. cbn [dtype_of values]. split.
    + apply NoDup_app. split; [now apply NoDup_filter|]. split.
      * intros c Hc Hin. apply list_elem_of_singleton in Hin as ->.
        apply Hclash. apply list_elem_of_filter in Hc as [Hn Hc].
        apply Hsplit in Hc. tauto.
      * apply NoDup_singleton.
    + intros v Hv. apply list_elem_of_fmap in Hv as (x & [= ->] & _).
      apply Hcats. destruct x as [v'|]; [|now right].
      destruct (decide (v' ∈ kept_by series K)); [now left|now right].
  - intros (x & Hx & _)%list_elem_of_fmap. discriminate.
  - apply length_fmap.
  - exact Hcats.
Qed.

Lemma _prune_categories_result_witness :
  exists res,
    _prune_categories
      (mkSeries object [Some (Str "b"); None; Some (Str "b"); Some (Str "c")]) 1
    = Ok res /\ wf_series res /\ None ∉ values res.
Proof.
  eexists. split; [vm_compute; reflexivity|].
  destruct (_prune_categories_result
    (mkSeries object [Some (Str "b"); None; Some (Str "b"); Some (Str "c")])
    _ 1 I ltac:(vm_compute; reflexivity)) as (kept & _ & Hwf & Hnone & _).
  auto.
Defined.

(** ** Filling twice, and frames without missing entries *)

Lemma filled_dtype max_value s : dtype_of (filled max_value s) = dtype_of s.
Proof. unfold filled. now destruct (fill_value _ _). Qed.

Lemma filled_no_missing max_value s : None ∉ values s -> filled max_value s = s.
Proof.
  intros Hnone. unfold filled.
  destruct (fill_value max_value (dtype_of s)) as [v|]; [|reflexivity].
  destruct s as [dt vals]. cbn in *. f_equal.
  induction vals as [|[x|] vals IH]; [reflexivity| |].
  - cbn. f_equal. apply IH. intros Hin. apply Hnone. now right.
  - exfalso. apply Hnone. left.
Qed.

Lemma filled_full max_value s :
  fill_value max_value (dtype_of s) <> None -> None ∉ values (filled max_value s).
Proof.
  intros Hv. unfold filled.
  destruct (fill_value max_value (dtype_of s)) as [v|]; [|contradiction].
  cbn. intros (x & Hx & _)%list_elem_of_fmap. discriminate.
Qed.

Lemma DataFrame_max_numeric_only_filled (df : list (string * Series)) :
  DataFrame_max_numeric_only ((fun cs => (cs.1, filled None cs.2)) <$> df)
  = DataFrame_max_numeric_only df.
Proof.
  unfold DataFrame_max_numeric_only.
  induction df as [|[c s] df IH]; [reflexivity|].
  cbn [fmap list_fmap fst snd]. rewrite !filter_cons. cbn [fst snd].
  rewrite filled_dtype.
  destruct (decide (dtype_of s = float64)) as [Hdt|Hdt]; [|exact IH].
  cbn [fmap list_fmap fst snd]. f_equal; [|exact IH].
  unfold filled, fill_value. rewrite Hdt. reflexivity.
Qed.

Lemma filled_twice (df : list (string * Series)) :
  (forall c s, (c, s) ∈ df -> dtype_of s = object \/ dtype_of s = float64) ->
  let df' := (fun cs => (cs.1, filled (nanmax (DataFrame_max_numeric_only df)) cs.2))
               <$> df in
  (fun cs => (cs.1, filled (nanmax (DataFrame_max_numeric_only df')) cs.2)) <$> df'
  = df'.
Proof.
  intros Hdt df'. subst df'.
  destruct (nanmax (DataFrame_max_numeric_only df)) as [m|] eqn:Hmv.
  - rewrite <- list_fmap_compose. apply list_fmap_ext. intros i [c s] Hi.
    cbn. f_equal. apply filled_no_missing, filled_full.
    apply list_elem_of_lookup_2 in Hi.
    unfold fill_value. destruct (decide (dtype_of s = object)); discriminate.
  - rewrite DataFrame_max_numeric_only_filled, Hmv.
    rewrite <- list_fmap_compose. apply list_fmap_ext. intros i [c s] Hi.
    cbn. f_equal. apply list_elem_of_lookup_2 in Hi.
    destruct (Hdt c s Hi) as [Hobj|Hnum].
    + apply filled_no_missing, filled_full. unfold fill_value.
      now rewrite decide_True.
    + unfold filled at 1. rewrite filled_dtype. unfold fill_value.
      now rewrite Hnum.
Qed.

(** X17. [_fill_missing_categorical] is idempotent: filling the frame it
    returned gives a third frame equal to the second, and the two earlier
    frames are still in the store as they were. *)
Theorem _fill_missing_categorical_idempotent
    (h : gmap nat (list (string * Series))) (X : nat)
    (df : list (string * Series)) :
  h !! X = Some df ->
  NoDup df.*1 ->
  (forall c s, (c, s) ∈ df -> dtype_of s = object \/ dtype_of s = float64) ->
  exists X1 X2 df1 h1 h2,
    _fill_missing_categorical X h = (Ok X1, h1) /\
    _fill_missing_categorical X1 h1 = (Ok X2, h2) /\
    X1 <> X /\ X2 <> X /\ X2 <> X1 /\
    h2 !! X = Some df /\ h2 !! X1 = Some df1 /\ h2 !! X2 = Some df1.
Proof.
  intros HX Hnd Hdt.
  set (df1 := (fun cs => (cs.1,
          filled (nanmax (DataFrame_max_numeric_only df)) cs.2)) <$> df).
  set (X1 := fresh (dom h)). set (h1 := <[X1 := df1]> h).
  set (X2 := fresh (dom h1)).
  assert (HX1 : h1 !! X1 = Some df1) by apply lookup_insert_eq.
  assert (Hnames : df1.*1 = df.*1).
  { unfold df1. rewrite <- list_fmap_compose. now apply list_fmap_ext. }
  assert (Hdt1 : forall c s, (c, s) ∈ df1 ->
            dtype_of s = object \/ dtype_of s = float64).
  { intros c s ([c0 s0] & [= -> ->] & Hin)%list_elem_of_fmap.
    rewrite filled_dtype. now apply (Hdt c0 s0). }
  assert (Hne1 : X1 <> X).
  { intros Heq. pose proof (fresh_not_bound h) as Hf. fold X1 in Hf.
    rewrite Heq in Hf. congruence. }
  assert (Hne2 : X2 <> X1).
  { intros Heq. pose proof (fresh_not_bound h1) as Hf. fold X2 in Hf.
    rewrite Heq in Hf. congruence. }
  assert (Hne3 : X2 <> X).
  { intros Heq. pose proof (fresh_not_bound h1) as Hf. fold X2 in Hf.
    rewrite Heq in Hf. unfold h1 in Hf.
    rewrite lookup_insert_ne in Hf by exact Hne1. congruence. }
  exists X1, X2, df1, h1, (<[X2 := df1]> h1).
  split; [exact (_fill_missing_categorical_run X h df HX Hnd Hdt)|].
  split.
  { rewrite (_fill_missing_categorical_run X1 h1 df1 HX1); [|congruence|exact Hdt1].
    fold X2. f_equal. f_equal. apply (filled_twice df Hdt). }
  split; [exact Hne1|]. split; [exact Hne3|]. split; [exact Hne2|].
  split; [|split].
  - rewrite lookup_insert_ne by congruence. unfold h1.
    rewrite lookup_insert_ne by exact Hne1. exact HX.
  - rewrite lookup_insert_ne by congruence. exact HX1.
  - apply lookup_insert_eq.
Qed.

Lemma _fill_missing_categorical_idempotent_witness :
  let h : gmap nat (list (string * Series)) :=
    {[ 0%nat := [("a"%string, mkSeries object [Some (Str "x"); None]);
                 ("n"%string, mkSeries float64 [None; None])] ]} in
  exists X1 X2 df1 h1 h2,
    _fill_missing_categorical 0 h = (Ok X1, h1) /\
    _fill_missing_categorical X1 h1 = (Ok X2, h2) /\
    h2 !! X1 = Some df1 /\ h2 !! X2 = Some df1.
Proof.
  intros h.
  destruct (_fill_missing_categorical_idempotent h 0
    [("a"%string, mkSeries object [Some (Str "x"); None]);
     ("n"%string, mkSeries float64 [None; None])])
    as (X1 & X2 & df1 & h1 & h2 & Hr1 & Hr2 & _ & _ & _ & _ & H1 & H2).
  - reflexivity.
  - apply (bool_decide_eq_true_1 (NoDup _)). reflexivity.
  - intros c s Hin.
    repeat (apply elem_of_cons in Hin as [[= -> ->]|Hin]; [cbn; auto|]).
    now apply elem_of_nil in Hin.
  - exists X1, X2, df1, h1, h2. auto.
Defined.

(** X18. A frame without missing entries is returned as an equal copy. *)
Theorem _fill_missing_categorical_complete_frame
    (h : gmap nat (list (string * Series))) (X : nat)
    (df : list (string * Series)) :
  h !! X = Some df ->
  NoDup df.*1 ->
  (forall c s, (c, s) ∈ df -> dtype_of s = object \/ dtype_of s = float64) ->
  (forall c s, (c, s) ∈ df -> None ∉ values s) ->
  exists X',
    _fill_missing_categorical X h = (Ok X', <[X' := df]> h) /\
    X' <> X /\ h !! X' = None.
Proof.
  intros HX Hnd Hdt Hfull. exists (fresh (dom h)).
  pose proof (fresh_not_bound h) as Hfresh.
  split; [|split; [congruence|exact Hfresh]].
  rewrite (_fill_missing_categorical_run X h df HX Hnd Hdt).
  f_equal. f_equal. etransitivity; [|apply list_fmap_id].
  apply list_fmap_ext. intros i [c s] Hi. cbn. f_equal.
  apply filled_no_missing. apply (Hfull c s).
  eapply list_elem_of_lookup_2; eauto.
Qed.

Lemma _fill_missing_categorical_complete_frame_witness :
  let df := [("a"%string, mkSeries object [Some (Str "x"); Some (Str "y")]);
             ("n"%string, mkSeries float64 [Some (Num (Qc_of_Z 1)); Some (Num (Qc_of_Z 2))])] in
  let h : gmap nat (list (string * Series)) := {[ 0%nat := df ]} in
  exists X', _fill_missing_categorical 0 h = (Ok X', <[X' := df]> h) /\ X' <> 0%nat.
Proof.
  intros df h.
  destruct (_fill_missing_categorical_complete_frame h 0 df)
    as (X' & Hrun & Hne & _).
  - reflexivity.
  - apply (bool_decide_eq_true_1 (NoDup _)). reflexivity.
  - intros c s Hin.
    repeat (apply elem_of_cons in Hin as [[= -> ->]|Hin]; [cbn; auto|]).
    now apply elem_of_nil in Hin.
  - intros c s Hin.
    repeat (apply elem_of_cons in Hin as [[= -> ->]|Hin];
            [cbn; apply (bool_decide_eq_true_1 (_ ∉ _)); reflexivity|]).
    now apply elem_of_nil in Hin.
  - exists X'. auto.
Defined.

(** ** The numeric marker *)

Lemma table_max_exists (df : list (string * Series)) :
  (exists c s x, (c, s) ∈ df /\ dtype_of s = float64 /\ Some (Num x) ∈ values s) ->
  exists m, nanmax (DataFrame_max_numeric_only df) = Some m.
Proof.
  intros (c & s & x & Hin & Hdt & Hx).
  destruct (nanmax (DataFrame_max_numeric_only df)) as [m|] eqn:Hmv;
    [now exists m|exfalso].
  apply (nanmax_None _ Hmv (default (Qc_of_Z 0) (nanmax (number <$> values s)))).
  unfold DataFrame_max_numeric_only. apply list_elem_of_fmap.
  exists (c, s). cbn. split; [|apply list_elem_of_filter; auto].
  destruct (nanmax (number <$> values s)) eqn:Hs; [reflexivity|].
  exfalso. apply (nanmax_None _ Hs x). now apply elem_of_number.
Qed.

(** Below [2 ^ 53] the floats are no further apart than one: a number plus
    one is rounded to a float above the number. *)
Lemma float_add_succ (m : Qc) :
  (Qc_of_Z (- 2 ^ 53) ≤ m)%Qc -> (m < Qc_of_Z (2 ^ 53))%Qc ->
  (m < float_add m (Qc_of_Z 1))%Qc.
Proof.
  intros Hlow Hhigh. unfold Qcle, Qclt in *.
  change (this (Qc_of_Z (- 2 ^ 53))) with (inject_Z (- 2 ^ 53)) in Hlow.
  change (this (Qc_of_Z (2 ^ 53))) with (inject_Z (2 ^ 53)) in Hhigh.
  pose proof (Qfloor_le m) as Hfloor. pose proof (Qlt_floor m) as Hceil.
  set (k := Qfloor m) in *.
  assert (Hk : - 2 ^ 53 <= k < 2 ^ 53).
  { split.
    - apply Qfloor_resp_le in Hlow. now rewrite Qfloor_Z in Hlow.
    - rewrite Zlt_Qlt. lra. }
  rewrite inject_Z_plus in Hceil. change (inject_Z 1) with 1%Q in Hceil.
  assert (H1 : (inject_Z k <= fl m)%Q).
  { apply fl_ge_float; [apply is_float_Z; lia|exact Hfloor]. }
  assert (Hone : (fl 1 == 1)%Q) by (apply (fl_Z 1); lia).
  assert (H2 : (inject_Z (k + 1) <= fl (fl m + fl 1))%Q).
  { apply fl_ge_float; [apply is_float_Z; lia|].
    rewrite inject_Z_plus, Hone. change (inject_Z 1) with 1%Q. lra. }
  rewrite inject_Z_plus in H2. change (inject_Z 1) with 1%Q in H2.
  unfold float_add, flc, Qcplus. rewrite this_Q2Qc.
  assert (Heq : (fl (Qred (Q2Qc (fl m) + Q2Qc (fl (Qc_of_Z 1))))
                 == fl (fl m + fl 1))%Q).
  { apply fl_comp. rewrite Qred_correct, !this_Q2Qc. reflexivity. }
  change (this (Q2Qc (Qred (Q2Qc (fl m) + Q2Qc (fl (Qc_of_Z 1))))))
    with (Qred (Q2Qc (fl m) + Q2Qc (fl (Qc_of_Z 1)))).
  rewrite Heq. lra.
Qed.

(** X19. When some numeric column holds a number and the numbers of the
    numeric columns are at least [- 2 ^ 53] and less than [2 ^ 53], the
    value that fills the numeric columns, the float that the largest
    number plus one rounds to, is larger than every number in them, so
    that in the frame returned the marker stands exactly where an entry of
    a numeric column was missing. *)
Theorem _fill_missing_categorical_marker
    (h : gmap nat (list (string * Series))) (X : nat)
    (df : list (string * Series)) :
  h !! X = Some df ->
  NoDup df.*1 ->
  (forall c s, (c, s) ∈ df -> dtype_of s = object \/ dtype_of s = float64) ->
  (exists c s x, (c, s) ∈ df /\ dtype_of s = float64 /\ Some (Num x) ∈ values s) ->
  (forall c s x, (c, s) ∈ df -> dtype_of s = float64 ->
     Some (Num x) ∈ values s ->
     (Qc_of_Z (- 2 ^ 53) ≤ x)%Qc /\ (x < Qc_of_Z (2 ^ 53))%Qc) ->
  exists X' df' m,
    _fill_missing_categorical X h = (Ok X', <[X' := df']> h) /\
    table_max df m /\
    forall j c s, df !! j = Some (c, s) -> dtype_of s = float64 ->
      (forall x, Some (Num x) ∈ values s ->
         (x < float_add m (Qc_of_Z 1))%Qc) /\
      exists s', df' !! j = Some (c, s') /\
        forall i, values s' !! i = Some (Some (Num (float_add m (Qc_of_Z 1))))
                  <-> values s !! i = Some None.
Proof.
  intros HX Hnd Hdt Hnum Hsmall.
  destruct (table_max_exists df Hnum) as (m & Hmv).
  pose proof (table_max_spec df m Hmv) as Hmax.
  assert (Hsucc : (m < float_add m (Qc_of_Z 1))%Qc).
  { destruct Hmax as [(c & s & Hin & Hfloat & Hm) _].
    destruct (Hsmall c s m Hin Hfloat Hm). now apply float_add_succ. }
  eexists _, _, m.
  split; [exact (_fill_missing_categorical_run X h df HX Hnd Hdt)|].
  split; [exact Hmax|].
  intros j c s Hj Hfloat.
  assert (Hlt : forall x, Some (Num x) ∈ values s ->
            (x < float_add m (Qc_of_Z 1))%Qc).
  { intros x Hx. eapply Qcle_lt_trans; [|exact Hsucc].
    apply (proj2 Hmax c s x); auto. eapply list_elem_of_lookup_2; eauto. }
  split; [exact Hlt|].
  exists (filled (Some m) s). rewrite list_lookup_fmap, Hj, Hmv.
  split; [reflexivity|].
  intros i. unfold filled, fill_value. rewrite Hfloat.
  rewrite decide_False by discriminate.
  change (Num <$> nan_lift2 float_add (Some m) (Some (Qc_of_Z 1)))
    with (Some (Num (float_add m (Qc_of_Z 1)))).
  cbn [values]. rewrite list_lookup_fmap.
  destruct (values s !! i) as [[v|]|] eqn:Hi; cbn.
  - split; [|discriminate]. intros [= ->]. exfalso.
    apply (Qclt_not_le _ _ (Hlt (float_add m (Qc_of_Z 1))
             ltac:(eapply list_elem_of_lookup_2; eauto))).
    apply Qcle_refl.
  - tauto.
  - split; discriminate.
Qed.

Lemma _fill_missing_categorical_marker_witness :
  let h : gmap nat (list (string * Series)) :=
    {[ 0%nat := [("a"%string, mkSeries object [Some (Str "x"); None]);
                 ("n"%string, mkSeries float64 [Some (Num (Qc_of_Z 1)); None])] ]} in
  exists X' df' m,
    _fill_missing_categorical 0 h = (Ok X', <[X' := df']> h) /\
    exists s', df' !! 1%nat = Some ("n"%string, s') /\
      values s' !! 1%nat = Some (Some (Num (float_add m (Qc_of_Z 1)))).
Proof.
  intros h.
  destruct (_fill_missing_categorical_marker h 0
    [("a"%string, mkSeries object [Some (Str "x"); None]);
     ("n"%string, mkSeries float64 [Some (Num (Qc_of_Z 1)); None])])
    as (X' & df' & m & Hrun & _ & Hcols).
  - reflexivity.
  - apply (bool_decide_eq_true_1 (NoDup _)). reflexivity.
  - intros c s Hin.
    repeat (apply elem_of_cons in Hin as [[= -> ->]|Hin]; [cbn; auto|]).
    now apply elem_of_nil in Hin.
  - exists "n"%string, (mkSeries float64 [Some (Num (Qc_of_Z 1)); None]),
      (Qc_of_Z 1).
    split; [right; left|]. split; [reflexivity|left].
  - intros c s x Hin Hfloat Hx.
    repeat (apply elem_of_cons in Hin as [[= -> ->]|Hin]; [|]);
      [discriminate| |now apply elem_of_nil in Hin].
    cbn in Hx.
    apply elem_of_cons in Hx as [[= ->]|Hx]; [split; decide_closed|].
    apply elem_of_cons in Hx as [[=]|Hx]. now apply elem_of_nil in Hx.
  - exists X', df', m. split; [exact Hrun|].
    destruct (Hcols 1%nat "n"%string
                (mkSeries float64 [Some (Num (Qc_of_Z 1)); None])
                eq_refl eq_refl) as (_ & s' & Hs' & Hiff).
    exists s'. split; [exact Hs'|]. now apply Hiff.
Defined.

(** ** _prune_category_make_X: failures and the unused target *)

(** X20. When [_prune_category_make_X] fails on a frame of the store, the
    store is left exactly as it was, no frame allocated, and the failure is
    one of three: [col] is not a column ([KeyError]); the pruning raised;
    or the column was pruned and [target_col] is not a column
    ([KeyError]).  The branch that prunes nothing never fails. *)
Theorem _prune_category_make_X_failure (X : nat) (col target_col : string)
    (max_categories : Z) (h h' : gmap nat (list (string * Series)))
    (df : list (string * Series)) (e : exn) :
  h !! X = Some df ->
  _prune_category_make_X X col target_col max_categories h = (Raise e, h') ->
  h' = h /\
  ((frame_lookup df col = None /\ e = KeyError) \/
   exists cvals,
     frame_lookup df col = Some cvals /\
     max_categories < nunique cvals /\
     (_prune_categories cvals (Z.min 10 max_categories) = Raise e \/
      (exists pruned,
         _prune_categories cvals (Z.min 10 max_categories) = Ok pruned) /\
      frame_lookup df target_col = None /\ e = KeyError)).
Proof.
  intros HX Hrun.
  destruct (frame_lookup df col) as [cvals|] eqn:Hcol.
  - destruct (Z.lt_ge_cases max_categories (nunique cvals)) as [Hlt|Hge].
    + destruct (_prune_categories cvals (Z.min 10 max_categories))
        as [pruned|e'] eqn:Hpruned.
      * destruct (frame_lookup df target_col) as [tcol|] eqn:Htarget.
        { rewrite (_prune_category_make_X_run_pruned X col target_col
                     max_categories h df cvals tcol pruned HX Hcol Htarget Hlt
                     Hpruned) in Hrun. discriminate. }
        unfold _prune_category_make_X in Hrun.
        unfold mbind at 1, St_bind at 1 in Hrun.
        rewrite (DataFrame_getitem_run X col h df cvals HX Hcol) in Hrun.
        destruct (Z.ltb_spec max_categories (nunique cvals)); [|lia].
        rewrite Hpruned in Hrun.
        unfold lift, mbind at 1, St_bind at 1 in Hrun.
        unfold mbind at 1, St_bind at 1, DataFrame_select in Hrun.
        unfold mbind at 1 2, St_bind, St_load, lift in Hrun.
        rewrite HX in Hrun. cbn [traverse mbind result_bind] in Hrun.
        unfold getitem in Hrun. rewrite Htarget in Hrun.
        cbn [mbind result_bind] in Hrun. injection Hrun as <- <-.
        split; [reflexivity|]. right. exists cvals. eauto 10.
      * unfold _prune_category_make_X in Hrun.
        unfold mbind at 1, St_bind at 1 in Hrun.
        rewrite (DataFrame_getitem_run X col h df cvals HX Hcol) in Hrun.
        destruct (Z.ltb_spec max_categories (nunique cvals)); [|lia].
        rewrite Hpruned in Hrun.
        unfold lift, mbind at 1, St_bind at 1 in Hrun.
        injection Hrun as <- <-.
        split; [reflexivity|]. right. exists cvals. auto.
    + rewrite (_prune_category_make_X_run_kept X col target_col max_categories
                 h df cvals HX Hcol Hge) in Hrun. discriminate.
  - unfold _prune_category_make_X in Hrun.
    unfold mbind at 1, St_bind at 1, DataFrame_getitem in Hrun.
    unfold mbind at 1, St_bind at 1, St_load, lift, getitem in Hrun.
    rewrite HX, Hcol in Hrun. injection Hrun as <- <-. auto.
Qed.

Lemma _prune_category_make_X_failure_witness :
  let c := mkSeries object [Some (Str "x"); Some (Str "y"); Some (Str "z")] in
  let h : gmap nat (list (string * Series)) := {[ 0%nat := [("c"%string, c)] ]} in
  _prune_category_make_X 0 "c" "y" 1 h = (Raise KeyError, h) /\
  frame_lookup [("c"%string, c)] "y" = None.
Proof.
  intros c h.
  assert (Hrun : _prune_category_make_X 0 "c" "y" 1 h = (Raise KeyError, h))
    by (vm_compute; reflexivity).
  split; [exact Hrun|].
  destruct (_prune_category_make_X_failure 0 "c" "y" 1 h h [("c"%string, c)]
              KeyError eq_refl Hrun)
    as (_ & [[Hcol _]|(cvals & _ & _ & [Hp|(_ & Ht & _)])]).
  - discriminate Hcol.
  - reflexivity.
  - exact Ht.
Defined.

(** X21. When [col] has at most [max_categories] distinct values,
    [target_col] is never read: the call succeeds with the same frame
    whatever [target_col] is, a column of [X] or not. *)
Theorem _prune_category_make_X_target_unused (X : nat)
    (col target_col target_col' : string) (max_categories : Z)
    (h : gmap nat (list (string * Series))) (df : list (string * Series))
    (cvals : Series) :
  h !! X = Some df ->
  frame_lookup df col = Some cvals ->
  nunique cvals <= max_categories ->
  _prune_category_make_X X col target_col max_categories h
  = _prune_category_make_X X col target_col' max_categories h /\
  exists X_new,
    (_prune_category_make_X X col target_col max_categories h).1 = Ok X_new.
Proof.
  intros HX Hcol Hge.
  rewrite !(_prune_category_make_X_run_kept X col _ max_categories h df cvals
              HX Hcol Hge).
  split; [reflexivity|]. eexists. reflexivity.
Qed.

Lemma _prune_category_make_X_target_unused_witness :
  let c := mkSeries object [Some (Str "x"); Some (Str "y"); Some (Str "x")] in
  let h : gmap nat (list (string * Series)) := {[ 0%nat := [("c"%string, c)] ]} in
  _prune_category_make_X 0 "c" "no such column" 2 h
  = _prune_category_make_X 0 "c" "c" 2 h.
Proof.
  intros c h.
  apply (_prune_category_make_X_target_unused 0 "c" "no such column" "c" 2 h
           [("c"%string, c)] c eq_refl eq_refl).
  vm_compute. discriminate.
Defined.

(** ** _check_X_target_col: acceptance and the order of the checks *)

Lemma column_getitem X col : col ∈ X.*1 -> exists s, getitem X col = Ok s.
Proof.
  unfold getitem. induction X as [|[c s] X IH]; intros Hin.
  - now apply elem_of_nil in Hin.
  - cbn in *. destruct (decide (c = col)) as [->|Hne]; [eauto|].
    apply IH. apply elem_of_cons in Hin as [?|?]; congruence.
Qed.

(** X22. [_check_X_target_col] returns exactly when the types are given or
    detected without error, the target is the name of a column with at
    least two distinct values, and its kind agrees with the task: a
    categorical row of the types for 'classification', a continuous one for
    'regression', nothing for another task.  What it returns is the types,
    unchanged. *)
Theorem _check_X_target_col_accepts (type_hints : Type)
    (detect_types : list (string * Series) -> option type_hints ->
                    result (list (string * detected)))
    (X : list (string * Series)) (index : list scalar)
    (target_col : target_spec)
    (types : option (list (string * detected)))
    (hints : option type_hints) (task : option string)
    (res : list (string * detected)) :
  _check_X_target_col type_hints detect_types X index target_col types hints
    task = Ok res
  <->
  match types with
  | None => detect_types X hints
  | Some types => Ok types
  end = Ok res /\
  exists name target,
    target_col = TargetName name /\
    getitem X name = Ok target /\
    2 <= nunique target /\
    (task = Some "classification"%string ->
     exists row, types_loc res name = Ok row /\ categorical row = true) /\
    (task = Some "regression"%string ->
     exists row, types_loc res name = Ok row /\ continuous row = true).
Proof.
  unfold _check_X_target_col.
  destruct (match types with None => _ | Some _ => _ end) as [t|e];
    cbn [mbind result_bind]; [|split; [discriminate|intros [? _]; discriminate]].
  destruct target_col as [name|names].
  2:{ split; [destruct (_ <? _)%nat; discriminate|].
      intros (_ & name & target & Heq & _). discriminate. }
  destruct (decide (name ∈ X.*1)) as [Hin|Hnin].
  2:{ rewrite bool_decide_eq_false_2 by exact Hnin. cbn [negb].
      split; [discriminate|].
      intros (_ & name' & target & [= <-] & Hget & _).
      exfalso. apply Hnin. eapply getitem_column; eauto. }
  rewrite bool_decide_eq_true_2 by exact Hin. cbn [negb].
  destruct (column_getitem X name Hin) as (target & Hget). rewrite Hget.
  cbn [mbind result_bind].
  destruct (Z.ltb_spec (nunique target) 2) as [Hfew|Hmany].
  { split; [destruct (bool_decide _); discriminate|].
    intros (_ & name' & target' & [= <-] & Hget' & Hmany & _).
    rewrite Hget in Hget'. injection Hget' as <-. lia. }
  destruct (decide (task = Some "classification"%string)) as [Hc|Hc].
  - rewrite (bool_decide_eq_true_2 (task = Some "classification"%string))
      by exact Hc.
    rewrite (bool_decide_eq_false_2 (task = Some "regression"%string))
      by (rewrite Hc; discriminate).
    destruct (types_loc t name) as [row|e] eqn:Hrow; cbn [mbind result_bind].
    + destruct (categorical row) eqn:Hcat; cbn [negb mbind result_bind].
      * split.
        -- intros [= <-]. split; [reflexivity|]. exists name, target.
           repeat split; eauto; try (intros; congruence).
        -- intros ([= <-] & _). reflexivity.
      * split; [discriminate|].
        intros ([= <-] & name' & target' & [= <-] & _ & _ & Hcls & _).
        destruct (Hcls Hc) as (row' & Hrow' & Hcat').
        rewrite Hrow in Hrow'. injection Hrow' as <-. congruence.
    + split; [discriminate|].
      intros ([= <-] & name' & target' & [= <-] & _ & _ & Hcls & _).
      destruct (Hcls Hc) as (row' & Hrow' & _). congruence.
  - rewrite (bool_decide_eq_false_2 (task = Some "classification"%string))
      by exact Hc. cbn [mbind result_bind].
    destruct (decide (task = Some "regression"%string)) as [Hr|Hr].
    + rewrite (bool_decide_eq_true_2 (task = Some "regression"%string))
        by exact Hr.
      destruct (types_loc t name) as [row|e] eqn:Hrow; cbn [mbind result_bind].
      * destruct (continuous row) eqn:Hcont; cbn [negb mbind result_bind].
        -- split.
           ++ intros [= <-]. split; [reflexivity|]. exists name, target.
              repeat split; eauto; try (intros; congruence).
           ++ intros ([= <-] & _). reflexivity.
        -- split; [discriminate|].
           intros ([= <-] & name' & target' & [= <-] & _ & _ & _ & Hreg).
           destruct (Hreg Hr) as (row' & Hrow' & Hcont').
           rewrite Hrow in Hrow'. injection Hrow' as <-. congruence.
      * split; [discriminate|].
        intros ([= <-] & name' & target' & [= <-] & _ & _ & _ & Hreg).
        destruct (Hreg Hr) as (row' & Hrow' & _). congruence.
    + rewrite (bool_decide_eq_false_2 (task = Some "regression"%string))
        by exact Hr. cbn [mbind result_bind].
      split.
      * intros [= <-]. split; [reflexivity|]. exists name, target.
        repeat split; eauto; try (intros; congruence).
      * intros ([= <-] & _). reflexivity.
Qed.

Lemma _check_X_target_col_accepts_witness :
  let X := [("y"%string,
             mkSeries float64 [Some (Num (Qc_of_Z 1)); Some (Num (Qc_of_Z 2))])] in
  let types := [("y"%string, mkDetected true false)] in
  _check_X_target_col unit (fun _ _ => Ok types) X
    [Num (Qc_of_Z 0); Num (Qc_of_Z 1)] (TargetName "y")
    None None (Some "regression"%string) = Ok types.
Proof.
  intros X types.
  apply (proj2 (_check_X_target_col_accepts unit (fun _ _ => Ok types) X
                  [Num (Qc_of_Z 0); Num (Qc_of_Z 1)]
                  (TargetName "y") None None (Some "regression"%string) types)).
  split; [reflexivity|].
  exists "y"%string,
    (mkSeries float64 [Some (Num (Qc_of_Z 1)); Some (Num (Qc_of_Z 2))]).
  split; [reflexivity|]. split; [reflexivity|].
  split; [vm_compute; discriminate|]. split; [discriminate|].
  intros _. exists (mkDetected true false). split; reflexivity.
Defined.

(** X23. The order of the checks.  An error of [detect_types] comes first,
    whatever the target.  Then a list of more than one name, and a name that
    is not a column, are rejected with their own [ValueError], whatever the
    task and the types.  A column with fewer than two distinct values gives
    the "less than two classes" [ValueError] when a row of the frame has
    the label [0]; otherwise it gives the [KeyError] of reading the entry
    at that label for the message. *)
Theorem _check_X_target_col_order (type_hints : Type)
    (detect_types : list (string * Series) -> option type_hints ->
                    result (list (string * detected)))
    (X : list (string * Series)) (index : list scalar)
    (types : option (list (string * detected)))
    (hints : option type_hints) (task : option string) :
  let check target_col :=
    _check_X_target_col type_hints detect_types X index target_col types hints
      task in
  let resolved := match types with
                  | None => detect_types X hints
                  | Some types => Ok types
                  end in
  (forall e target_col, resolved = Raise e -> check target_col = Raise e) /\
  (forall res, resolved = Ok res ->
     (forall names, (1 < length names)%nat ->
        check (TargetList names) = Raise (ValueError TargetColNotAColumn)) /\
     (forall name, name ∉ X.*1 ->
        check (TargetName name) = Raise (ValueError TargetColNotValid)) /\
     (forall name target, getitem X name = Ok target -> nunique target < 2 ->
        (Num (Qc_of_Z 0) ∈ index ->
         check (TargetName name) = Raise (ValueError LessThanTwoClasses)) /\
        (Num (Qc_of_Z 0) ∉ index ->
         check (TargetName name) = Raise KeyError))).
Proof.
  intros check resolved. subst check. unfold _check_X_target_col.
  fold resolved. split.
  - intros e target_col ->. reflexivity.
  - intros res ->. cbn [mbind result_bind]. split; [|split].
    + intros names Hlen. now destruct (Nat.ltb_spec 1 (length names)); [|lia].
    + intros name Hnin. now rewrite bool_decide_eq_false_2 by exact Hnin.
    + intros name target Hget Hfew.
      rewrite bool_decide_eq_true_2 by (eapply getitem_column; eauto).
      cbn [negb]. rewrite Hget. cbn [mbind result_bind].
      destruct (Z.ltb_spec (nunique target) 2); [|lia].
      split; intros Hlabel.
      * now rewrite bool_decide_eq_true_2 by exact Hlabel.
      * now rewrite bool_decide_eq_false_2 by exact Hlabel.
Qed.

Lemma _check_X_target_col_order_witness :
  let X := [("y"%string,
             mkSeries float64 [Some (Num (Qc_of_Z 1)); Some (Num (Qc_of_Z 1))])] in
  let types := [("y"%string, mkDetected true false)] in
  _check_X_target_col unit (fun _ _ => Ok types) X
    [Num (Qc_of_Z 5); Num (Qc_of_Z 6)] (TargetName "z")
    None None (Some "regression"%string) = Raise (ValueError TargetColNotValid) /\
  _check_X_target_col unit (fun _ _ => Ok types) X
    [Num (Qc_of_Z 5); Num (Qc_of_Z 6)] (TargetName "y")
    None None (Some "regression"%string) = Raise KeyError.
Proof.
  intros X types.
  destruct (proj2 (_check_X_target_col_order unit (fun _ _ => Ok types) X
                     [Num (Qc_of_Z 5); Num (Qc_of_Z 6)]
                     None None (Some "regression"%string)) types eq_refl)
    as (_ & Hname & Hfew).
  split.
  - apply Hname. apply (bool_decide_eq_true_1 (_ ∉ _)). reflexivity.
  - apply (Hfew "y"%string
             (mkSeries float64 [Some (Num (Qc_of_Z 1)); Some (Num (Qc_of_Z 1))])
             eq_refl); [vm_compute; reflexivity|].
    apply (bool_decide_eq_true_1 (_ ∉ _)). vm_compute. reflexivity.
Defined.

(** ** The bars of plot_coefficients: positions, masks and argsort *)

Lemma take_positions_valid {A} (l : list A) (index : list nat) :
  Forall (fun p => (p < length l)%nat) index ->
  Forall2 (fun p x => l !! p = Some x) index (take_positions l index).
Proof.
  induction 1 as [|p index Hp _ IH]; [constructor|].
  unfold take_positions. cbn [omap list_omap].
  destruct (lookup_lt_is_Some_2 l p Hp) as [x Hx]. rewrite Hx.
  constructor; [exact Hx|exact IH].
Qed.

Lemma take_positions_compose {A} (l : list A) (index js : list nat) :
  Forall (fun p => (p < length l)%nat) index ->
  take_positions (take_positions l index) js
  = take_positions l (take_positions index js).
Proof.
  intros Hvalid. pose proof (take_positions_valid l index Hvalid) as Hall.
  induction js as [|j js IH]; [reflexivity|].
  unfold take_positions in *. cbn [omap list_omap].
  destruct (index !! j) as [p|] eqn:Hj.
  - destruct (Forall2_lookup_l _ _ _ _ _ Hall Hj) as (x & Hx & Hp).
    rewrite Hx. cbn [omap list_omap]. rewrite Hp. now f_equal.
  - rewrite (proj2 (lookup_ge_None _ j)); [exact IH|].
    rewrite <- (Forall2_length _ _ _ Hall). now apply lookup_ge_None.
Qed.

Lemma take_positions_seq {A} (l : list A) :
  take_positions l (seq 0 (length l)) = l.
Proof.
  assert (Hvalid : Forall (fun p => (p < length l)%nat) (seq 0 (length l))).
  { apply Forall_forall. intros p Hp%elem_of_seq. lia. }
  pose proof (take_positions_valid l _ Hvalid) as Hall.
  pose proof (Forall2_length _ _ _ Hall) as Hlen. rewrite length_seq in Hlen.
  apply list_eq. intros i. destruct (decide (i < length l)%nat) as [Hi|Hi].
  - destruct (Forall2_lookup_l _ _ _ i i Hall) as (x & Hx & Hp).
    { now apply lookup_seq_lt. }
    congruence.
  - rewrite !(proj2 (lookup_ge_None _ i)); [reflexivity|lia|lia].
Qed.

Lemma take_positions_Permutation {A} (l : list A) (js : list nat) :
  js ≡ₚ seq 0 (length l) -> take_positions l js ≡ₚ l.
Proof.
  intros Hperm. rewrite <- (take_positions_seq l) at 2.
  unfold take_positions. now rewrite Hperm.
Qed.

Lemma elem_of_take_positions {A} (l : list A) (index : list nat) x :
  x ∈ take_positions l index <-> exists p, p ∈ index /\ l !! p = Some x.
Proof. unfold take_positions. apply list_elem_of_omap. Qed.

Lemma take_positions_NoDup {A} (l : list A) (index : list nat) :
  NoDup l -> NoDup index -> NoDup (take_positions l index).
Proof.
  intros Hl. induction 1 as [|p index Hp Hnd IH]; [constructor|].
  unfold take_positions. cbn [omap list_omap].
  destruct (l !! p) as [x|] eqn:Hx; [|exact IH].
  constructor; [|exact IH].
  intros (q & Hq & Hxq)%elem_of_take_positions.
  apply Hp. now rewrite (NoDup_lookup l p q x Hl Hx Hxq).
Qed.

#[local] Instance value_le_total : Total value_le.
Proof. intros a b. unfold value_le. apply Qc_le_total. Qed.

#[local] Instance value_le_trans : Transitive value_le.
Proof. intros a b c. unfold value_le. apply Qcle_trans. Qed.

Lemma argsort_Permutation (a : list Qc) : argsort a ≡ₚ seq 0 (length a).
Proof.
  unfold argsort. rewrite merge_sort_Permutation.
  rewrite snd_zip; [reflexivity|]. now rewrite length_seq.
Qed.

Lemma argsort_pairs (a : list Qc) v i :
  (v, i) ∈ merge_sort value_le (zip a (seq 0 (length a))) -> a !! i = Some v.
Proof.
  rewrite merge_sort_Permutation. intros (j & Hj)%list_elem_of_lookup.
  apply lookup_zip_Some in Hj as [Hv Hi].
  apply lookup_seq in Hi as [-> _]. exact Hv.
Qed.

Lemma take_positions_pairs {A} (a : list A) (pairs : list (A * nat)) :
  (forall v i, (v, i) ∈ pairs -> a !! i = Some v) ->
  take_positions a pairs.*2 = pairs.*1.
Proof.
  induction pairs as [|[v i] pairs IH]; intros Hall; [reflexivity|].
  unfold take_positions in *. cbn. rewrite (Hall v i) by left.
  f_equal. apply IH. intros v' i' Hin. apply Hall. now right.
Qed.

Lemma argsort_sorted (a : list Qc) :
  StronglySorted Qcle (take_positions a (argsort a)).
Proof.
  unfold argsort. rewrite take_positions_pairs by apply argsort_pairs.
  apply (StronglySorted_fmap fst value_le); [auto|].
  apply StronglySorted_merge_sort; apply _.
Qed.

Lemma take_mask_positions_from {A} (coef : list Qc) :
  forall (l pl : list A) (pc : list Qc),
  length l = length coef -> length pl = length pc ->
  take_mask l ((fun c => negb (bool_decide (c = Qc_of_Z 0))) <$> coef)
  = take_positions (pl ++ l)
      (filter (fun i => (pc ++ coef) !! i <> Some (Qc_of_Z 0))
         (seq (length pc) (length coef))).
Proof.
  induction coef as [|c coef IH]; intros l pl pc Hl Hp.
  - now destruct l.
  - destruct l as [|x l]; [discriminate|]. injection Hl as Hl.
    cbn [length seq fmap list_fmap]. rewrite filter_cons.
    unfold take_mask. cbn [zip zip_with omap list_omap snd fst].
    fold (take_mask l ((fun c => negb (bool_decide (c = Qc_of_Z 0))) <$> coef)).
    rewrite (IH l (pl ++ [x]) (pc ++ [c]) Hl)
      by (rewrite !length_app; cbn; lia).
    rewrite <- !app_assoc, length_app. cbn [app length].
    rewrite Nat.add_1_r.
    assert (Hc : (pc ++ c :: coef) !! length pc = Some c)
      by apply list_lookup_middle, eq_refl.
    assert (Hx : (pl ++ x :: l) !! length pc = Some x)
      by (apply list_lookup_middle; congruence).
    destruct (decide (c = Qc_of_Z 0)) as [->|Hne].
    + rewrite bool_decide_eq_true_2 by reflexivity. cbn [negb].
      rewrite decide_False; [reflexivity|]. intros Hn. now apply Hn.
    + rewrite bool_decide_eq_false_2 by exact Hne. cbn [negb].
      rewrite decide_True by congruence.
      unfold take_positions. cbn [omap list_omap]. now rewrite Hx.
Qed.

Lemma take_mask_positions {A} (l : list A) (coef : list Qc) :
  length l = length coef ->
  take_mask l ((fun c => negb (bool_decide (c = Qc_of_Z 0))) <$> coef)
  = take_positions l (nonzero_positions coef).
Proof. intros Hl. exact (take_mask_positions_from coef l [] [] Hl eq_refl). Qed.

Lemma elem_of_nonzero_positions (coef : list Qc) i :
  i ∈ nonzero_positions coef
  <-> exists c, coef !! i = Some c /\ c <> Qc_of_Z 0.
Proof.
  unfold nonzero_positions. rewrite list_elem_of_filter, elem_of_seq. split.
  - intros [Hne [_ Hi]]. destruct (lookup_lt_is_Some_2 coef i) as [c Hc]; [lia|].
    exists c. split; [exact Hc|]. intros ->. contradiction.
  - intros (c & Hc & Hne). split; [congruence|].
    apply lookup_lt_Some in Hc. lia.
Qed.

Lemma NoDup_drop {A} (l : list A) n : NoDup l -> NoDup (drop n l).
Proof.
  intros Hnd. rewrite <- (take_drop n l) in Hnd.
  now apply NoDup_app in Hnd as (_ & _ & Hnd).
Qed.

Lemma plot_coefficients_run (coefficients : ndarray)
    (feature_names : list string) (n_top_features : Z) :
  (ndim (squeeze coefficients) <= 1)%nat ->
  length (data coefficients) = length feature_names ->
  let coef := data coefficients in
  let nz := nonzero_positions coef in
  exists ps,
    plot_coefficients coefficients feature_names n_top_features
    = Ok (zip (zip (take_positions feature_names ps) (take_positions coef ps))
              (colour <$> take_positions coef ps)) /\
    NoDup ps /\
    (forall i, i ∈ ps -> i ∈ nz) /\
    StronglySorted Qcle (take_positions coef ps) /\
    length ps
    = (length nz - slice_start (- n_top_features) (length nz))%nat /\
    (forall i j ci cj, i ∈ nz -> i ∉ ps -> j ∈ ps ->
       coef !! i = Some ci -> coef !! j = Some cj -> (Qcabs ci ≤ Qcabs cj)%Qc).
Proof.
  intros Hdim Hlen coef0 nz.
  assert (Hnz_valid : Forall (fun p => (p < length coef0)%nat) nz).
  { apply Forall_forall. intros p (c & Hc & _)%elem_of_nonzero_positions.
    now apply lookup_lt_Some in Hc. }
  assert (Hnz_valid' : Forall (fun p => (p < length feature_names)%nat) nz).
  { now rewrite <- Hlen. }
  pose proof (take_positions_valid coef0 nz Hnz_valid) as Hcoef.
  set (coef := take_positions coef0 nz) in *.
  pose proof (Forall2_length _ _ _ Hcoef) as Hcoef_len.
  set (pairs := merge_sort value_le
                  (zip (Qcabs <$> coef) (seq 0 (length (Qcabs <$> coef))))).
  pose proof (argsort_Permutation (Qcabs <$> coef)) as Hperm.
  unfold argsort in Hperm. fold pairs in Hperm.
  rewrite length_fmap, <- Hcoef_len in Hperm.
  pose proof (Permutation_length Hperm) as Hpairs_len.
  rewrite length_seq in Hpairs_len.
  set (d := slice_start (- n_top_features) (length pairs.*2)).
  set (ic := drop d pairs.*2).
  assert (Hic_sub : forall q, q ∈ ic -> (q < length nz)%nat).
  { intros q Hq%in_drop. rewrite Hperm in Hq. apply elem_of_seq in Hq. lia. }
  assert (Hic_valid : Forall (fun p => (p < length coef)%nat) ic).
  { apply Forall_forall. intros q Hq. rewrite <- Hcoef_len. now apply Hic_sub. }
  assert (Hic_nd : NoDup ic).
  { apply NoDup_drop. rewrite Hperm. apply NoDup_seq. }
  pose proof (Forall2_length _ _ _ (take_positions_valid coef ic Hic_valid))
    as Hsel_len.
  set (new_inds := argsort (take_positions coef ic)).
  assert (Hic' : take_positions ic new_inds ≡ₚ ic).
  { apply take_positions_Permutation. unfold new_inds.
    rewrite argsort_Permutation. now rewrite <- Hsel_len. }
  set (ic' := take_positions ic new_inds) in *.
  assert (Hic'_valid : Forall (fun p => (p < length nz)%nat) ic').
  { apply Forall_forall. intros q Hq. rewrite Hic' in Hq. now apply Hic_sub. }
  exists (take_positions nz ic').
  assert (Hvalues : take_positions coef0 (take_positions nz ic')
                    = take_positions coef ic').
  { unfold coef. now rewrite take_positions_compose. }
  split; [|split; [|split; [|split; [|split]]]].
  - unfold plot_coefficients.
    destruct (Nat.ltb_spec 1 (ndim (squeeze coefficients))); [lia|].
    unfold len, ravel, squeeze. cbn [data].
    destruct (Nat.eqb_spec (length (data coefficients)) (length feature_names));
      [|contradiction].
    cbn [negb]. fold coef0.
    rewrite !take_mask_positions by (try reflexivity; now symmetry).
    fold nz. fold coef. change (argsort (Qcabs <$> coef)) with pairs.*2.
    rewrite slice_from_drop. fold d. fold ic. fold new_inds. fold ic'.
    rewrite Hvalues. rewrite (take_positions_compose feature_names nz ic')
      by exact Hnz_valid'.
    reflexivity.
  - apply take_positions_NoDup.
    + apply NoDup_filter, NoDup_seq.
    + rewrite Hic'. exact Hic_nd.
  - intros i (q & _ & Hq)%elem_of_take_positions.
    eapply list_elem_of_lookup_2; eauto.
  - rewrite Hvalues. unfold ic'.
    rewrite <- take_positions_compose by exact Hic_valid.
    apply argsort_sorted.
  - rewrite <- (Forall2_length _ _ _ (take_positions_valid nz ic' Hic'_valid)).
    rewrite (Permutation_length Hic'). unfold ic. rewrite length_drop.
    unfold d. now rewrite Hpairs_len.
  - intros i j ci cj Hi Hnot Hj Hci Hcj.
    apply list_elem_of_lookup in Hi as (k & Hk).
    apply elem_of_take_positions in Hj as (q & Hq & Hqj).
    rewrite Hic' in Hq.
    assert (Hk_take : k ∈ take d pairs.*2).
    { assert (Hk_in : k ∈ pairs.*2).
      { rewrite Hperm. apply elem_of_seq. apply lookup_lt_Some in Hk. lia. }
      rewrite <- (take_drop d pairs.*2) in Hk_in.
      apply elem_of_app in Hk_in as [?|Hk_drop]; [assumption|].
      exfalso. apply Hnot. apply elem_of_take_positions. exists k.
      split; [|exact Hk]. rewrite Hic'. exact Hk_drop. }
    unfold ic in Hq. rewrite <- fmap_drop in Hq. rewrite <- fmap_take in Hk_take.
    apply list_elem_of_fmap in Hk_take as ([v k'] & Hk' & Hvk). cbn in Hk'. subst k'.
    apply list_elem_of_fmap in Hq as ([w q'] & Hq' & Hwq). cbn in Hq'. subst q'.
    assert (Hsorted : StronglySorted value_le pairs)
      by (apply StronglySorted_merge_sort; apply _).
    rewrite <- (take_drop d pairs) in Hsorted.
    pose proof (StronglySorted_app_1_elem_of _ _ _ _ _ Hsorted Hvk Hwq) as Hle.
    unfold value_le in Hle. cbn [fst] in Hle.
    assert (Habs : forall v p c, (v, p) ∈ pairs -> forall i',
              nz !! p = Some i' -> coef0 !! i' = Some c -> v = Qcabs c).
    { intros v0 p c Hin i' Hp Hc. apply argsort_pairs in Hin.
      rewrite list_lookup_fmap in Hin.
      destruct (Forall2_lookup_l _ _ _ _ _ Hcoef Hp) as (x & Hx & Hx').
      rewrite Hx in Hin. cbn in Hin. congruence. }
    rewrite (Habs v k ci (in_take _ _ _ Hvk) i Hk Hci) in Hle.
    rewrite (Habs w q cj (in_drop _ _ _ Hwq) j Hqj Hcj) in Hle.
    exact Hle.
Qed.

Lemma plot_coefficients_Ok (coefficients : ndarray)
    (feature_names : list string) (n_top_features : Z) bars :
  plot_coefficients coefficients feature_names n_top_features = Ok bars ->
  (ndim (squeeze coefficients) <= 1)%nat /\
  length (data coefficients) = length feature_names.
Proof.
  intros Hrun. unfold plot_coefficients in Hrun.
  destruct (Nat.ltb_spec 1 (ndim (squeeze coefficients))) as [|Hdim];
    [discriminate|].
  split; [exact Hdim|].
  unfold len, ravel, squeeze in Hrun. cbn [data] in Hrun.
  now destruct (Nat.eqb_spec (length (data coefficients)) (length feature_names)).
Qed.

Lemma bars_Forall2 (feature_names : list string) (coef : list Qc)
    (ps : list nat) :
  Forall (fun p => (p < length feature_names)%nat) ps ->
  Forall (fun p => (p < length coef)%nat) ps ->
  Forall2 (fun i (bar : string * Qc * color) =>
             feature_names !! i = Some bar.1.1 /\
             coef !! i = Some bar.1.2 /\
             bar.2 = colour bar.1.2)
    ps (zip (zip (take_positions feature_names ps) (take_positions coef ps))
            (colour <$> take_positions coef ps)).
Proof.
  induction ps as [|p ps IH]; intros Hn Hc; [constructor|].
  apply Forall_cons in Hn as [Hp Hn]. apply Forall_cons in Hc as [Hp' Hc].
  destruct (lookup_lt_is_Some_2 _ _ Hp) as [name Hname].
  destruct (lookup_lt_is_Some_2 _ _ Hp') as [c Hcoef].
  unfold take_positions in *. cbn [omap list_omap]. rewrite Hname, Hcoef.
  cbn [fmap list_fmap zip zip_with]. constructor; [now cbn|].
  now apply IH.
Qed.

Lemma bars_coefficients (feature_names : list string) (coef : list Qc)
    (ps : list nat) :
  Forall (fun p => (p < length feature_names)%nat) ps ->
  Forall (fun p => (p < length coef)%nat) ps ->
  (zip (zip (take_positions feature_names ps) (take_positions coef ps))
       (colour <$> take_positions coef ps)).*1.*2
  = take_positions coef ps.
Proof.
  intros Hn Hc.
  pose proof (Forall2_length _ _ _ (take_positions_valid _ _ Hn)) as Hln.
  pose proof (Forall2_length _ _ _ (take_positions_valid _ _ Hc)) as Hlc.
  rewrite fst_zip by (rewrite length_fmap, length_zip; lia).
  apply snd_zip. lia.
Qed.

Lemma drawn_positions_valid (feature_names : list string) (coef : list Qc)
    (ps : list nat) :
  length coef = length feature_names ->
  (forall i, i ∈ ps -> i ∈ nonzero_positions coef) ->
  Forall (fun p => (p < length feature_names)%nat) ps /\
  Forall (fun p => (p < length coef)%nat) ps.
Proof.
  intros Hlen Hsub.
  assert (Hc : Forall (fun p => (p < length coef)%nat) ps).
  { apply Forall_forall. intros p Hp.
    apply Hsub, elem_of_nonzero_positions in Hp as (c & Hc & _).
    now apply lookup_lt_Some in Hc. }
  split; [now rewrite <- Hlen|exact Hc].
Qed.

Lemma Forall2_and_l {A B} (R : A -> B -> Prop) (Q : A -> Prop) l k :
  Forall2 R l k -> Forall Q l -> Forall2 (fun x y => R x y /\ Q x) l k.
Proof.
  induction 1 as [|x y l k HR _ IH]; intros HQ; [constructor|].
  apply Forall_cons in HQ as [Hx HQ]. constructor; auto.
Qed.

(** X24. Every bar [plot_coefficients] draws shows a coefficient that is
    not zero under the name that stands at the same position of the input,
    and no position of the input is drawn twice. *)
Theorem plot_coefficients_bars (coefficients : ndarray)
    (feature_names : list string) (n_top_features : Z)
    (bars : list (string * Qc * color)) :
  plot_coefficients coefficients feature_names n_top_features = Ok bars ->
  exists ps,
    NoDup ps /\
    Forall2 (fun i (bar : string * Qc * color) =>
               feature_names !! i = Some bar.1.1 /\
               data coefficients !! i = Some bar.1.2 /\
               bar.1.2 <> Qc_of_Z 0)
      ps bars.
Proof.
  intros Hrun. destruct (plot_coefficients_Ok _ _ _ _ Hrun) as [Hdim Hlen].
  destruct (plot_coefficients_run coefficients feature_names n_top_features
              Hdim Hlen) as (ps & Hps & Hnd & Hsub & _).
  rewrite Hps in Hrun. injection Hrun as <-.
  exists ps. split; [exact Hnd|].
  destruct (drawn_positions_valid feature_names _ ps Hlen Hsub) as [Hn Hc].
  eapply Forall2_impl.
  - apply (Forall2_and_l _ (fun i => i ∈ nonzero_positions (data coefficients))
             _ _ (bars_Forall2 feature_names (data coefficients) ps Hn Hc)).
    apply Forall_forall. exact Hsub.
  - cbn beta. intros i bar ((Hname & Hcoef & _) & Hi).
    split; [exact Hname|]. split; [exact Hcoef|].
    apply elem_of_nonzero_positions in Hi as (c & Hc' & Hne). congruence.
Qed.

Lemma plot_coefficients_bars_witness :
  exists bars ps,
    plot_coefficients (mkArray [3]%nat [Qc_of_Z 3; Qc_of_Z 0; Qc_of_Z (-5)])
      ["a"; "b"; "c"]%string 10 = Ok bars /\
    NoDup ps /\
    Forall2 (fun i (bar : string * Qc * color) =>
               ["a"; "b"; "c"]%string !! i = Some bar.1.1 /\
               [Qc_of_Z 3; Qc_of_Z 0; Qc_of_Z (-5)] !! i = Some bar.1.2 /\
               bar.1.2 <> Qc_of_Z 0)
      ps bars.
Proof.
  eexists.
  destruct (plot_coefficients_bars
              (mkArray [3]%nat [Qc_of_Z 3; Qc_of_Z 0; Qc_of_Z (-5)])
              ["a"; "b"; "c"]%string 10 _ eq_refl) as (ps & Hnd & Hall).
  exists ps. split; [reflexivity|]. split; [exact Hnd|exact Hall].
Defined.

Lemma StronglySorted_lookup {A} (R : relation A) (l : list A) i j x y :
  StronglySorted R l -> (i < j)%nat ->
  l !! i = Some x -> l !! j = Some y -> R x y.
Proof.
  intros Hsorted Hij Hi Hj. rewrite <- (take_drop j l) in Hsorted.
  apply (StronglySorted_app_1_elem_of _ _ _ _ _ Hsorted).
  - apply elem_of_take. eauto.
  - apply list_elem_of_lookup. exists 0%nat.
    now rewrite lookup_drop, Nat.add_0_r.
Qed.

(** X25. The bars stand in ascending order of their coefficient, and a bar
    is red exactly when its coefficient is negative: no red bar stands to
    the right of a blue one. *)
Theorem plot_coefficients_ascending (coefficients : ndarray)
    (feature_names : list string) (n_top_features : Z)
    (bars : list (string * Qc * color)) :
  plot_coefficients coefficients feature_names n_top_features = Ok bars ->
  StronglySorted Qcle bars.*1.*2 /\
  Forall (fun bar : string * Qc * color =>
            bar.2 = red <-> (bar.1.2 < Qc_of_Z 0)%Qc) bars /\
  forall i j left right,
    (i < j)%nat -> bars !! i = Some left -> bars !! j = Some right ->
    left.2 = blue -> right.2 = blue.
Proof.
  intros Hrun. destruct (plot_coefficients_Ok _ _ _ _ Hrun) as [Hdim Hlen].
  destruct (plot_coefficients_run coefficients feature_names n_top_features
              Hdim Hlen) as (ps & Hps & _ & Hsub & Hsorted & _).
  rewrite Hps in Hrun. injection Hrun as <-.
  destruct (drawn_positions_valid feature_names _ ps Hlen Hsub) as [Hn Hc].
  pose proof (bars_Forall2 feature_names (data coefficients) ps Hn Hc) as Hall.
  pose proof (bars_coefficients feature_names (data coefficients) ps Hn Hc)
    as Hvalues.
  set (bars := zip _ _) in *.
  assert (Hcolour : forall k bar, bars !! k = Some bar ->
            bar.2 = red <-> (bar.1.2 < Qc_of_Z 0)%Qc).
  { intros k bar Hk.
    destruct (Forall2_lookup_r _ _ _ _ _ Hall Hk) as (i & _ & _ & _ & ->).
    unfold colour. destruct (decide (bar.1.2 < Qc_of_Z 0)%Qc) as [Hlt|Hge].
    - now rewrite bool_decide_eq_true_2.
    - rewrite bool_decide_eq_false_2 by exact Hge. split; [discriminate|tauto]. }
  rewrite <- Hvalues in Hsorted.
  split; [exact Hsorted|]. split.
  { apply Forall_forall. intros bar (k & Hk)%list_elem_of_lookup. eauto. }
  intros i j left right Hij Hi Hj Hblue.
  assert (Hle : (left.1.2 ≤ right.1.2)%Qc).
  { apply (StronglySorted_lookup Qcle bars.*1.*2 i j); [assumption..| |].
    - now rewrite !list_lookup_fmap, Hi.
    - now rewrite !list_lookup_fmap, Hj. }
  destruct (right.2) eqn:Hright; [exfalso|reflexivity].
  apply (Hcolour j right Hj) in Hright.
  assert (Hred : left.2 = red).
  { apply (Hcolour i left Hi). eapply Qcle_lt_trans; eauto. }
  congruence.
Qed.

Lemma plot_coefficients_ascending_witness :
  exists bars,
    plot_coefficients (mkArray [3]%nat [Qc_of_Z 3; Qc_of_Z 0; Qc_of_Z (-5)])
      ["a"; "b"; "c"]%string 10 = Ok bars /\
    StronglySorted Qcle bars.*1.*2.
Proof.
  eexists. split; [reflexivity|].
  apply (plot_coefficients_ascending
           (mkArray [3]%nat [Qc_of_Z 3; Qc_of_Z 0; Qc_of_Z (-5)])
           ["a"; "b"; "c"]%string 10 _ eq_refl).
Defined.

(** X26. The number of bars: with [nz] coefficients that are not zero,
    [min n_top_features nz] bars for a positive [n_top_features], all [nz]
    for [n_top_features = 0], and [nz + n_top_features] of them, if any, for
    a negative one. *)
Theorem plot_coefficients_count (coefficients : ndarray)
    (feature_names : list string) (n_top_features : Z)
    (bars : list (string * Qc * color)) :
  plot_coefficients coefficients feature_names n_top_features = Ok bars ->
  let nz := Z.of_nat (length (nonzero_positions (data coefficients))) in
  Z.of_nat (length bars)
  = if 0 <? n_top_features then Z.min n_top_features nz
    else if n_top_features =? 0 then nz
    else Z.max 0 (nz + n_top_features).
Proof.
  intros Hrun nz. destruct (plot_coefficients_Ok _ _ _ _ Hrun) as [Hdim Hlen].
  destruct (plot_coefficients_run coefficients feature_names n_top_features
              Hdim Hlen) as (ps & Hps & _ & Hsub & _ & Hcount & _).
  rewrite Hps in Hrun. injection Hrun as <-.
  destruct (drawn_positions_valid feature_names _ ps Hlen Hsub) as [Hn Hc].
  rewrite <- (Forall2_length _ _ _
                (bars_Forall2 feature_names (data coefficients) ps Hn Hc)).
  rewrite Hcount. unfold slice_start. subst nz.
  destruct (Z.ltb_spec 0 n_top_features), (Z.ltb_spec (- n_top_features) 0),
    (Z.eqb_spec n_top_features 0); lia.
Qed.

Lemma plot_coefficients_count_witness :
  exists bars,
    plot_coefficients
      (mkArray [4]%nat [Qc_of_Z 3; Qc_of_Z 0; Qc_of_Z (-5); Qc_of_Z 1])
      ["a"; "b"; "c"; "d"]%string 2 = Ok bars /\
    Z.of_nat (length bars) = 2.
Proof.
  eexists. split; [reflexivity|].
  apply (plot_coefficients_count
           (mkArray [4]%nat [Qc_of_Z 3; Qc_of_Z 0; Qc_of_Z (-5); Qc_of_Z 1])
           ["a"; "b"; "c"; "d"]%string 2 _ eq_refl).
Defined.

(** X27. The bars are those of the largest magnitudes: a coefficient of
    the input that is not zero is drawn, under its name and in its colour,
    or its magnitude is at most that of every bar drawn. *)
Theorem plot_coefficients_largest (coefficients : ndarray)
    (feature_names : list string) (n_top_features : Z)
    (bars : list (string * Qc * color)) (i : nat) (name : string) (c : Qc) :
  plot_coefficients coefficients feature_names n_top_features = Ok bars ->
  feature_names !! i = Some name ->
  data coefficients !! i = Some c ->
  c <> Qc_of_Z 0 ->
  (name, c, colour c) ∈ bars \/
  forall bar, bar ∈ bars -> (Qcabs c ≤ Qcabs bar.1.2)%Qc.
Proof.
  intros Hrun Hname Hcoef Hne.
  destruct (plot_coefficients_Ok _ _ _ _ Hrun) as [Hdim Hlen].
  destruct (plot_coefficients_run coefficients feature_names n_top_features
              Hdim Hlen) as (ps & Hps & _ & Hsub & _ & _ & Hlargest).
  rewrite Hps in Hrun. injection Hrun as <-.
  destruct (drawn_positions_valid feature_names _ ps Hlen Hsub) as [Hn Hc].
  pose proof (bars_Forall2 feature_names (data coefficients) ps Hn Hc) as Hall.
  set (bars := zip _ _) in *.
  destruct (decide (i ∈ ps)) as [Hi|Hi].
  - left. apply list_elem_of_lookup in Hi as (k & Hk).
    destruct (Forall2_lookup_l _ _ _ _ _ Hall Hk)
      as ([[name' c'] col] & Hbar & Hname' & Hcoef' & Hcol).
    cbn in Hname', Hcoef', Hcol. apply list_elem_of_lookup. exists k.
    rewrite Hbar. congruence.
  - right. intros bar (k & Hk)%list_elem_of_lookup.
    destruct (Forall2_lookup_r _ _ _ _ _ Hall Hk) as (j & Hj & _ & Hcj & _).
    apply (Hlargest i j c bar.1.2); auto.
    + apply elem_of_nonzero_positions. eauto.
    + eapply list_elem_of_lookup_2; eauto.
Qed.

Lemma plot_coefficients_largest_witness :
  exists bars,
    plot_coefficients
      (mkArray [4]%nat [Qc_of_Z 3; Qc_of_Z 0; Qc_of_Z (-5); Qc_of_Z 1])
      ["a"; "b"; "c"; "d"]%string 2 = Ok bars /\
    (("d"%string, Qc_of_Z 1, colour (Qc_of_Z 1)) ∈ bars \/
     forall bar, bar ∈ bars -> (Qcabs (Qc_of_Z 1) ≤ Qcabs bar.1.2)%Qc).
Proof.
  eexists. split; [reflexivity|].
  apply (plot_coefficients_largest
           (mkArray [4]%nat [Qc_of_Z 3; Qc_of_Z 0; Qc_of_Z (-5); Qc_of_Z 1])
           ["a"; "b"; "c"; "d"]%string 2 _ 3%nat "d"%string (Qc_of_Z 1)
           eq_refl eq_refl eq_refl).
  apply (bool_decide_eq_true_1 (_ <> _)). reflexivity.
Defined.

(** ** The number of bins of class_hists *)

(** X28. Whenever [class_hists] gets bin edges it gets at least ten of
    them, that is nine bins or more.  An integer [n >= 1] gives [n] bins
    from nine on and ten bins below; edges given explicitly are replaced by
    ten equal bins over the range of the data when there are fewer than ten
    of them; and the only errors are those of the first call of
    [np.histogram_bin_edges]. *)
Theorem class_hists_bin_count (auto_bins : list Qc -> positive)
    (column : list (option Qc)) :
  let col_data := dropna column in
  let ten_bins := linspace (outer_edges col_data).1 (outer_edges col_data).2 11 in
  (forall bins bin_edges,
     class_hists_bin_edges auto_bins column bins = Ok bin_edges ->
     (10 <= length bin_edges)%nat) /\
  (forall n, 1 <= n ->
     exists bin_edges,
       class_hists_bin_edges auto_bins column (BinsInt n) = Ok bin_edges /\
       Z.of_nat (length bin_edges) - 1 = if n <? 9 then 10 else n) /\
  (forall edges, monotonic edges = true -> (length edges < 10)%nat ->
     class_hists_bin_edges auto_bins column (BinsEdges edges) = Ok ten_bins) /\
  (forall bins e,
     class_hists_bin_edges auto_bins column bins = Raise e <->
     histogram_bin_edges auto_bins col_data bins = Raise e).
Proof.
  intros col_data ten_bins.
  assert (Hten : histogram_bin_edges auto_bins col_data (BinsInt 10) = Ok ten_bins)
    by reflexivity.
  split; [|split; [|split]].
  - intros bins bin_edges. unfold class_hists_bin_edges. fold col_data.
    destruct (histogram_bin_edges auto_bins col_data bins) as [first|e];
      cbn [mbind result_bind]; [|discriminate].
    destruct (Nat.ltb_spec (length first) 10) as [Hlt|Hge].
    + rewrite Hten. intros [= <-]. unfold ten_bins. rewrite length_linspace. lia.
    + now intros [= <-].
  - intros n Hn. unfold class_hists_bin_edges. fold col_data.
    cbn [histogram_bin_edges]. destruct (Z.ltb_spec n 1) as [|_]; [lia|].
    cbn [mbind result_bind]. rewrite length_linspace.
    destruct (Nat.ltb_spec (Z.to_nat n + 1) 10) as [Hlt|Hge].
    + exists ten_bins. split; [exact Hten|]. unfold ten_bins.
      rewrite length_linspace. destruct (Z.ltb_spec n 9); lia.
    + eexists. split; [reflexivity|]. rewrite length_linspace.
      destruct (Z.ltb_spec n 9); lia.
  - intros edges Hmono Hfew. unfold class_hists_bin_edges. fold col_data.
    cbn [histogram_bin_edges]. rewrite Hmono. cbn [mbind result_bind].
    destruct (Nat.ltb_spec (length edges) 10) as [_|?]; [exact Hten|lia].
  - intros bins e. unfold class_hists_bin_edges. fold col_data.
    destruct (histogram_bin_edges auto_bins col_data bins) as [first|e'];
      cbn [mbind result_bind]; [|reflexivity].
    destruct (length first <? 10)%nat; [rewrite Hten|]; split; discriminate.
Qed.

Lemma class_hists_bin_count_witness :
  exists bin_edges,
    class_hists_bin_edges (fun _ => 1%positive)
      [Some (Qc_of_Z 1); None; Some (Qc_of_Z 4)] (BinsInt 3) = Ok bin_edges /\
    Z.of_nat (length bin_edges) - 1 = 10.
Proof.
  apply (proj1 (proj2 (class_hists_bin_count (fun _ => 1%positive)
                         [Some (Qc_of_Z 1); None; Some (Qc_of_Z 4)])) 3).
  lia.
Defined.
